(** * Model versions and pipeline definitions of the model server

    A shallow embedding of [src/model.hpp] (class [Model]) and of the
    pipeline factory translation unit that follows it in the same file
    ([PipelineDefinition::create], [validateNode], [validateForCycles],
    [validateNodes], [PipelineFactory::createDefinition]).

    - [std::map] and the maps that are only looked up are [gmap]s;
    - [pipeline_connections_t] is iterated by the validation code, and the
      first failing check depends on the iteration order, so it is an
      association list whose order is the iteration order;
    - [std::vector] is a list in the vector's order ([push_back] appends);
    - a [Status] is its [StatusCode]. *)

From stdpp Require Import gmap strings list fin_maps relations.

Set Warnings "-clear-no-such-hyp".

Open Scope string_scope.
Open Scope list_scope.
Open Scope nat_scope.

(** ** Status codes

    [status.hpp] is not part of the sources at hand.  The type lists the
    codes the translated functions return, and the codes the specification
    names for them. *)

Inductive StatusCode : Set :=
| OK
| MODEL_NAME_MISSING
| MODEL_VERSION_MISSING
| MODEL_VERSION_NOT_LOADED_YET
| MODEL_VERSION_NOT_LOADED_ANYMORE
| MODEL_MISSING
| FORBIDDEN_MODEL_DYNAMIC_PARAMETER
| INVALID_MISSING_INPUT
| INVALID_MISSING_OUTPUT
| PIPELINE_DEFINITION_ALREADY_EXIST
| PIPELINE_DEFINITION_NAME_MISSING
| PIPELINE_DEFINITION_MISSING_DEPENDENCY_MAPPING
| PIPELINE_MISSING_DEPENDENCY
| PIPELINE_NODE_WRONG_KIND_CONFIGURATION
| PIPELINE_NODE_NAME_DUPLICATE
| PIPELINE_MULTIPLE_ENTRY_NODES
| PIPELINE_MULTIPLE_EXIT_NODES
| PIPELINE_MISSING_ENTRY_OR_EXIT
| PIPELINE_CYCLE_FOUND
| PIPELINE_CONTAINS_UNCONNECTED_NODES.

#[global] Instance StatusCode_eq_dec : EqDecision StatusCode.
Proof. solve_decision. Defined.

(** ** Model configuration, instances and models *)

(** [model_version_t]: a signed integer; [0] stands for "no version". *)
Abbreviation model_version_t := Z.

(** [ModelConfig] and its parts ([modelconfig.hpp] is missing): the
    batching mode and the shapes are what [validateNode] reads. *)
Inductive Mode : Set := FIXED | AUTO.

#[global] Instance Mode_eq_dec : EqDecision Mode.
Proof. solve_decision. Defined.

Record ShapeInfo : Set := mkShapeInfo {
  shapeMode : Mode;
  shape : list N
}.

#[global] Instance ShapeInfo_eq_dec : EqDecision ShapeInfo.
Proof. solve_decision. Defined.

Record ModelConfig : Type := mkModelConfig {
  getBasePath : string;
  getBatchingMode : Mode;
  getBatchSize : N;
  getShapes : gmap string ShapeInfo;
  getNireq : N
}.

#[global] Instance ModelConfig_eq_dec : EqDecision ModelConfig.
Proof. solve_decision. Defined.

Record TensorInfo : Set := mkTensorInfo {
  getPrecision : string;
  getShape : list N
}.

#[global] Instance TensorInfo_eq_dec : EqDecision TensorInfo.
Proof. solve_decision. Defined.

Abbreviation tensor_map_t := (gmap string TensorInfo).

(** Modelled from the spec: the states of a model version
    ([modelversionstatus.hpp] is missing), as section 4.B lists them. *)
Inductive ModelVersionState : Set :=
| BEGIN | LOADING | LOADING_FAILED | AVAILABLE | UNLOADING | END.

#[global] Instance ModelVersionState_eq_dec : EqDecision ModelVersionState.
Proof. solve_decision. Defined.

(** Modelled from the spec: the attributes of a [ModelInstance]
    ([modelinstance.hpp] is missing) that section 3 lists, under the names
    of the accessors the validation code calls. *)
Record ModelInstance : Type := mkModelInstance {
  getName : string;
  getVersion : Z;
  getModelConfig : ModelConfig;
  getInputsInfo : tensor_map_t;
  getOutputsInfo : tensor_map_t;
  getState : ModelVersionState
}.

#[global] Instance ModelInstance_eq_dec : EqDecision ModelInstance.
Proof. solve_decision. Defined.

(** [class Model]: the name, the versions and the default version. *)
Record Model : Type := mkModel {
  name : string;
  modelVersions : gmap Z ModelInstance;
  defaultVersion : Z
}.

(** [Model(const std::string& name)]: no version, default version [0]. *)
Definition newModel (n : string) : Model :=
  {| name := n; modelVersions := ∅; defaultVersion := 0 |}.

Definition getDefaultVersion (m : Model) : Z := defaultVersion m.

(** [it != modelVersions.end() ? it->second : nullptr] *)
Definition getModelInstanceByVersion (m : Model) (version : Z)
  : option ModelInstance :=
  modelVersions m !! version.

(** ** Pipeline definitions *)

Inductive NodeKind : Set := ENTRY | DL | EXIT.

#[global] Instance NodeKind_eq_dec : EqDecision NodeKind.
Proof. solve_decision. Defined.

Record NodeInfo : Type := mkNodeInfo {
  kind : NodeKind;
  nodeName : string;
  modelName : string;
  modelVersion : option Z;
  outputNameAliases : gmap string string
}.

#[global] Instance NodeInfo_eq_dec : EqDecision NodeInfo.
Proof. solve_decision. Defined.

(** [InputPairs]: the bindings of one edge, pairs (output alias of the
    source, input name of the destination), in declaration order. *)
Abbreviation InputPairs := (list (string * string)).

(** [pipeline_connections_t]: dependant node name, then dependency node
    name, then the bindings. *)
Abbreviation node_connections_t := (list (string * InputPairs)).
Abbreviation pipeline_connections_t := (list (string * node_connections_t)).

Record PipelineDefinition : Type := mkPipelineDefinition {
  pipelineName : string;
  nodeInfos : list NodeInfo;
  connections : pipeline_connections_t
}.

(** [toNodeKind], with the constant [DL_NODE_CONFIG_TYPE] as an argument
    (its header is not at hand). *)
Definition toNodeKind (DL_NODE_CONFIG_TYPE str : string)
  : StatusCode * option NodeKind :=
  if decide (str = DL_NODE_CONFIG_TYPE) then (OK, Some DL)
  else (PIPELINE_NODE_WRONG_KIND_CONFIGURATION, None).

(** Lookup in a map kept as an association list: the first entry of the
    key. *)
Fixpoint assoc_find {V : Type} (k : string) (l : list (string * V))
  : option V :=
  match l with
  | [] => None
  | (k', v) :: rest => if decide (k' = k) then Some v else assoc_find k rest
  end.

(** [connections[nodeName]] as a read.  The C++ [operator[]] also inserts
    an empty entry for an absent key; [connections_touch] is that effect,
    and [connections_at_touch] shows that no later read sees it. *)
Definition connections_at
    (c : pipeline_connections_t)
    (n : string) : node_connections_t :=
  default [] (assoc_find n c).

Definition connections_touch
    (c : pipeline_connections_t)
    (n : string) : pipeline_connections_t :=
  match assoc_find n c with
  | Some _ => c
  | None => c ++ [(n, [])]
  end.

(** The outcome of [getModelInstance]: the instance (status OK, the unload
    guard lives until the end of the enclosing scope), or a status that is
    not OK. *)
Inductive ModelLookup : Type :=
| Resolved (instance : ModelInstance)
| Failed (status : StatusCode).

Definition is_Resolved (l : ModelLookup) : Prop :=
  match l with
  | Resolved _ => True
  | Failed _ => False
  end.

(** The statuses [validateNode] returns. *)
Definition nodeStatus (status : StatusCode) : Prop :=
  match status with
  | OK | MODEL_NAME_MISSING | FORBIDDEN_MODEL_DYNAMIC_PARAMETER
  | MODEL_MISSING | PIPELINE_DEFINITION_MISSING_DEPENDENCY_MAPPING
  | INVALID_MISSING_OUTPUT | INVALID_MISSING_INPUT => True
  | _ => False
  end.

(** Two node descriptions that differ at most in the declared model
    version. *)
Definition sameButVersion (a b : NodeInfo) : Prop :=
  kind a = kind b ∧ nodeName a = nodeName b ∧ modelName a = modelName b ∧
  outputNameAliases a = outputNameAliases b.

(** The name of the output a binding refers to: the entry of the alias in
    the alias map of the source node, or the alias itself. *)
Definition resolveOutputName (sourceNodeInfo : NodeInfo)
    (dependencyOutputAliasName : string) : string :=
  match outputNameAliases sourceNodeInfo !! dependencyOutputAliasName with
  | Some realName => realName
  | None => dependencyOutputAliasName
  end.

(** The loop over [config.getShapes()]. *)
Definition anyShapeAuto (shapes : gmap string ShapeInfo) : bool :=
  existsb (λ kv, bool_decide (shapeMode kv.2 = AUTO)) (map_to_list shapes).

(** What the first half of [validateNode] leaves behind: a status to
    return, or the inputs of the node ([nodeInputs], empty unless the node
    is a DL node). *)
Inductive NodeModelCheck : Type :=
| NodeRejected (status : StatusCode)
| NodeInputs (nodeInputs : tensor_map_t).

Section Validation.

(** [getModelInstance] is declared in [prediction_service_utils.hpp],
    which is not at hand: validation is stated for any manager state and
    any resolution function. *)
Context {ModelManager : Type}.
Variable getModelInstance : ModelManager → string → Z → ModelLookup.

(** Lines 280-303 of [validateNode]. *)
Definition validateNodeModel (manager : ModelManager) (node : NodeInfo)
  : NodeModelCheck :=
  match kind node with
  | DL =>
      match getModelInstance manager (modelName node)
              (default 0%Z (modelVersion node)) with
      | Failed _ => NodeRejected MODEL_NAME_MISSING
      | Resolved nodeModelInstance =>
          let config := getModelConfig nodeModelInstance in
          if decide (getBatchingMode config = AUTO)
          then NodeRejected FORBIDDEN_MODEL_DYNAMIC_PARAMETER
          else if anyShapeAuto (getShapes config)
          then NodeRejected FORBIDDEN_MODEL_DYNAMIC_PARAMETER
          else NodeInputs (getInputsInfo nodeModelInstance)
      end
  | _ => NodeInputs ∅
  end.

(** The loop [for (auto alias : connection.second)].  [OK] stands for
    leaving the loop without a [return]. *)
Fixpoint validateAliases (sourceNodeInfo : NodeInfo)
    (sourceNodeOutputs : tensor_map_t)
    (node : NodeInfo) (nodeInputs : tensor_map_t)
    (aliases : InputPairs) : StatusCode :=
  match aliases with
  | [] => OK
  | (dependencyOutputAliasName, inputName) :: rest =>
      let dependencyOutputName :=
        resolveOutputName sourceNodeInfo dependencyOutputAliasName in
      match sourceNodeOutputs !! dependencyOutputName with
      | None => INVALID_MISSING_OUTPUT
      | Some _ =>
          if decide (kind node ≠ DL) then OK (* break *)
          else
            match nodeInputs !! inputName with
            | None => INVALID_MISSING_INPUT
            | Some _ =>
                validateAliases sourceNodeInfo sourceNodeOutputs
                  node nodeInputs rest
            end
      end
  end.

(** One round of the loop over [connections[node.nodeName]]; [OK]
    stands for reaching the end of the body. *)
Definition validateConnection (manager : ModelManager)
    (infos : list NodeInfo) (node : NodeInfo)
    (nodeInputs : tensor_map_t)
    (connection : string * InputPairs) : StatusCode :=
  let sourceNodeName := connection.1 in
  match find (λ nodeInfo, bool_decide (nodeName nodeInfo = sourceNodeName))
          infos with
  | None => MODEL_NAME_MISSING
  | Some sourceNodeInfo =>
      match kind sourceNodeInfo with
      | DL =>
          match getModelInstance manager (modelName sourceNodeInfo) 0%Z with
          | Failed _ => MODEL_MISSING
          | Resolved sourceNodeModelInstance =>
              if decide (length connection.2 = 0)
              then PIPELINE_DEFINITION_MISSING_DEPENDENCY_MAPPING
              else validateAliases sourceNodeInfo
                     (getOutputsInfo sourceNodeModelInstance)
                     node nodeInputs connection.2
          end
      | _ => OK
      end
  end.

(** The loop over the connections of the node: the first status that is
    not [OK]. *)
Fixpoint validateConnections (manager : ModelManager)
    (infos : list NodeInfo) (node : NodeInfo)
    (nodeInputs : tensor_map_t)
    (cs : node_connections_t) : StatusCode :=
  match cs with
  | [] => OK
  | connection :: rest =>
      match validateConnection manager infos node nodeInputs connection with
      | OK => validateConnections manager infos node nodeInputs rest
      | status => status
      end
  end.

Definition validateNode (manager : ModelManager)
    (def : PipelineDefinition) (node : NodeInfo) : StatusCode :=
  match validateNodeModel manager node with
  | NodeRejected status => status
  | NodeInputs nodeInputs =>
      validateConnections manager (nodeInfos def) node nodeInputs
        (connections_at (connections def) (nodeName node))
  end.

(** [std::count_if(nodeInfos.begin(), nodeInfos.end(), findByName)] *)
Definition countByName (infos : list NodeInfo) (n : string) : nat :=
  length (filter (λ nodeInfo, nodeName nodeInfo = n) infos).

(** The loop of [validateNodes] over the nodes still to visit, with the
    two flags; after the loop, the two checks on the flags. *)
Fixpoint validateNodesLoop (manager : ModelManager)
    (def : PipelineDefinition) (entryFound exitFound : bool)
    (todo : list NodeInfo) : StatusCode :=
  match todo with
  | [] =>
      if negb entryFound then PIPELINE_MISSING_ENTRY_OR_EXIT
      else if negb exitFound then PIPELINE_MISSING_ENTRY_OR_EXIT
      else OK
  | node :: rest =>
      if decide (1 < countByName (nodeInfos def) (nodeName node))
      then PIPELINE_NODE_NAME_DUPLICATE
      else
        match validateNode manager def node with
        | OK =>
            if decide (kind node = ENTRY) then
              if entryFound then PIPELINE_MULTIPLE_ENTRY_NODES
              else validateNodesLoop manager def true exitFound rest
            else if decide (kind node = EXIT) then
              if exitFound then PIPELINE_MULTIPLE_EXIT_NODES
              else validateNodesLoop manager def entryFound true rest
            else validateNodesLoop manager def entryFound exitFound rest
        | result => result
        end
  end.

(** The number of nodes of a kind, to state which nodes the loop has
    seen. *)
Definition countByKind (infos : list NodeInfo) (k : NodeKind) : nat :=
  length (filter (λ nodeInfo, kind nodeInfo = k) infos).

(** A node passes its round of the loop up to the checks on the flags. *)
Definition nodePasses (manager : ModelManager) (def : PipelineDefinition)
    (node : NodeInfo) : Prop :=
  countByName (nodeInfos def) (nodeName node) ≤ 1 ∧
  validateNode manager def node = OK.

Definition validateNodes (manager : ModelManager)
    (def : PipelineDefinition) : StatusCode :=
  validateNodesLoop manager def false false (nodeInfos def).

End Validation.

(** ** The checks of the validation, in their order *)

(** The first status of a list of checks that is not [OK]; [OK] when
    every check passed. *)
Fixpoint firstFailure (checks : list StatusCode) : StatusCode :=
  match checks with
  | [] => OK
  | OK :: rest => firstFailure rest
  | status :: _ => status
  end.

(** A second entry, a second exit: [seen] are the nodes before this
    one. *)
Definition secondEntryExitCheck (seen : list NodeInfo) (node : NodeInfo)
  : StatusCode :=
  match kind node with
  | ENTRY =>
      if decide (0 < countByKind seen ENTRY)
      then PIPELINE_MULTIPLE_ENTRY_NODES else OK
  | EXIT =>
      if decide (0 < countByKind seen EXIT)
      then PIPELINE_MULTIPLE_EXIT_NODES else OK
  | DL => OK
  end.

(** No entry or no exit among all the nodes. *)
Definition missingEntryExitCheck (infos : list NodeInfo) : StatusCode :=
  if decide (countByKind infos ENTRY = 0 ∨ countByKind infos EXIT = 0)
  then PIPELINE_MISSING_ENTRY_OR_EXIT else OK.

Section Checks.

Context {ModelManager : Type}.
Variable getModelInstance : ModelManager → string → Z → ModelLookup.

(** The name of the node is borne by this node only. *)
Definition uniqueNameCheck (def : PipelineDefinition) (node : NodeInfo)
  : StatusCode :=
  if decide (1 < countByName (nodeInfos def) (nodeName node))
  then PIPELINE_NODE_NAME_DUPLICATE else OK.

(** The model of the node. *)
Definition nodeModelCheck (manager : ModelManager) (node : NodeInfo)
  : StatusCode :=
  match validateNodeModel getModelInstance manager node with
  | NodeRejected status => status
  | NodeInputs _ => OK
  end.

(** The edges into the node, one check for each, in their order, with
    the inputs that the check of the model leaves. *)
Definition nodeEdgeChecks (manager : ModelManager) (def : PipelineDefinition)
    (node : NodeInfo) : list StatusCode :=
  match validateNodeModel getModelInstance manager node with
  | NodeRejected _ => []
  | NodeInputs nodeInputs =>
      validateConnection getModelInstance manager (nodeInfos def) node
        nodeInputs
        <$> connections_at (connections def) (nodeName node)
  end.

(** The checks on one node: its name, its model, its edges, then the
    count of entries and exits. *)
Definition nodeChecks (manager : ModelManager) (def : PipelineDefinition)
    (seen : list NodeInfo) (node : NodeInfo) : list StatusCode :=
  uniqueNameCheck def node :: nodeModelCheck manager node ::
  nodeEdgeChecks manager def node ++ [secondEntryExitCheck seen node].

(** The checks on the nodes [todo], in the order of the nodes, after the
    nodes [seen]. *)
Fixpoint checksOfNodes (manager : ModelManager) (def : PipelineDefinition)
    (seen todo : list NodeInfo) : list StatusCode :=
  match todo with
  | [] => []
  | node :: rest =>
      nodeChecks manager def seen node ++
      checksOfNodes manager def (seen ++ [node]) rest
  end.

(** All the checks on a definition: the checks on its nodes, then a
    missing entry or exit, then the walk for cycles, whose status is
    [cycles]. *)
Definition checksInOrder (manager : ModelManager) (def : PipelineDefinition)
    (cycles : StatusCode) : list StatusCode :=
  checksOfNodes manager def [] (nodeInfos def) ++
  [missingEntryExitCheck (nodeInfos def); cycles].

End Checks.


(** ** [PipelineDefinition::validateForCycles]

    The walk over the transpose of the graph: [connections[n]] lists the
    nodes [n] depends on. *)

(** The outcome of the [for] loop over [connectedToNode]. *)
Inductive ScanResult : Set :=
| ScanCycle
| ScanUnvisited (next : string)
| ScanDone.

Fixpoint scanConnected (nodeName : string) (visited parentNodes : list string)
    (connectedToNode : node_connections_t) : ScanResult :=
  match connectedToNode with
  | [] => ScanDone
  | node :: rest =>
      if decide (nodeName = node.1) then ScanCycle
      else if decide (node.1 ∈ visited) then
        if decide (node.1 ∈ parentNodes) then ScanCycle
        else scanConnected nodeName visited parentNodes rest
      else ScanUnvisited node.1
  end.

(** The [while (anyUnvisitedLeft)] loop; [fuel] bounds the number of
    rounds, [None] is an exhausted bound. *)
Fixpoint cyclesLoop (def : PipelineDefinition) (fuel : nat)
    (nodeName : string) (visited parentNodes : list string)
  : option StatusCode :=
  match fuel with
  | O => None
  | S fuel' =>
      match scanConnected nodeName visited parentNodes
              (connections_at (connections def) nodeName) with
      | ScanCycle => Some PIPELINE_CYCLE_FOUND
      | ScanUnvisited next =>
          cyclesLoop def fuel' next (visited ++ [next])
            (parentNodes ++ [nodeName])
      | ScanDone =>
          match last parentNodes with
          | None =>
              if decide (length visited ≠ length (nodeInfos def))
              then Some PIPELINE_CONTAINS_UNCONNECTED_NODES
              else Some OK
          | Some back => cyclesLoop def fuel' back visited (removelast parentNodes)
          end
      end
  end.

(** Every dependency name of the definition, with repetitions. *)
Definition dependencyNames (c : pipeline_connections_t) : list string :=
  (concat c.*2).*1.

(** Two rounds for each name the walk can reach, and the last round. *)
Definition cyclesFuel (def : PipelineDefinition) : nat :=
  2 * length (dependencyNames (connections def)) + 1.

Definition validateForCycles (def : PipelineDefinition) : option StatusCode :=
  match find (λ nodeInfo, bool_decide (kind nodeInfo = EXIT)) (nodeInfos def) with
  | None => Some PIPELINE_MISSING_ENTRY_OR_EXIT
  | Some itr =>
      cyclesLoop def (cyclesFuel def) (nodeName itr) [nodeName itr] []
  end.

(** *** The graph the walk goes over

    [dependsOn def n m]: [m] is a key of [connections[n]], that is, the
    definition has an edge from [m] to [n]. *)
Definition dependsOn (def : PipelineDefinition) (n m : string) : Prop :=
  m ∈ (connections_at (connections def) n).*1.

(** The name the walk starts from: the first node of kind EXIT. *)
Definition exitName (def : PipelineDefinition) : option string :=
  nodeName <$> find (λ nodeInfo, bool_decide (kind nodeInfo = EXIT))
                 (nodeInfos def).

Definition entryName (def : PipelineDefinition) : option string :=
  nodeName <$> find (λ nodeInfo, bool_decide (kind nodeInfo = ENTRY))
                 (nodeInfos def).

Definition nodeNames (def : PipelineDefinition) : list string :=
  nodeName <$> nodeInfos def.

(** The reading of the specification: no cycle, and every node on a path
    from the entry to the exit. *)
Definition acyclic (def : PipelineDefinition) : Prop :=
  ∀ n, ¬ tc (dependsOn def) n n.

Definition onEntryExitPath (def : PipelineDefinition) (n : string) : Prop :=
  ∃ e x, entryName def = Some e ∧ exitName def = Some x ∧
         rtc (dependsOn def) n e ∧ rtc (dependsOn def) x n.

(** [k] names are reached from [x] along dependencies. *)
Definition reachedCount (def : PipelineDefinition) (x : string) (k : nat)
  : Prop :=
  ∃ l, NoDup l ∧ (∀ n, n ∈ l ↔ rtc (dependsOn def) x n) ∧ length l = k.

(** A cycle that can be reached from [x]. *)
Definition cycleReached (def : PipelineDefinition) (x : string) : Prop :=
  ∃ n, rtc (dependsOn def) x n ∧ tc (dependsOn def) n n.

(** [parentNodes] and [nodeName] spell a walk from [x]. *)
Inductive walk (def : PipelineDefinition) (x : string)
  : list string → string → Prop :=
| walk_start : walk def x [] x
| walk_step ps p n :
    walk def x ps p → dependsOn def p n → walk def x (ps ++ [p]) n.

(** The nodes the walk has left for good, the last one first: the
    dependencies of each are among the ones left before it. *)
Inductive finished (def : PipelineDefinition) : list string → Prop :=
| finished_nil : finished def []
| finished_cons n l :
    finished def l → (∀ m, dependsOn def n m → m ∈ l) →
    finished def (n :: l).

(** What holds at the head of each round of the loop. *)
Record cyclesInv (def : PipelineDefinition) (x nodeName : string)
    (visited parentNodes fin : list string) : Prop := mkCyclesInv {
  inv_nodup : NoDup visited;
  inv_split : visited ≡ₚ fin ++ parentNodes ++ [nodeName];
  inv_walk : walk def x parentNodes nodeName;
  inv_finished : finished def fin;
  inv_reached : ∀ n, n ∈ visited → rtc (dependsOn def) x n
}.

(** What the loop answers when it starts from [x]: a cycle when one is
    reached from [x]; otherwise it compares the number of names reached
    with the number of nodes. *)
Definition cyclesSpec (def : PipelineDefinition) (x : string)
    (r : StatusCode) : Prop :=
  (cycleReached def x ∧ r = PIPELINE_CYCLE_FOUND) ∨
  (¬ cycleReached def x ∧
   ∃ k, reachedCount def x k ∧
        r = if decide (k ≠ length (nodeInfos def))
            then PIPELINE_CONTAINS_UNCONNECTED_NODES else OK).

(** The names the walk has yet to visit, and the bound on the rounds
    left. *)
Definition unvisited (def : PipelineDefinition) (visited : list string)
  : list string :=
  filter (λ n, n ∉ visited) (remove_dups (dependencyNames (connections def))).

Definition roundsLeft (def : PipelineDefinition)
    (visited parentNodes : list string) : nat :=
  2 * length (unvisited def visited) + length parentNodes + 1.

(** ** [PipelineFactory::createDefinition] *)

(** The connections a definition holds once validation has gone through
    [connections[node.nodeName]] for each of its nodes (the walk for cycles
    of a definition that is stored goes through the same names). *)
Definition validatedConnections (infos : list NodeInfo)
    (c : pipeline_connections_t) : pipeline_connections_t :=
  foldl connections_touch c (nodeName <$> infos).

Section Factory.

Context {ModelManager : Type}.
Variable getModelInstance : ModelManager → string → Z → ModelLookup.

(** The factory is its table of definitions.  The result is the status
    and the table after the call. *)
Definition createDefinition (definitions : gmap string PipelineDefinition)
    (pipelineName : string) (nodeInfos : list NodeInfo)
    (connections : pipeline_connections_t) (manager : ModelManager)
  : option (StatusCode * gmap string PipelineDefinition) :=
  match definitions !! pipelineName with
  | Some _ => Some (PIPELINE_DEFINITION_ALREADY_EXIST, definitions)
  | None =>
      let pipelineDefinition :=
        mkPipelineDefinition pipelineName nodeInfos connections in
      match validateNodes getModelInstance manager pipelineDefinition with
      | OK =>
          match validateForCycles pipelineDefinition with
          | None => None
          | Some OK =>
              Some (OK,
                    <[pipelineName :=
                        mkPipelineDefinition pipelineName nodeInfos
                          (validatedConnections nodeInfos connections)]>
                      definitions)
          | Some validationResult => Some (validationResult, definitions)
          end
      | validationResult => Some (validationResult, definitions)
      end
  end.

End Factory.

(** ** [PipelineDefinition::create] and [PipelineFactory::create] *)

Section Create.

(** The request and the response of the transport layer, the manager and
    the objects of class [DLNode]. *)
Context {PredictRequest PredictResponse ModelManager DLNodeObject : Type}.

(** The constructor of [DLNode] ([dlnode.hpp] is not at hand), with the
    five arguments [create] hands to it: the node name, the model name,
    the model version, the manager and the aliases of the outputs.  What
    the constructor does with the manager is not in the sources: [create]
    is stated for any constructor that yields an object ([create] has no
    handler: with a constructor that throws it does not return). *)
Variable newDLNode :
  string → string → option Z → ModelManager → gmap string string →
  DLNodeObject.

(** The node objects: an entry node and an exit node with the argument of
    their constructor, a DL node as its constructor built it. *)
Inductive Node : Type :=
| EntryNode (request : PredictRequest)
| DLNode (object : DLNodeObject)
| ExitNode (response : PredictResponse).

(** The raw pointers [entry] and [exit]: null, the node owned under a key
    of [nodes], or a node that was destroyed because [insert] found the
    key taken. *)
Inductive NodePtr : Set :=
| NullPtr
| OwnedAt (key : string)
| Dangling.

(** [std::unordered_map::insert]: an existing key keeps its value. *)
Definition insert_new {V : Type} (k : string) (v : V) (m : gmap string V)
  : gmap string V :=
  match m !! k with
  | Some _ => m
  | None => <[k := v]> m
  end.

Definition ptrAfterInsert {V : Type} (k : string) (m : gmap string V)
  : NodePtr :=
  match m !! k with
  | Some _ => Dangling
  | None => OwnedAt k
  end.

(** One round of the loop over [nodeInfos]. *)
Definition createNode (request : PredictRequest) (response : PredictResponse)
    (manager : ModelManager)
    (st : gmap string Node * NodePtr * NodePtr) (info : NodeInfo)
  : gmap string Node * NodePtr * NodePtr :=
  let '(nodes, entry, exit) := st in
  match kind info with
  | ENTRY =>
      (insert_new (nodeName info) (EntryNode request) nodes,
       ptrAfterInsert (nodeName info) nodes, exit)
  | DL =>
      (insert_new (nodeName info)
         (DLNode (newDLNode (nodeName info) (modelName info)
                    (modelVersion info) manager (outputNameAliases info)))
         nodes,
       entry, exit)
  | EXIT =>
      (insert_new (nodeName info) (ExitNode response) nodes,
       entry, ptrAfterInsert (nodeName info) nodes)
  end.

(** Modelled from the spec: the effect of [Pipeline::connect]
    ([pipeline.hpp] is missing), "install edges verbatim from the
    definition": the edge installed, with the dependency, the dependant
    and the bindings handed to the call. *)
Record Edge : Type := mkEdge {
  edgeFrom : string;
  edgeTo : string;
  edgePairs : InputPairs
}.

(** The inner loop of the connections: [None] when [nodes.at] throws. *)
Fixpoint connectDependencies (nodes : gmap string Node) (dependant : string)
    (deps : node_connections_t) : option (list Edge) :=
  match deps with
  | [] => Some []
  | dependency :: rest =>
      match nodes !! dependency.1 with
      | None => None
      | Some _ =>
          match connectDependencies nodes dependant rest with
          | None => None
          | Some es => Some (mkEdge dependency.1 dependant dependency.2 :: es)
          end
      end
  end.

Fixpoint connectAll (nodes : gmap string Node) (c : pipeline_connections_t)
  : option (list Edge) :=
  match c with
  | [] => Some []
  | kv :: rest =>
      match nodes !! kv.1 with
      | None => None
      | Some _ =>
          match connectDependencies nodes kv.1 kv.2 with
          | None => None
          | Some es =>
              match connectAll nodes rest with
              | None => None
              | Some es' => Some (es ++ es')
              end
          end
      end
  end.

(** Modelled from the spec: a [Pipeline] ([pipeline.hpp] is missing)
    "owns a set of live Node objects", with the entry, the exit and the
    name handed to its constructor and the nodes pushed into it. *)
Record Pipeline : Type := mkPipeline {
  pipelineEntry : Node;
  pipelineExit : Node;
  getPipelineName : string;
  pipelineEdges : list Edge;
  pipelineNodes : gmap string Node
}.

Inductive CreateResult : Type :=
| Returned (status : StatusCode) (pipeline : option Pipeline)
| ThrewOutOfRange
| UndefinedBehaviour.

Definition deref (nodes : gmap string Node) (p : NodePtr) : option Node :=
  match p with
  | OwnedAt k => nodes !! k
  | _ => None
  end.


(** [manager] is handed to the constructor of each DL node.  The function
    has one [return] statement, with [StatusCode::OK]. *)
Definition create (def : PipelineDefinition) (request : PredictRequest)
    (response : PredictResponse) (manager : ModelManager) : CreateResult :=
  let '(nodes, entry, exit) :=
    foldl (createNode request response manager) (∅, NullPtr, NullPtr)
      (nodeInfos def) in
  match connectAll nodes (connections def) with
  | None => ThrewOutOfRange
  | Some edges =>
      match deref nodes entry, deref nodes exit with
      | Some entryNode, Some exitNode =>
          Returned OK
            (Some (mkPipeline entryNode exitNode (pipelineName def) edges nodes))
      | _, _ => UndefinedBehaviour
      end
  end.


End Create.

(** ** The version table of a [Model] and the manager

    [model.hpp] declares these members of [Model]; their bodies, the
    manager and [getModelInstance] live in translation units that are not
    at hand. *)

(** Modelled from the spec: the body of [Model::updateDefaultVersion]
    ([model.cpp] is missing).  "Recompute the default as the numerically
    highest version whose instance is in AVAILABLE state.  If no such
    version exists, the default is undefined (0)." *)
Definition highestAvailable (versions : gmap Z ModelInstance) : Z :=
  map_fold (λ version instance newDefaultVersion,
              if decide (getState instance = AVAILABLE)
              then Z.max version newDefaultVersion
              else newDefaultVersion)
           0%Z versions.

(** Modelled from the spec: [Model::updateDefaultVersion] ([model.cpp]
    is missing): the default version becomes the one just computed. *)
Definition updateDefaultVersion (m : Model) : Model :=
  {| name := name m;
     modelVersions := modelVersions m;
     defaultVersion := highestAvailable (modelVersions m) |}.

(** Modelled from the spec: the body of [Model::getDefaultModelInstance]
    ([model.cpp] is missing): the read-only lookup of the default
    version. *)
Definition getDefaultModelInstance (m : Model) : option ModelInstance :=
  modelVersions m !! getDefaultVersion m.

Definition setState (s : ModelVersionState) (i : ModelInstance)
  : ModelInstance :=
  {| getName := getName i; getVersion := getVersion i;
     getModelConfig := getModelConfig i;
     getInputsInfo := getInputsInfo i; getOutputsInfo := getOutputsInfo i;
     getState := s |}.

Definition setVersions (m : Model) (versions : gmap Z ModelInstance) : Model :=
  {| name := name m; modelVersions := versions;
     defaultVersion := defaultVersion m |}.

Section ModelMutations.

(** The inference backend: loading a version of a model with a
    configuration yields the declared inputs and outputs, or a status. *)
Variable loadNetwork :
  string → Z → ModelConfig → StatusCode + (tensor_map_t * tensor_map_t).

(** Modelled from the spec: [ModelInstance::load]
    ([modelinstance.cpp] is missing).  "A failed load leaves a
    LOADING_FAILED instance in the map." *)
Definition loadInstance (n : string) (version : Z) (config : ModelConfig)
  : StatusCode * ModelInstance :=
  match loadNetwork n version config with
  | inr (inputs, outputs) =>
      (OK, mkModelInstance n version config inputs outputs AVAILABLE)
  | inl status =>
      (status, mkModelInstance n version config ∅ ∅ LOADING_FAILED)
  end.

(** Modelled from the spec: [ModelInstance::reload]
    ([modelinstance.cpp] is missing).  "Either the new LoadedNetwork
    replaces the old and the state becomes AVAILABLE, or the old is
    preserved and an error is returned." *)
Definition reloadInstance (config : ModelConfig) (i : ModelInstance)
  : StatusCode * ModelInstance :=
  match loadNetwork (getName i) (getVersion i) config with
  | inr (inputs, outputs) =>
      (OK, mkModelInstance (getName i) (getVersion i) config inputs outputs
             AVAILABLE)
  | inl status => (status, i)
  end.

(** Modelled from the spec: the loop of [Model::addVersions]
    ([model.cpp] is missing).  "For each v in newVersions absent from the
    map, constructs a fresh ModelInstance and invokes load(config);
    accumulates per-version outcomes, returns success iff all
    succeeded." *)
Fixpoint addVersionsLoop (n : string) (config : ModelConfig)
    (versions : list Z) (result : StatusCode)
    (table : gmap Z ModelInstance) : StatusCode * gmap Z ModelInstance :=
  match versions with
  | [] => (result, table)
  | version :: rest =>
      match table !! version with
      | Some _ => addVersionsLoop n config rest result table
      | None =>
          let '(status, instance) := loadInstance n version config in
          addVersionsLoop n config rest
            (if decide (status = OK) then result else status)
            (<[version := instance]> table)
      end
  end.

(** Modelled from the spec: [Model::addVersions] ([model.cpp] is
    missing): the loop, then the default-version rule, "after any
    mutation, recompute the default". *)
Definition addVersions (m : Model) (versions : list Z) (config : ModelConfig)
  : StatusCode * Model :=
  let '(result, table) :=
    addVersionsLoop (name m) config versions OK (modelVersions m) in
  (result, updateDefaultVersion (setVersions m table)).

(** Modelled from the spec: [ModelInstance::unload] as [Model] sees it
    ([modelinstance.cpp] is missing): "the instance remains in the map in
    END state". *)
Definition retireVersion (table : gmap Z ModelInstance) (version : Z)
  : gmap Z ModelInstance :=
  match table !! version with
  | Some instance => <[version := setState END instance]> table
  | None => table
  end.

(** Modelled from the spec: [Model::retireVersions] ([model.cpp] is
    missing).  "For each v in oldVersions present in the map, invokes
    unload() on the instance", then the default-version rule. *)
Definition retireVersions (m : Model) (versions : list Z)
  : StatusCode * Model :=
  (OK,
   updateDefaultVersion
     (setVersions m (foldl retireVersion (modelVersions m) versions))).

(** Modelled from the spec: the loop of [Model::reloadVersions]
    ([model.cpp] is missing).  "For each v, invokes reload(config) on the
    existing instance." *)
Fixpoint reloadVersionsLoop (config : ModelConfig) (versions : list Z)
    (result : StatusCode) (table : gmap Z ModelInstance)
  : StatusCode * gmap Z ModelInstance :=
  match versions with
  | [] => (result, table)
  | version :: rest =>
      match table !! version with
      | None => reloadVersionsLoop config rest result table
      | Some instance =>
          let '(status, instance') := reloadInstance config instance in
          reloadVersionsLoop config rest
            (if decide (status = OK) then result else status)
            (<[version := instance']> table)
      end
  end.

(** Modelled from the spec: [Model::reloadVersions] ([model.cpp] is
    missing): the loop, then the default-version rule. *)
Definition reloadVersions (m : Model) (versions : list Z)
    (config : ModelConfig) : StatusCode * Model :=
  let '(result, table) :=
    reloadVersionsLoop config versions OK (modelVersions m) in
  (result, updateDefaultVersion (setVersions m table)).

End ModelMutations.

(** Modelled from the spec: [acquireLivenessGuard]
    ([modelinstance.cpp] is missing), "returns a guard iff state is
    AVAILABLE".  An instance that has not reached AVAILABLE is not loaded
    yet, one that has left it is not loaded anymore. *)
Definition acquireLivenessGuard (i : ModelInstance) : ModelLookup :=
  match getState i with
  | AVAILABLE => Resolved i
  | BEGIN | LOADING | LOADING_FAILED => Failed MODEL_VERSION_NOT_LOADED_YET
  | UNLOADING | END => Failed MODEL_VERSION_NOT_LOADED_ANYMORE
  end.

(** Modelled from the spec: the registry of the manager and
    [getModelInstance] ([modelmanager.cpp] and
    [prediction_service_utils.cpp] are missing).  "Resolves
    (name, version|default) to an AVAILABLE instance and returns a
    LivenessGuard.  Errors: MODEL_NAME_MISSING, MODEL_VERSION_MISSING,
    MODEL_VERSION_NOT_LOADED_YET, MODEL_VERSION_NOT_LOADED_ANYMORE." *)
Definition getModelInstance (manager : gmap string Model)
    (modelName : string) (modelVersionId : Z) : ModelLookup :=
  match manager !! modelName with
  | None => Failed MODEL_NAME_MISSING
  | Some model =>
      match (if decide (modelVersionId = 0%Z)
             then getDefaultModelInstance model
             else getModelInstanceByVersion model modelVersionId) with
      | None => Failed MODEL_VERSION_MISSING
      | Some modelInstance => acquireLivenessGuard modelInstance
      end
  end.

(** Modelled from the spec: the constructor of a DL node ([dlnode.hpp]
    is missing).  "Each DL node obtains a LivenessGuard on its resolved
    ModelInstance"; "DL carries (node name, model name, optional version,
    output-alias map, LivenessGuard)".  The guard is the result of the
    resolution of the model of the node at its version, the default one
    when it has none; no guard is had when the resolution fails. *)
Record GuardedDLNode : Type := mkGuardedDLNode {
  dlNodeName : string;
  dlModelName : string;
  dlModelVersion : option Z;
  dlOutputNameAliases : gmap string string;
  dlGuard : ModelLookup
}.

Definition guardedDLNode (nodeName modelName : string)
    (modelVersion : option Z) (manager : gmap string Model)
    (nodeOutputNameAliases : gmap string string) : GuardedDLNode :=
  mkGuardedDLNode nodeName modelName modelVersion nodeOutputNameAliases
    (getModelInstance manager modelName (default 0%Z modelVersion)).

(** *** The default-version rule

    Version numbers are positive; [0] is no version. *)
Definition positiveVersions (versions : gmap Z ModelInstance) : Prop :=
  map_Forall (λ version _, (0 < version)%Z) versions.

Definition isAvailable (versions : gmap Z ModelInstance) (version : Z)
  : Prop :=
  ∃ instance, versions !! version = Some instance ∧
              getState instance = AVAILABLE.

Definition highestAvailableVersion (versions : gmap Z ModelInstance)
    (d : Z) : Prop :=
  isAvailable versions d ∧ ∀ v, isAvailable versions v → (v ≤ d)%Z.

Definition defaultVersionRule (m : Model) : Prop :=
  highestAvailableVersion (modelVersions m) (defaultVersion m) ∨
  (defaultVersion m = 0%Z ∧ ∀ v, ¬ isAvailable (modelVersions m) v).

(** The rule, and what a lookup without a version gives in a manager that
    holds the model. *)
Definition servesDefault (m : Model) : Prop :=
  defaultVersionRule m ∧
  (∀ d, highestAvailableVersion (modelVersions m) d →
        defaultVersion m = d ∧
        ∀ (manager : gmap string Model) n,
          manager !! n = Some m →
          ∃ instance, modelVersions m !! d = Some instance ∧
                      getModelInstance manager n 0%Z = Resolved instance) ∧
  ((∀ v, ¬ isAvailable (modelVersions m) v) →
   defaultVersion m = 0%Z ∧
   ∀ (manager : gmap string Model) n,
     manager !! n = Some m →
     getModelInstance manager n 0%Z = Failed MODEL_VERSION_MISSING).

(** Every AVAILABLE instance of [manager] is an instance of [manager'],
    under the same model name and version. *)
Definition availableSubset (manager manager' : gmap string Model) : Prop :=
  ∀ n m version instance,
    manager !! n = Some m →
    modelVersions m !! version = Some instance →
    getState instance = AVAILABLE →
    ∃ m', manager' !! n = Some m' ∧
          modelVersions m' !! version = Some instance.

(** The models the DL nodes name have the same default version in both
    managers. *)
Definition sameDefaults (infos : list NodeInfo)
    (manager manager' : gmap string Model) : Prop :=
  ∀ node m m',
    node ∈ infos → kind node = DL →
    manager !! modelName node = Some m →
    manager' !! modelName node = Some m' →
    defaultVersion m' = defaultVersion m.

(** ** What the validation accepts, stated on the definition *)

(** The statuses one round of the loop over the connections ends on. *)
Definition edgeStatus (status : StatusCode) : Prop :=
  match status with
  | OK | MODEL_NAME_MISSING | MODEL_MISSING
  | PIPELINE_DEFINITION_MISSING_DEPENDENCY_MAPPING
  | INVALID_MISSING_OUTPUT | INVALID_MISSING_INPUT => True
  | _ => False
  end.

(** The output a binding names, after the aliases of the source, is an
    output of the source instance. *)
Definition outputDeclared (sourceNodeInfo : NodeInfo) (outputs : tensor_map_t)
    (binding : string * string) : Prop :=
  is_Some (outputs !! resolveOutputName sourceNodeInfo binding.1).

(** The input a binding names is an input of the destination. *)
Definition inputDeclared (nodeInputs : tensor_map_t)
    (binding : string * string) : Prop :=
  is_Some (nodeInputs !! binding.2).

(** A configuration with batching mode AUTO or with a shape of mode
    AUTO. *)
Definition dynamicConfig (config : ModelConfig) : Prop :=
  getBatchingMode config = AUTO ∨
  ∃ n s, getShapes config !! n = Some s ∧ shapeMode s = AUTO.

(** The bindings of an edge that the loop over them lets through: all of
    them for a DL destination, the first one for another destination. *)
Definition bindingsAccepted (sourceNodeInfo : NodeInfo)
    (outputs : tensor_map_t) (node : NodeInfo) (nodeInputs : tensor_map_t)
    (pairs : InputPairs) : Prop :=
  if decide (kind node = DL)
  then Forall (λ binding, outputDeclared sourceNodeInfo outputs binding ∧
                          inputDeclared nodeInputs binding) pairs
  else ∃ binding, head pairs = Some binding ∧
                  outputDeclared sourceNodeInfo outputs binding.

Section Accepted.

Context {ModelManager : Type}.
Variable resolve : ModelManager → string → Z → ModelLookup.

(** An edge the validation lets through: its source is declared and,
    when the source is a DL node, the model of the source resolves at
    version 0, the edge has a binding and its bindings are let through. *)
Definition edgeAccepted (manager : ModelManager) (infos : list NodeInfo)
    (node : NodeInfo) (nodeInputs : tensor_map_t)
    (connection : string * InputPairs) : Prop :=
  ∃ sourceNodeInfo,
    find (λ nodeInfo, bool_decide (nodeName nodeInfo = connection.1)) infos
      = Some sourceNodeInfo ∧
    (kind sourceNodeInfo = DL →
     ∃ instance,
       resolve manager (modelName sourceNodeInfo) 0%Z = Resolved instance ∧
       connection.2 ≠ [] ∧
       bindingsAccepted sourceNodeInfo (getOutputsInfo instance) node
         nodeInputs connection.2).

(** The model of a node is let through, and leaves these inputs. *)
Definition nodeModelAccepted (manager : ModelManager) (node : NodeInfo)
    (nodeInputs : tensor_map_t) : Prop :=
  match kind node with
  | DL =>
      ∃ instance,
        resolve manager (modelName node) (default 0%Z (modelVersion node))
          = Resolved instance ∧
        ¬ dynamicConfig (getModelConfig instance) ∧
        nodeInputs = getInputsInfo instance
  | _ => nodeInputs = ∅
  end.

Definition nodeAccepted (manager : ModelManager) (def : PipelineDefinition)
    (node : NodeInfo) : Prop :=
  ∃ nodeInputs,
    nodeModelAccepted manager node nodeInputs ∧
    Forall (edgeAccepted manager (nodeInfos def) node nodeInputs)
           (connections_at (connections def) (nodeName node)).

(** The defect a status of [validateNode] stands for. *)
Definition nodeDefect (manager : ModelManager) (def : PipelineDefinition)
    (node : NodeInfo) (status : StatusCode) : Prop :=
  match status with
  | MODEL_NAME_MISSING =>
      (kind node = DL ∧
       ¬ is_Resolved (resolve manager (modelName node)
                        (default 0%Z (modelVersion node)))) ∨
      ∃ connection,
        connection ∈ connections_at (connections def) (nodeName node) ∧
        Forall (λ nodeInfo, nodeName nodeInfo ≠ connection.1) (nodeInfos def)
  | FORBIDDEN_MODEL_DYNAMIC_PARAMETER =>
      kind node = DL ∧
      ∃ instance,
        resolve manager (modelName node) (default 0%Z (modelVersion node))
          = Resolved instance ∧
        dynamicConfig (getModelConfig instance)
  | MODEL_MISSING =>
      ∃ connection sourceNodeInfo,
        connection ∈ connections_at (connections def) (nodeName node) ∧
        sourceNodeInfo ∈ nodeInfos def ∧
        nodeName sourceNodeInfo = connection.1 ∧
        kind sourceNodeInfo = DL ∧
        ¬ is_Resolved (resolve manager (modelName sourceNodeInfo) 0%Z)
  | PIPELINE_DEFINITION_MISSING_DEPENDENCY_MAPPING =>
      ∃ connection sourceNodeInfo,
        connection ∈ connections_at (connections def) (nodeName node) ∧
        sourceNodeInfo ∈ nodeInfos def ∧
        nodeName sourceNodeInfo = connection.1 ∧
        kind sourceNodeInfo = DL ∧
        connection.2 = []
  | INVALID_MISSING_OUTPUT =>
      ∃ connection sourceNodeInfo instance binding,
        connection ∈ connections_at (connections def) (nodeName node) ∧
        sourceNodeInfo ∈ nodeInfos def ∧
        nodeName sourceNodeInfo = connection.1 ∧
        kind sourceNodeInfo = DL ∧
        resolve manager (modelName sourceNodeInfo) 0%Z = Resolved instance ∧
        binding ∈ connection.2 ∧
        ¬ outputDeclared sourceNodeInfo (getOutputsInfo instance) binding
  | INVALID_MISSING_INPUT =>
      kind node = DL ∧
      ∃ instance connection binding,
        resolve manager (modelName node) (default 0%Z (modelVersion node))
          = Resolved instance ∧
        connection ∈ connections_at (connections def) (nodeName node) ∧
        binding ∈ connection.2 ∧
        ¬ inputDeclared (getInputsInfo instance) binding
  | _ => False
  end.

(** The defect a status of [validateNodes] stands for. *)
Definition definitionDefect (manager : ModelManager)
    (def : PipelineDefinition) (status : StatusCode) : Prop :=
  match status with
  | PIPELINE_NODE_NAME_DUPLICATE =>
      ∃ node, node ∈ nodeInfos def ∧
              1 < countByName (nodeInfos def) (nodeName node)
  | PIPELINE_MULTIPLE_ENTRY_NODES => 2 ≤ countByKind (nodeInfos def) ENTRY
  | PIPELINE_MULTIPLE_EXIT_NODES => 2 ≤ countByKind (nodeInfos def) EXIT
  | PIPELINE_MISSING_ENTRY_OR_EXIT =>
      countByKind (nodeInfos def) ENTRY = 0 ∨
      countByKind (nodeInfos def) EXIT = 0
  | _ =>
      ∃ node, node ∈ nodeInfos def ∧
              validateNode resolve manager def node = status
  end.

End Accepted.

(** ** What [create] builds, stated on the definition *)

Section CreateSpec.

Context {PredictRequest PredictResponse ModelManager DLNodeObject : Type}.
Variable newDLNode :
  string → string → option Z → ModelManager → gmap string string →
  DLNodeObject.

(** The node object a node description gives rise to. *)
Definition makeNode (request : PredictRequest) (response : PredictResponse)
    (manager : ModelManager) (info : NodeInfo)
  : @Node PredictRequest PredictResponse DLNodeObject :=
  match kind info with
  | ENTRY => EntryNode request
  | DL =>
      DLNode (newDLNode (nodeName info) (modelName info) (modelVersion info)
                manager (outputNameAliases info))
  | EXIT => ExitNode response
  end.

End CreateSpec.

(** The edges of the connections, in the order of iteration. *)
Definition allEdges (c : pipeline_connections_t) : list Edge :=
  flat_map (λ kv, (λ dependency, mkEdge dependency.1 kv.1 dependency.2)
                    <$> kv.2) c.

(** The names [create] looks up with [nodes.at]. *)
Definition connectionNames (c : pipeline_connections_t) : list string :=
  flat_map (λ kv, kv.1 :: kv.2.*1) c.

(** ** What the validation reads of a resolved model *)

(** Two results of a resolution that the validation cannot tell apart:
    both fail, whatever the status, or both resolve, to instances that
    are both dynamic or both not, with the same names of inputs and the
    same names of outputs. *)
Definition sameForValidation (lookup lookup' : ModelLookup) : Prop :=
  match lookup, lookup' with
  | Resolved instance, Resolved instance' =>
      (dynamicConfig (getModelConfig instance) ↔
       dynamicConfig (getModelConfig instance')) ∧
      dom (getInputsInfo instance) = dom (getInputsInfo instance') ∧
      dom (getOutputsInfo instance) = dom (getOutputsInfo instance')
  | Failed _, Failed _ => True
  | _, _ => False
  end.

Section SameModels.

Context {ModelManager : Type}.
Variable resolve : ModelManager → string → Z → ModelLookup.

(** Two states of the manager that the validation cannot tell apart at
    the models the DL nodes of a list name: at the version of the node,
    or 0 when it has none, and at version 0. *)
Definition sameModels (manager manager' : ModelManager)
    (infos : list NodeInfo) : Prop :=
  ∀ node, node ∈ infos → kind node = DL →
    sameForValidation
      (resolve manager (modelName node) (default 0%Z (modelVersion node)))
      (resolve manager' (modelName node) (default 0%Z (modelVersion node))) ∧
    sameForValidation (resolve manager (modelName node) 0%Z)
                      (resolve manager' (modelName node) 0%Z).

End SameModels.

(** ** Sample data

    A model [X] with the outputs of scenario S4, a manager that serves its
    version 1, and the three nodes of a one-model pipeline. *)

Definition fp32 : TensorInfo := mkTensorInfo "FP32" [1%N; 3%N].

Definition configX : ModelConfig := mkModelConfig "/models/X" FIXED 1 ∅ 1.

Definition configXauto : ModelConfig := mkModelConfig "/models/X" AUTO 0 ∅ 1.

Definition outputsX : tensor_map_t :=
  {[ "detection_out" := fp32; "feature_out" := fp32 ]}.

Definition instanceX1 : ModelInstance :=
  mkModelInstance "X" 1 configX {[ "data" := fp32 ]} outputsX AVAILABLE.

Definition instanceX2auto : ModelInstance :=
  mkModelInstance "X" 2 configXauto {[ "data" := fp32 ]} outputsX AVAILABLE.

Definition modelX : Model := mkModel "X" {[ 1%Z := instanceX1 ]} 1.

Definition managerX : gmap string Model := {[ "X" := modelX ]}.

Definition requestNode : NodeInfo := mkNodeInfo ENTRY "request" "" None ∅.

Definition responseNode : NodeInfo := mkNodeInfo EXIT "response" "" None ∅.

Definition nodeA : NodeInfo :=
  mkNodeInfo DL "A" "X" None {[ "faces" := "detection_out" ]}.

Definition nodesS4 : list NodeInfo := [requestNode; nodeA; responseNode].

(** [request -> A -> response], the output of [A] under its alias. *)
Definition connectionsS4 : pipeline_connections_t :=
  [("A", [("request", [("image", "data")])]);
   ("response", [("A", [("faces", "response_tensor")])])].

Definition pipelineS4 : PipelineDefinition :=
  mkPipelineDefinition "S4" nodesS4 connectionsS4.

(** Scenario S5: the node names version 1 of [X]; later the version is
    retired. *)
Definition nodeA1 : NodeInfo :=
  mkNodeInfo DL "A" "X" (Some 1%Z) {[ "faces" := "detection_out" ]}.

Definition nodesS5 : list NodeInfo := [requestNode; nodeA1; responseNode].

Definition pipelineS5 : PipelineDefinition :=
  mkPipelineDefinition "S5" nodesS5 connectionsS4.


(** A backend that loads every version with the inputs and outputs of
    [X]; version 2 is then added with batch size auto. *)
Definition backendX (n : string) (version : Z) (config : ModelConfig)
  : StatusCode + (tensor_map_t * tensor_map_t) :=
  inr ({[ "data" := fp32 ]}, outputsX).

Definition managerX2 : gmap string Model :=
  {[ "X" := (addVersions backendX modelX [2%Z] configXauto).2 ]}.

(** [X] served with batch size auto only. *)
Definition managerAuto : gmap string Model :=
  {[ "X" := mkModel "X" {[ 2%Z := instanceX2auto ]} 2 ]}.

(** A manager without any model. *)
Definition managerEmpty : gmap string Model := ∅.

(** [A] feeds the exit but is fed by nothing: [request -> response] and
    [A -> response]. *)
Definition connectionsSide : pipeline_connections_t :=
  [("response", [("request", [("image", "response_tensor")]);
                 ("A", [("faces", "faces_tensor")])])].

Definition pipelineSide : PipelineDefinition :=
  mkPipelineDefinition "side" nodesS4 connectionsSide.

(** Scenario S3: [request -> A -> B -> response] and [B -> A]. *)
Definition nodeB : NodeInfo := mkNodeInfo DL "B" "X" None ∅.

Definition nodesS3 : list NodeInfo := [requestNode; nodeA; nodeB; responseNode].

Definition connectionsS3 : pipeline_connections_t :=
  [("A", [("request", [("image", "data")]); ("B", [("feature_out", "data")])]);
   ("B", [("A", [("faces", "data")])]);
   ("response", [("B", [("detection_out", "response_tensor")])])].

Definition pipelineS3 : PipelineDefinition :=
  mkPipelineDefinition "S3" nodesS3 connectionsS3.

(** The edge [A -> response] with a good binding followed by one that
    names no output of [X]. *)
Definition connectionsSlip : pipeline_connections_t :=
  [("A", [("request", [("image", "data")])]);
   ("response", [("A", [("detection_out", "response_tensor");
                        ("unknown", "other_tensor")])])].

Definition pipelineSlip : PipelineDefinition :=
  mkPipelineDefinition "slip" nodesS4 connectionsSlip.

(** The same two bindings on an edge into the DL node [B]. *)
Definition connectionsSlipDL : pipeline_connections_t :=
  [("A", [("request", [("image", "data")])]);
   ("B", [("A", [("detection_out", "data"); ("unknown", "data")])]);
   ("response", [("B", [("detection_out", "response_tensor")])])].

Definition pipelineSlipDL : PipelineDefinition :=
  mkPipelineDefinition "slipDL" nodesS3 connectionsSlipDL.

(** An edge from a node that is not declared. *)
Definition connectionsGhost : pipeline_connections_t :=
  [("response", [("ghost", [("out", "response_tensor")])])].

Definition pipelineGhost : PipelineDefinition :=
  mkPipelineDefinition "ghost" [requestNode; responseNode] connectionsGhost.

(** The same edge in a definition without an entry node. *)
Definition pipelineNoEntry : PipelineDefinition :=
  mkPipelineDefinition "noEntry" [nodeA; responseNode] connectionsGhost.

(** An edge from the entry without any binding. *)
Definition connectionsBare : pipeline_connections_t :=
  [("response", [("request", [])])].

Definition pipelineBare : PipelineDefinition :=
  mkPipelineDefinition "bare" [requestNode; responseNode] connectionsBare.

(** An edge from the DL node [A] without any binding. *)
Definition connectionsBareDL : pipeline_connections_t :=
  [("A", [("request", [("image", "data")])]);
   ("response", [("A", [])])].

Definition pipelineBareDL : PipelineDefinition :=
  mkPipelineDefinition "bareDL" nodesS4 connectionsBareDL.

(** A resolution function that hands out the default version whatever
    version is asked for. *)
Definition getDefaultOnly (manager : gmap string Model) (modelName : string)
    (modelVersionId : Z) : ModelLookup :=
  getModelInstance manager modelName 0%Z.

(** The first manager with a second model [Y] next to [X]. *)
Definition modelY : Model :=
  mkModel "Y"
    {[ 3%Z := mkModelInstance "Y" 3 configX {[ "in" := fp32 ]}
                {[ "out" := fp32 ]} AVAILABLE ]} 3.

Definition managerXY : gmap string Model := <[ "Y" := modelY ]> managerX.

(** Scenario S3 with the dependencies of [A] listed in the other order,
    the entries of the outer map in another order and other bindings. *)
Definition connectionsS3swapped : pipeline_connections_t :=
  [("response", [("B", [("feature_out", "response_tensor")])]);
   ("A", [("B", [("detection_out", "data")]); ("request", [("x", "data")])]);
   ("B", [("A", [("faces", "data")])])].

Definition pipelineS3swapped : PipelineDefinition :=
  mkPipelineDefinition "S3" nodesS3 connectionsS3swapped.

(** [A] is fed by the entry and feeds nothing. *)
Definition connectionsDangling : pipeline_connections_t :=
  [("A", [("request", [("image", "data")])]);
   ("response", [("request", [("image", "response_tensor")])])].

Definition pipelineDangling : PipelineDefinition :=
  mkPipelineDefinition "dangling" nodesS4 connectionsDangling.

(** [request -> response] and [A -> response] with the two edges into the
    exit in the other order. *)
Definition connectionsSideBack : pipeline_connections_t :=
  [("response", [("A", [("faces", "faces_tensor")]);
                 ("request", [("image", "response_tensor")])])].

(** The node [A] listed twice. *)
Definition pipelineTwice : PipelineDefinition :=
  mkPipelineDefinition "twice" [requestNode; nodeA; nodeA; responseNode]
    connectionsS4.

(** The connections of S4 and an entry for a name that no node bears. *)
Definition connectionsStray : pipeline_connections_t :=
  connectionsS4 ++ [("stray", [])].

Definition pipelineStray : PipelineDefinition :=
  mkPipelineDefinition "stray" nodesS4 connectionsStray.

(** * Properties *)

(** ** Reads of the connections *)

Lemma assoc_find_app_l {V : Type} (k : string) (l l' : list (string * V)) v :
  assoc_find k l = Some v → assoc_find k (l ++ l') = Some v.
Proof.
  induction l as [|[k' v'] l IH]; simpl; [done|].
  destruct (decide (k' = k)); auto.
Qed.

Lemma assoc_find_app_r {V : Type} (k : string) (l l' : list (string * V)) :
  assoc_find k l = None → assoc_find k (l ++ l') = assoc_find k l'.
Proof.
  induction l as [|[k' v'] l IH]; simpl; [done|].
  destruct (decide (k' = k)); [done|auto].
Qed.

(** The entry [operator[]] inserts for an absent key is empty: every read
    gives what it gave before. *)
Lemma connections_at_touch c n n' :
  connections_at (connections_touch c n) n' = connections_at c n'.
Proof.
  unfold connections_at, connections_touch.
  destruct (assoc_find n c) as [v|] eqn:Hn; [done|].
  destruct (assoc_find n' c) as [v'|] eqn:Hn'.
  - by rewrite (assoc_find_app_l _ _ _ _ Hn').
  - rewrite (assoc_find_app_r _ _ _ Hn'). simpl.
    by destruct (decide (n = n')).
Qed.

Lemma connections_at_validated infos c n :
  connections_at (validatedConnections infos c) n = connections_at c n.
Proof.
  unfold validatedConnections.
  generalize (nodeName <$> infos). intros names. revert c.
  induction names as [|a names IH]; intros c; simpl; [done|].
  by rewrite IH, connections_at_touch.
Qed.

(** ** Validation of one node *)

Section ValidationFacts.

Context {ModelManager : Type}.
Variable resolve : ModelManager → string → Z → ModelLookup.


Lemma validateNodeModel_rejected manager node status :
  validateNodeModel resolve manager node = NodeRejected status → status ≠ OK.
Proof.
  unfold validateNodeModel.
  destruct (kind node); try discriminate.
  destruct (resolve _ _ _); [|intros [= <-]; discriminate].
  repeat case_match; intros [= <-]; discriminate.
Qed.

(** The connections before the first failing one are passed over. *)
Lemma validateConnections_app manager infos node nodeInputs pre rest :
  Forall (λ c, validateConnection resolve manager infos node nodeInputs c = OK) pre →
  validateConnections resolve manager infos node nodeInputs (pre ++ rest)
  = validateConnections resolve manager infos node nodeInputs rest.
Proof.
  induction 1 as [|c pre Hc _ IH]; simpl; [done|]. by rewrite Hc.
Qed.

Lemma validateConnections_first manager infos node nodeInputs pre c post :
  Forall (λ c, validateConnection resolve manager infos node nodeInputs c = OK) pre →
  validateConnection resolve manager infos node nodeInputs c ≠ OK →
  validateConnections resolve manager infos node nodeInputs (pre ++ c :: post)
  = validateConnection resolve manager infos node nodeInputs c.
Proof.
  intros Hpre Hc. rewrite validateConnections_app by done. simpl.
  by destruct (validateConnection resolve manager infos node nodeInputs c).
Qed.

Lemma validateConnections_rejects manager infos node nodeInputs cs c :
  c ∈ cs →
  validateConnection resolve manager infos node nodeInputs c ≠ OK →
  validateConnections resolve manager infos node nodeInputs cs ≠ OK.
Proof.
  induction 1 as [c cs|c c' cs _ IH]; simpl; intros Hc.
  - by destruct (validateConnection resolve manager infos node nodeInputs c).
  - destruct (validateConnection resolve manager infos node nodeInputs c');
      try discriminate. auto.
Qed.

(** A connection that fails for every choice of the node inputs makes
    the node fail. *)
Lemma validateNode_rejects manager def node c :
  c ∈ connections_at (connections def) (nodeName node) →
  (∀ nodeInputs,
     validateConnection resolve manager (nodeInfos def) node nodeInputs c ≠ OK) →
  validateNode resolve manager def node ≠ OK.
Proof.
  intros Hin Hc. unfold validateNode.
  destruct (validateNodeModel resolve manager node) as [st|inputs] eqn:Hm.
  - by eapply validateNodeModel_rejected.
  - by eapply validateConnections_rejects.
Qed.

Lemma validateNode_first manager def node nodeInputs pre c post :
  validateNodeModel resolve manager node = NodeInputs nodeInputs →
  connections_at (connections def) (nodeName node) = pre ++ c :: post →
  Forall (λ c, validateConnection resolve manager (nodeInfos def) node nodeInputs c = OK)
         pre →
  validateConnection resolve manager (nodeInfos def) node nodeInputs c ≠ OK →
  validateNode resolve manager def node
  = validateConnection resolve manager (nodeInfos def) node nodeInputs c.
Proof.
  intros Hm Hat Hpre Hc. unfold validateNode.
  rewrite Hm, Hat. by apply validateConnections_first.
Qed.

(** A node that fails makes the definition fail. *)
Lemma validateNodesLoop_rejects manager def entryFound exitFound todo node :
  node ∈ todo →
  validateNode resolve manager def node ≠ OK →
  validateNodesLoop resolve manager def entryFound exitFound todo ≠ OK.
Proof.
  intros Hin Hnode. revert entryFound exitFound.
  induction Hin as [node todo|node node' todo _ IH]; intros e x; simpl.
  - case_decide; [done|].
    by destruct (validateNode resolve manager def node).
  - case_decide; [done|].
    destruct (validateNode resolve manager def node'); try done.
    repeat case_decide; destruct e, x; try done; apply IH; done.
Qed.

Lemma validateNodes_rejects manager def node :
  node ∈ nodeInfos def →
  validateNode resolve manager def node ≠ OK →
  validateNodes resolve manager def ≠ OK.
Proof. apply validateNodesLoop_rejects. Qed.


(** An edge that is answered with a status other than OK, whatever the
    inputs of its destination: the definition fails, and the destination
    node is answered with that status when nothing before the edge
    fails. *)
Lemma failing_edge manager def node c status :
  node ∈ nodeInfos def →
  c ∈ connections_at (connections def) (nodeName node) →
  status ≠ OK →
  (∀ nodeInputs,
     validateConnection resolve manager (nodeInfos def) node nodeInputs c
     = status) →
  validateNodes resolve manager def ≠ OK ∧
  (∀ nodeInputs pre post,
     validateNodeModel resolve manager node = NodeInputs nodeInputs →
     connections_at (connections def) (nodeName node) = pre ++ c :: post →
     Forall (λ c, validateConnection resolve manager (nodeInfos def) node
                    nodeInputs c = OK) pre →
     validateNode resolve manager def node = status).
Proof.
  intros Hnode Hedge Hstatus Hc. split.
  - apply (validateNodes_rejects manager def node Hnode).
    apply (validateNode_rejects manager def node _ Hedge).
    intros nodeInputs. by rewrite Hc.
  - intros nodeInputs pre post Hm Hat Hpre.
    rewrite (validateNode_first manager def node nodeInputs pre _ post
               Hm Hat Hpre); [done|]. by rewrite Hc.
Qed.

(** [std::find_if] by name finds nothing when no node bears the name. *)
Lemma find_by_name_None (infos : list NodeInfo) n :
  Forall (λ info, nodeName info ≠ n) infos →
  find (λ nodeInfo, bool_decide (nodeName nodeInfo = n)) infos = None.
Proof.
  induction 1 as [|info infos Hne _ IH]; simpl; [done|].
  by rewrite bool_decide_eq_false_2.
Qed.

Lemma anyShapeAuto_true (shapes : gmap string ShapeInfo) n s :
  shapes !! n = Some s → shapeMode s = AUTO → anyShapeAuto shapes = true.
Proof.
  intros Hn Hs. unfold anyShapeAuto. apply existsb_exists.
  exists (n, s). split.
  - apply list_elem_of_In. by apply elem_of_map_to_list.
  - simpl. by apply bool_decide_eq_true_2.
Qed.

(** What the loop over the bindings does for a DL destination: each
    binding is looked at until one fails. *)
Lemma validateAliases_DL_cons sourceNodeInfo outputs node nodeInputs a i rest :
  kind node = DL →
  validateAliases sourceNodeInfo outputs node nodeInputs ((a, i) :: rest)
  = match outputs !! resolveOutputName sourceNodeInfo a with
    | None => INVALID_MISSING_OUTPUT
    | Some _ =>
        match nodeInputs !! i with
        | None => INVALID_MISSING_INPUT
        | Some _ => validateAliases sourceNodeInfo outputs node nodeInputs rest
        end
    end.
Proof.
  intros Hk. simpl. destruct (outputs !! _); [|done].
  case_decide; [done|]. done.
Qed.

(** What it does for a destination that is not a DL node: the [break]
    leaves the loop after the first binding, the others are not looked
    at. *)
Lemma validateAliases_not_DL_cons sourceNodeInfo outputs node nodeInputs a i rest :
  kind node ≠ DL →
  validateAliases sourceNodeInfo outputs node nodeInputs ((a, i) :: rest)
  = match outputs !! resolveOutputName sourceNodeInfo a with
    | None => INVALID_MISSING_OUTPUT
    | Some _ => OK
    end.
Proof.
  intros Hk. simpl. destruct (outputs !! _); [|done].
  by case_decide.
Qed.

(** C6.  For a DL node whose model resolves to an instance with batching
    mode AUTO, or with a shape of mode AUTO, the validation of the node
    returns FORBIDDEN_MODEL_DYNAMIC_PARAMETER, and the validation of a
    definition that holds the node fails. *)
Theorem dynamic_parameter_forbidden manager def node instance :
  kind node = DL →
  resolve manager (modelName node) (default 0%Z (modelVersion node))
    = Resolved instance →
  getBatchingMode (getModelConfig instance) = AUTO ∨
    (∃ n s, getShapes (getModelConfig instance) !! n = Some s ∧
            shapeMode s = AUTO) →
  validateNode resolve manager def node = FORBIDDEN_MODEL_DYNAMIC_PARAMETER ∧
  (node ∈ nodeInfos def → validateNodes resolve manager def ≠ OK).
Proof.
  intros Hk Hres Hdyn.
  assert (validateNode resolve manager def node
          = FORBIDDEN_MODEL_DYNAMIC_PARAMETER) as Hnode.
  { unfold validateNode, validateNodeModel. rewrite Hk, Hres. simpl.
    destruct Hdyn as [Hb|(n & s & Hn & Hs)].
    - by rewrite decide_True.
    - case_decide; [done|]. by rewrite (anyShapeAuto_true _ _ _ Hn Hs). }
  split; [done|]. intros Hin.
  apply (validateNodes_rejects manager def node Hin). by rewrite Hnode.
Qed.

(** C4, amended.  An edge whose source name is borne by no node is
    answered with MODEL_NAME_MISSING (not PIPELINE_MISSING_DEPENDENCY): the
    validation of a definition that holds the destination node fails, and
    the validation of the destination node returns MODEL_NAME_MISSING when
    the model check of the node and the edges before this one pass. *)
Theorem missing_dependency_node manager def node sourceNodeName pairs :
  Forall (λ info, nodeName info ≠ sourceNodeName) (nodeInfos def) →
  node ∈ nodeInfos def →
  (sourceNodeName, pairs)
    ∈ connections_at (connections def) (nodeName node) →
  (∀ nodeInputs,
     validateConnection resolve manager (nodeInfos def) node nodeInputs
       (sourceNodeName, pairs) = MODEL_NAME_MISSING) ∧
  validateNodes resolve manager def ≠ OK ∧
  (∀ nodeInputs pre post,
     validateNodeModel resolve manager node = NodeInputs nodeInputs →
     connections_at (connections def) (nodeName node)
       = pre ++ (sourceNodeName, pairs) :: post →
     Forall (λ c, validateConnection resolve manager (nodeInfos def) node
                    nodeInputs c = OK) pre →
     validateNode resolve manager def node = MODEL_NAME_MISSING).
Proof.
  intros Hnone Hnode Hedge.
  assert (∀ nodeInputs,
    validateConnection resolve manager (nodeInfos def) node nodeInputs
      (sourceNodeName, pairs) = MODEL_NAME_MISSING) as Hc.
  { intros nodeInputs. unfold validateConnection. simpl.
    by rewrite find_by_name_None. }
  split; [done|]. by apply failing_edge.
Qed.

(** C5, amended.  The check for an empty list of bindings is made for
    edges whose source is a DL node whose model resolves at its default
    version: such an edge with no binding is answered with
    PIPELINE_DEFINITION_MISSING_DEPENDENCY_MAPPING and the definition
    fails.  An edge whose source is not a DL node passes, whatever its
    bindings. *)
Theorem missing_dependency_mapping manager def node sourceNodeInfo pairs :
  find (λ nodeInfo, bool_decide (nodeName nodeInfo = nodeName sourceNodeInfo))
       (nodeInfos def) = Some sourceNodeInfo →
  node ∈ nodeInfos def →
  (nodeName sourceNodeInfo, pairs)
    ∈ connections_at (connections def) (nodeName node) →
  (kind sourceNodeInfo ≠ DL →
   ∀ nodeInputs,
     validateConnection resolve manager (nodeInfos def) node nodeInputs
       (nodeName sourceNodeInfo, pairs) = OK) ∧
  (kind sourceNodeInfo = DL →
   is_Resolved (resolve manager (modelName sourceNodeInfo) 0%Z) →
   pairs = [] →
   (∀ nodeInputs,
      validateConnection resolve manager (nodeInfos def) node nodeInputs
        (nodeName sourceNodeInfo, pairs)
      = PIPELINE_DEFINITION_MISSING_DEPENDENCY_MAPPING) ∧
   validateNodes resolve manager def ≠ OK ∧
   (∀ nodeInputs pre post,
      validateNodeModel resolve manager node = NodeInputs nodeInputs →
      connections_at (connections def) (nodeName node)
        = pre ++ (nodeName sourceNodeInfo, pairs) :: post →
      Forall (λ c, validateConnection resolve manager (nodeInfos def) node
                     nodeInputs c = OK) pre →
      validateNode resolve manager def node
      = PIPELINE_DEFINITION_MISSING_DEPENDENCY_MAPPING)).
Proof.
  intros Hfind Hnode Hedge. split.
  - intros Hk nodeInputs. unfold validateConnection. simpl. rewrite Hfind.
    by destruct (kind sourceNodeInfo).
  - intros Hk Hres ->.
    assert (∀ nodeInputs,
      validateConnection resolve manager (nodeInfos def) node nodeInputs
        (nodeName sourceNodeInfo, [])
      = PIPELINE_DEFINITION_MISSING_DEPENDENCY_MAPPING) as Hc.
    { intros nodeInputs. unfold validateConnection. simpl.
      rewrite Hfind, Hk.
      by destruct (resolve manager (modelName sourceNodeInfo) 0%Z). }
    split; [done|]. by apply failing_edge.
Qed.

(** *** The source model of an edge *)

Lemma validateAliases_aliases a b outputs node nodeInputs pairs :
  outputNameAliases a = outputNameAliases b →
  validateAliases a outputs node nodeInputs pairs
  = validateAliases b outputs node nodeInputs pairs.
Proof.
  intros Hab. induction pairs as [|[al i] pairs IH]; simpl; [done|].
  unfold resolveOutputName. rewrite Hab, IH. done.
Qed.

Lemma find_sameButVersion infos infos' n :
  Forall2 sameButVersion infos infos' →
  option_Forall2 sameButVersion
    (find (λ nodeInfo, bool_decide (nodeName nodeInfo = n)) infos)
    (find (λ nodeInfo, bool_decide (nodeName nodeInfo = n)) infos').
Proof.
  induction 1 as [|a b infos infos' Hab _ IH]; simpl; [constructor|].
  destruct Hab as (Hk & Hn & Hm & Ha). rewrite <- Hn.
  case_bool_decide; [|done]. by constructor.
Qed.


(** *** The order of the checks *)

Lemma validateAliases_status a outputs node nodeInputs pairs :
  nodeStatus (validateAliases a outputs node nodeInputs pairs).
Proof.
  induction pairs as [|[al i] pairs IH]; simpl; [done|].
  repeat case_match; done.
Qed.

Lemma validateConnection_status manager infos node nodeInputs c :
  nodeStatus (validateConnection resolve manager infos node nodeInputs c).
Proof.
  unfold validateConnection.
  repeat case_match; try apply validateAliases_status; done.
Qed.

Lemma validateConnections_status manager infos node nodeInputs cs :
  nodeStatus (validateConnections resolve manager infos node nodeInputs cs).
Proof.
  induction cs as [|c cs IH]; simpl; [done|].
  pose proof (validateConnection_status manager infos node nodeInputs c) as Hc.
  destruct (validateConnection resolve manager infos node nodeInputs c);
    done.
Qed.

Lemma validateNode_status manager def node :
  nodeStatus (validateNode resolve manager def node).
Proof.
  unfold validateNode.
  destruct (validateNodeModel resolve manager node) as [status|inputs] eqn:Hm;
    [|apply validateConnections_status].
  unfold validateNodeModel in Hm.
  repeat case_match; simplify_eq; done.
Qed.

Lemma nodeStatus_inv status :
  nodeStatus status →
  status ≠ PIPELINE_MISSING_ENTRY_OR_EXIT ∧
  status ≠ PIPELINE_NODE_NAME_DUPLICATE ∧
  status ≠ PIPELINE_MULTIPLE_ENTRY_NODES ∧
  status ≠ PIPELINE_MULTIPLE_EXIT_NODES.
Proof. by destruct status. Qed.

(** When the loop ends on a check of the flags, or ends well, every node
    went through its own checks. *)
Lemma validateNodesLoop_passed manager def entryFound exitFound todo :
  validateNodesLoop resolve manager def entryFound exitFound todo = OK ∨
  validateNodesLoop resolve manager def entryFound exitFound todo
    = PIPELINE_MISSING_ENTRY_OR_EXIT →
  Forall (nodePasses resolve manager def) todo.
Proof.
  revert entryFound exitFound.
  induction todo as [|node todo IH]; intros e x; simpl; [constructor|].
  case_decide as Hdup; [intros [?|?]; discriminate|].
  pose proof (validateNode_status manager def node) as Hst.
  apply nodeStatus_inv in Hst as (Hst & _).
  destruct (validateNode resolve manager def node) eqn:Hnode;
    try (intros [?|?]; done).
  intros Hres. constructor; [split; [lia|done]|].
  repeat case_decide; destruct e, x;
    try (destruct Hres; discriminate); by eapply IH.
Qed.

(** The nodes that pass are gone through, and the flags record the kinds
    seen. *)
Lemma validateNodesLoop_app manager def (entryFound exitFound : bool) pre rest :
  Forall (nodePasses resolve manager def) pre →
  countByKind pre ENTRY + (if entryFound then 1 else 0) ≤ 1 →
  countByKind pre EXIT + (if exitFound then 1 else 0) ≤ 1 →
  validateNodesLoop resolve manager def entryFound exitFound (pre ++ rest)
  = validateNodesLoop resolve manager def
      (entryFound || bool_decide (0 < countByKind pre ENTRY))
      (exitFound || bool_decide (0 < countByKind pre EXIT)) rest.
Proof.
  intros Hpre. revert entryFound exitFound.
  induction Hpre as [|node pre [Hcount Hnode] _ IH]; intros e x He Hx.
  - simpl. by rewrite !orb_false_r.
  - simpl. rewrite decide_False by lia. rewrite Hnode.
    unfold countByKind in *. rewrite !filter_cons in *.
    destruct (decide (kind node = ENTRY)) as [Hk|Hk].
    + rewrite (decide_False (P:=kind node = EXIT)) in * by congruence.
      simpl in He. destruct e; [lia|]. by rewrite IH by (simpl; lia).
    + destruct (decide (kind node = EXIT)) as [Hk'|Hk'].
      * simpl in Hx. destruct x; [lia|]. by rewrite IH by (simpl; lia).
      * by rewrite IH.
Qed.

(** Validation that passes for one manager state passes for another that
    resolves the same instances for the models of the DL nodes. *)
Lemma find_elem (infos : list NodeInfo) f info :
  find f infos = Some info → info ∈ infos.
Proof. intros H. apply find_some in H as [H _]. by apply list_elem_of_In. Qed.

Lemma validateNode_mono manager manager' def node :
  (∀ info v i, info ∈ nodeInfos def → kind info = DL →
               resolve manager (modelName info) v = Resolved i →
               resolve manager' (modelName info) v = Resolved i) →
  node ∈ nodeInfos def →
  validateNode resolve manager def node = OK →
  validateNode resolve manager' def node = OK.
Proof.
  intros Hmono Hnode. unfold validateNode.
  assert (∀ inputs,
    validateNodeModel resolve manager node = NodeInputs inputs →
    validateNodeModel resolve manager' node = NodeInputs inputs) as Hmodel.
  { intros inputs. unfold validateNodeModel.
    destruct (kind node) eqn:Hk; try done.
    destruct (resolve manager _ _) as [i|] eqn:Hres; [|done].
    by rewrite (Hmono _ _ _ Hnode Hk Hres). }
  destruct (validateNodeModel resolve manager node) as [st|inputs] eqn:Hm.
  { intros ->. by apply validateNodeModel_rejected in Hm. }
  rewrite (Hmodel _ eq_refl).
  induction (connections_at (connections def) (nodeName node))
    as [|c cs IH]; simpl; [done|].
  assert (validateConnection resolve manager (nodeInfos def) node inputs c = OK →
          validateConnection resolve manager' (nodeInfos def) node inputs c = OK)
    as Hc.
  { unfold validateConnection.
    destruct (find _ _) as [src|] eqn:Hfind; [|done].
    apply find_elem in Hfind.
    destruct (kind src) eqn:Hk; try done.
    destruct (resolve manager _ _) as [i|] eqn:Hres; [|done].
    by rewrite (Hmono _ _ _ Hfind Hk Hres). }
  destruct (validateConnection resolve manager (nodeInfos def) node inputs c);
    try done.
  intros Hrest. rewrite Hc by done. auto.
Qed.

Lemma validateNodesLoop_mono manager manager' def entryFound exitFound todo :
  (∀ info v i, info ∈ nodeInfos def → kind info = DL →
               resolve manager (modelName info) v = Resolved i →
               resolve manager' (modelName info) v = Resolved i) →
  todo ⊆ nodeInfos def →
  validateNodesLoop resolve manager def entryFound exitFound todo = OK →
  validateNodesLoop resolve manager' def entryFound exitFound todo = OK.
Proof.
  intros Hmono. revert entryFound exitFound.
  induction todo as [|node todo IH]; intros e x Hsub; simpl; [done|].
  assert (node ∈ nodeInfos def) as Hnode by (apply Hsub; left).
  assert (todo ⊆ nodeInfos def) as Hsub' by (intros n Hn; apply Hsub; by right).
  case_decide; [done|].
  destruct (validateNode resolve manager def node) eqn:Hv; try done.
  rewrite (validateNode_mono manager manager' def node Hmono Hnode Hv).
  repeat case_decide; destruct e, x; try done; by apply IH.
Qed.

Lemma validateNodesLoop_counts manager def (entryFound exitFound : bool) todo :
  validateNodesLoop resolve manager def entryFound exitFound todo = OK ∨
  validateNodesLoop resolve manager def entryFound exitFound todo
    = PIPELINE_MISSING_ENTRY_OR_EXIT →
  countByKind todo ENTRY + (if entryFound then 1 else 0) ≤ 1 ∧
  countByKind todo EXIT + (if exitFound then 1 else 0) ≤ 1.
Proof.
  revert entryFound exitFound. unfold countByKind.
  induction todo as [|node todo IH]; intros e x; simpl.
  { destruct e, x; simpl; lia. }
  case_decide as Hdup; [intros [?|?]; discriminate|].
  pose proof (validateNode_status manager def node) as Hst.
  apply nodeStatus_inv in Hst as (Hst & _).
  destruct (validateNode resolve manager def node) eqn:Hnode;
    try (intros [?|?]; done).
  rewrite !filter_cons.
  destruct (decide (kind node = ENTRY)) as [Hk|Hk].
  - rewrite (decide_False (P:=kind node = EXIT)) by congruence.
    destruct e; [intros [?|?]; discriminate|].
    intros Hres. apply IH in Hres. simpl in *. lia.
  - destruct (decide (kind node = EXIT)) as [Hk'|Hk'].
    + destruct x; [intros [?|?]; discriminate|].
      intros Hres. apply IH in Hres. simpl in *. lia.
    + apply IH.
Qed.

(** The whole loop in terms of its nodes: it ends well when every node
    passes and there is one entry and one exit. *)
Lemma validateNodes_OK_iff manager def :
  validateNodes resolve manager def = OK ↔
  Forall (nodePasses resolve manager def) (nodeInfos def) ∧
  countByKind (nodeInfos def) ENTRY = 1 ∧
  countByKind (nodeInfos def) EXIT = 1.
Proof.
  unfold validateNodes. split.
  - intros Hok.
    pose proof (validateNodesLoop_passed manager def _ _ _ (or_introl Hok))
      as Hpass.
    pose proof (validateNodesLoop_counts manager def _ _ _ (or_introl Hok))
      as [He Hx].
    split; [done|]. revert Hok.
    rewrite <- (app_nil_r (nodeInfos def)) at 1.
    rewrite validateNodesLoop_app by done. simpl.
    repeat case_bool_decide; simpl; try discriminate. simpl in *. lia.
  - intros (Hpass & He & Hx).
    rewrite <- (app_nil_r (nodeInfos def)) at 1.
    rewrite validateNodesLoop_app by (simpl; done || lia). simpl.
    rewrite !bool_decide_eq_true_2 by lia. done.
Qed.

(** It ends on the missing entry or exit when every node passes, no kind
    is there twice, and the entry or the exit is not there. *)
Lemma validateNodes_missing_iff manager def :
  validateNodes resolve manager def = PIPELINE_MISSING_ENTRY_OR_EXIT ↔
  Forall (nodePasses resolve manager def) (nodeInfos def) ∧
  countByKind (nodeInfos def) ENTRY ≤ 1 ∧
  countByKind (nodeInfos def) EXIT ≤ 1 ∧
  (countByKind (nodeInfos def) ENTRY = 0 ∨
   countByKind (nodeInfos def) EXIT = 0).
Proof.
  unfold validateNodes. split.
  - intros Hmiss.
    pose proof (validateNodesLoop_passed manager def _ _ _ (or_intror Hmiss))
      as Hpass.
    pose proof (validateNodesLoop_counts manager def _ _ _ (or_intror Hmiss))
      as [He Hx].
    split; [done|]. simpl in He, Hx. split; [lia|]. split; [lia|].
    revert Hmiss.
    rewrite <- (app_nil_r (nodeInfos def)) at 1.
    rewrite validateNodesLoop_app by done. simpl.
    repeat case_bool_decide; simpl; try discriminate; lia.
  - intros (Hpass & He & Hx & Hnone).
    rewrite <- (app_nil_r (nodeInfos def)) at 1.
    rewrite validateNodesLoop_app by (simpl; done || lia). simpl.
    repeat case_bool_decide; simpl; try done; lia.
Qed.

(** The rounds of the loop of [validateNodes]: at a node whose
    predecessors passed, a duplicate name, then the status of
    [validateNode], then a second entry or exit; a missing entry or exit
    only when every node passed; the walk for cycles only after that. *)
Lemma validateNodes_rounds manager def :
  (∀ pre node post,
     nodeInfos def = pre ++ node :: post →
     Forall (nodePasses resolve manager def) pre →
     countByKind pre ENTRY ≤ 1 →
     countByKind pre EXIT ≤ 1 →
     (1 < countByName (nodeInfos def) (nodeName node) →
      validateNodes resolve manager def = PIPELINE_NODE_NAME_DUPLICATE) ∧
     (countByName (nodeInfos def) (nodeName node) ≤ 1 →
      validateNode resolve manager def node ≠ OK →
      validateNodes resolve manager def
      = validateNode resolve manager def node) ∧
     (nodePasses resolve manager def node →
      kind node = ENTRY → countByKind pre ENTRY = 1 →
      validateNodes resolve manager def = PIPELINE_MULTIPLE_ENTRY_NODES) ∧
     (nodePasses resolve manager def node →
      kind node = EXIT → countByKind pre EXIT = 1 →
      validateNodes resolve manager def = PIPELINE_MULTIPLE_EXIT_NODES)) ∧
  (validateNodes resolve manager def = PIPELINE_MISSING_ENTRY_OR_EXIT →
   Forall (nodePasses resolve manager def) (nodeInfos def)) ∧
  (∀ definitions,
     definitions !! pipelineName def = None →
     validateNodes resolve manager def ≠ OK →
     createDefinition resolve definitions (pipelineName def) (nodeInfos def)
       (connections def) manager
     = Some (validateNodes resolve manager def, definitions)) ∧
  (∀ definitions,
     definitions !! pipelineName def = None →
     validateNodes resolve manager def = OK →
     fst <$> createDefinition resolve definitions (pipelineName def)
               (nodeInfos def) (connections def) manager
     = validateForCycles def).
Proof.
  split; [|split; [|split]].
  - intros pre node post Hsplit Hpre He Hx.
    unfold validateNodes.
    replace (validateNodesLoop resolve manager def false false (nodeInfos def))
      with (validateNodesLoop resolve manager def false false
              (pre ++ node :: post)) by (by rewrite <- Hsplit).
    rewrite validateNodesLoop_app by (simpl; done || lia). simpl.
    split; [|split; [|split]].
    + intros Hdup. by rewrite decide_True.
    + intros Hcount Hnode. rewrite decide_False by lia.
      by destruct (validateNode resolve manager def node).
    + intros [Hcount Hnode] Hk Hone. rewrite decide_False by lia.
      rewrite Hnode, decide_True by done.
      by rewrite bool_decide_eq_true_2 by lia.
    + intros [Hcount Hnode] Hk Hone. rewrite decide_False by lia.
      rewrite Hnode, decide_False by congruence.
      rewrite decide_True by done.
      by rewrite bool_decide_eq_true_2 by lia.
  - intros Hmiss. by apply validateNodes_missing_iff in Hmiss as (? & _).
  - intros definitions Hfree Hfail. unfold createDefinition. rewrite Hfree.
    destruct def as [n infos conns]. simpl in *.
    by destruct (validateNodes resolve manager _).
  - intros definitions Hfree Hok. unfold createDefinition. rewrite Hfree.
    destruct def as [n infos conns]. simpl in *. rewrite Hok.
    destruct (validateForCycles _) as [[]|]; done.
Qed.

Lemma validateAliases_kind sourceNodeInfo outputs node node' nodeInputs pairs :
  kind node' = kind node →
  validateAliases sourceNodeInfo outputs node' nodeInputs pairs
  = validateAliases sourceNodeInfo outputs node nodeInputs pairs.
Proof.
  intros Hk. induction pairs as [|[al i] pairs IH]; simpl; [done|].
  by rewrite Hk, IH.
Qed.

Lemma validateAliases_not_MODEL_MISSING sourceNodeInfo outputs node
    nodeInputs pairs :
  validateAliases sourceNodeInfo outputs node nodeInputs pairs
  ≠ MODEL_MISSING.
Proof.
  induction pairs as [|[al i] pairs IH]; simpl; [done|].
  repeat case_match; done.
Qed.

(** An edge is answered with MODEL_MISSING exactly when its source is a
    declared DL node whose model does not resolve at version 0. *)
Lemma validateConnection_MODEL_MISSING manager infos node nodeInputs c :
  validateConnection resolve manager infos node nodeInputs c = MODEL_MISSING ↔
  ∃ sourceNodeInfo,
    find (λ nodeInfo, bool_decide (nodeName nodeInfo = c.1)) infos
      = Some sourceNodeInfo ∧
    kind sourceNodeInfo = DL ∧
    ¬ is_Resolved (resolve manager (modelName sourceNodeInfo) 0%Z).
Proof.
  unfold validateConnection.
  destruct (find _ infos) as [source|] eqn:Hfind.
  - destruct (kind source) eqn:Hk.
    + split; [done|]. intros (s & [= <-] & ? & _). congruence.
    + destruct (resolve manager (modelName source) 0%Z) as [i|st] eqn:Hres.
      * split.
        -- case_decide; [done|].
           intros Hal. by apply validateAliases_not_MODEL_MISSING in Hal.
        -- intros (s & [= <-] & _ & Hn). rewrite Hres in Hn.
           by destruct Hn.
      * split; [|done]. intros _. exists source. rewrite Hres. by eauto.
    + split; [done|]. intros (s & [= <-] & ? & _). congruence.
  - split; [done|]. by intros (s & ? & _).
Qed.

(** The first edge that is not let through, with the edges before it. *)
Lemma validateConnections_first_inv manager infos node nodeInputs cs status :
  validateConnections resolve manager infos node nodeInputs cs = status →
  status ≠ OK →
  ∃ before c after,
    cs = before ++ c :: after ∧
    Forall (λ c, validateConnection resolve manager infos node nodeInputs c
                 = OK) before ∧
    validateConnection resolve manager infos node nodeInputs c = status.
Proof.
  induction cs as [|c cs IH]; simpl; [congruence|].
  destruct (validateConnection resolve manager infos node nodeInputs c) eqn:Hc;
    try (intros <- _; exists [], c, cs; by repeat split).
  intros Hrest Hne.
  destruct (IH Hrest Hne) as (before & c' & after & -> & Hbefore & Hc').
  exists (c :: before), c', after. split; [done|]. split; [|done].
  by constructor.
Qed.

(** The check of an edge is the same for two resolution functions that
    agree at version 0, two lists of nodes that differ in the declared
    versions and two destinations of the same kind. *)
Lemma validateConnection_version_free
    (resolve' : ModelManager → string → Z → ModelLookup)
    manager infos infos' node node' nodeInputs c :
  (∀ n, resolve' manager n 0%Z = resolve manager n 0%Z) →
  Forall2 sameButVersion infos infos' →
  kind node' = kind node →
  validateConnection resolve' manager infos' node' nodeInputs c
  = validateConnection resolve manager infos node nodeInputs c.
Proof.
  intros Hzero Hinfos Hk. unfold validateConnection.
  destruct (find_sameButVersion infos infos' c.1 Hinfos)
    as [a b (Hkab & _ & Hm & Ha)|]; [|done].
  rewrite <- Hkab, <- Hm, Hzero.
  destruct (kind a); try done.
  destruct (resolve manager (modelName a) 0%Z); [|done].
  case_decide; [done|].
  rewrite (validateAliases_kind _ _ node node') by done.
  symmetry. by apply validateAliases_aliases.
Qed.

(** C10.  [validateNode] asks for the model of the DL source of an edge
    with version 0 only, whatever the version the source declares.  It
    returns MODEL_MISSING exactly when the check of the model of the node
    passes, the edges before some edge pass, and the source of that edge
    is a declared DL node whose model does not resolve at version 0; a
    definition that holds such an edge into one of its nodes does not
    validate; and the answer of [validateNode] is the same for two
    resolution functions that agree at version 0 and two lists of nodes
    that differ in the declared model versions, when the check of the
    model of the node itself is the same. *)
Theorem source_model_default_version manager def node :
  (validateNode resolve manager def node = MODEL_MISSING ↔
   ∃ nodeInputs before connection after sourceNodeInfo,
     validateNodeModel resolve manager node = NodeInputs nodeInputs ∧
     connections_at (connections def) (nodeName node)
       = before ++ connection :: after ∧
     Forall (λ c, validateConnection resolve manager (nodeInfos def) node
                    nodeInputs c = OK) before ∧
     find (λ nodeInfo, bool_decide (nodeName nodeInfo = connection.1))
          (nodeInfos def) = Some sourceNodeInfo ∧
     kind sourceNodeInfo = DL ∧
     ¬ is_Resolved (resolve manager (modelName sourceNodeInfo) 0%Z)) ∧
  (node ∈ nodeInfos def →
   (∃ connection sourceNodeInfo,
      connection ∈ connections_at (connections def) (nodeName node) ∧
      find (λ nodeInfo, bool_decide (nodeName nodeInfo = connection.1))
           (nodeInfos def) = Some sourceNodeInfo ∧
      kind sourceNodeInfo = DL ∧
      ¬ is_Resolved (resolve manager (modelName sourceNodeInfo) 0%Z)) →
   validateNodes resolve manager def ≠ OK) ∧
  (∀ (resolve' : ModelManager → string → Z → ModelLookup) def' node',
     (∀ n, resolve' manager n 0%Z = resolve manager n 0%Z) →
     Forall2 sameButVersion (nodeInfos def) (nodeInfos def') →
     connections def' = connections def →
     nodeName node' = nodeName node →
     kind node' = kind node →
     validateNodeModel resolve' manager node'
       = validateNodeModel resolve manager node →
     validateNode resolve' manager def' node'
     = validateNode resolve manager def node).
Proof.
  split; [|split].
  - split.
    + unfold validateNode.
      destruct (validateNodeModel resolve manager node) as [st|nodeInputs]
        eqn:Hm.
      { intros ->. unfold validateNodeModel in Hm.
        repeat case_match; congruence. }
      intros Hcs.
      destruct (validateConnections_first_inv _ _ _ _ _ _ Hcs)
        as (before & c & after & Hat & Hbefore & Hc); [done|].
      apply validateConnection_MODEL_MISSING in Hc as (source & ? & ? & ?).
      by exists nodeInputs, before, c, after, source.
    + intros (nodeInputs & before & c & after & source & Hm & Hat & Hbefore &
              Hfind & Hk & Hres).
      assert (validateConnection resolve manager (nodeInfos def) node
                nodeInputs c = MODEL_MISSING) as Hc
        by (apply validateConnection_MODEL_MISSING; eauto).
      rewrite (validateNode_first manager def node nodeInputs before c after
                 Hm Hat Hbefore); [done|]. by rewrite Hc.
  - intros Hnode (c & source & Hin & Hfind & Hk & Hres).
    apply (validateNodes_rejects manager def node Hnode).
    apply (validateNode_rejects manager def node c Hin).
    intros nodeInputs.
    assert (validateConnection resolve manager (nodeInfos def) node
              nodeInputs c = MODEL_MISSING) as ->
      by (apply validateConnection_MODEL_MISSING; eauto).
    done.
  - intros resolve' def' node' Hzero Hinfos Hconns Hname Hkind Hmodel.
    unfold validateNode. rewrite Hmodel, Hconns, Hname.
    destruct (validateNodeModel resolve manager node) as [st|nodeInputs];
      [done|].
    induction (connections_at (connections def) (nodeName node))
      as [|c cs IH]; simpl; [done|].
    rewrite (validateConnection_version_free resolve' manager (nodeInfos def)
               (nodeInfos def') node node' nodeInputs c Hzero Hinfos Hkind).
    by rewrite IH.
Qed.


End ValidationFacts.

(** ** The walk for cycles *)

Section Cycles.

Variable def : PipelineDefinition.

(** What the scan of the dependencies of a node found. *)
Lemma scanConnected_cycle cur visited ps conn :
  scanConnected cur visited ps conn = ScanCycle →
  ∃ m, m ∈ conn.*1 ∧ (m = cur ∨ m ∈ ps).
Proof.
  induction conn as [|[m pairs] conn IH]; simpl; [done|].
  case_decide as Hself.
  { intros _. exists m. split; [left|by left]. }
  case_decide as Hvis; [|done].
  case_decide as Hpar.
  { intros _. exists m. split; [left|by right]. }
  intros Hscan. destruct (IH Hscan) as (m' & Hin & Hm').
  exists m'. split; [by right|done].
Qed.

Lemma scanConnected_unvisited cur visited ps conn next :
  scanConnected cur visited ps conn = ScanUnvisited next →
  next ∈ conn.*1 ∧ next ∉ visited.
Proof.
  induction conn as [|[m pairs] conn IH]; simpl; [done|].
  case_decide as Hself; [done|].
  case_decide as Hvis.
  - case_decide as Hpar; [done|].
    intros Hscan. destruct (IH Hscan). split; [by right|done].
  - intros [= <-]. split; [left|done].
Qed.

Lemma scanConnected_done cur visited ps conn :
  scanConnected cur visited ps conn = ScanDone →
  ∀ m, m ∈ conn.*1 → m ≠ cur ∧ m ∈ visited ∧ m ∉ ps.
Proof.
  induction conn as [|[m pairs] conn IH]; simpl.
  { intros _ m Hm. by apply elem_of_nil in Hm. }
  case_decide as Hself; [done|].
  case_decide as Hvis; [|done].
  case_decide as Hpar; [done|].
  intros Hscan m' Hm'. apply elem_of_cons in Hm' as [->|Hm']; [|by apply IH].
  split; [congruence|done].
Qed.

(** *** The loop ends within its bound *)

Lemma connections_at_dependencyNames c n m :
  m ∈ (connections_at c n).*1 → m ∈ dependencyNames c.
Proof.
  unfold connections_at, dependencyNames.
  induction c as [|[k v] c IH]; simpl.
  { intros Hm. by apply elem_of_nil in Hm. }
  rewrite fmap_app, elem_of_app.
  destruct (decide (k = n)); simpl; [by left|]. intros Hm. right. auto.
Qed.

Lemma remove_dups_shorter (l : list string) :
  length (remove_dups l) ≤ length l.
Proof.
  induction l as [|a l IH]; simpl; [done|].
  case_decide; simpl; lia.
Qed.

Lemma unvisited_next visited next n :
  dependsOn def n next → next ∉ visited →
  length (unvisited def (visited ++ [next])) < length (unvisited def visited).
Proof.
  intros Hdep Hnew. unfold unvisited.
  assert (next ∈ filter (λ n, n ∉ visited)
                   (remove_dups (dependencyNames (connections def)))) as Hin.
  { apply list_elem_of_filter. split; [done|].
    apply elem_of_remove_dups. by eapply connections_at_dependencyNames. }
  replace (filter (λ n, n ∉ visited ++ [next])
             (remove_dups (dependencyNames (connections def))))
    with (filter (λ n, n ≠ next)
            (filter (λ n, n ∉ visited)
               (remove_dups (dependencyNames (connections def))))).
  { apply (length_filter_lt _ _ next); [done|]. by intros []. }
  rewrite list_filter_filter. apply list_filter_iff.
  intros m. rewrite not_elem_of_app, not_elem_of_cons. split.
  - intros [Hne Hm]. repeat split; [done..|apply not_elem_of_nil].
  - intros (Hm & Hne & _). done.
Qed.

Lemma cyclesLoop_ends fuel cur visited ps :
  roundsLeft def visited ps ≤ fuel →
  is_Some (cyclesLoop def fuel cur visited ps).
Proof.
  revert cur visited ps.
  induction fuel as [|fuel IH]; intros cur visited ps Hfuel.
  { unfold roundsLeft in Hfuel. lia. }
  simpl.
  destruct (scanConnected _ _ _ _) as [|next|] eqn:Hscan; [by eexists|..].
  - apply scanConnected_unvisited in Hscan as [Hdep Hnew].
    apply IH. unfold roundsLeft in *. rewrite length_app. simpl.
    pose proof (unvisited_next visited next cur Hdep Hnew). lia.
  - destruct (last ps) as [back|] eqn:Hlast.
    + apply last_Some in Hlast as [ps' ->]. rewrite removelast_last.
      apply IH. unfold roundsLeft in *. rewrite length_app in Hfuel.
      simpl in Hfuel. lia.
    + case_decide; by eexists.
Qed.

(** A larger bound does not change the answer. *)
Lemma cyclesLoop_more_fuel fuel fuel' cur visited ps r :
  cyclesLoop def fuel cur visited ps = Some r → fuel ≤ fuel' →
  cyclesLoop def fuel' cur visited ps = Some r.
Proof.
  revert fuel' cur visited ps.
  induction fuel as [|fuel IH]; intros fuel' cur visited ps; [done|].
  destruct fuel' as [|fuel']; [lia|]. simpl. intros Hr Hle.
  destruct (scanConnected _ _ _ _); [done|apply IH; [done|lia]|].
  destruct (last ps); [apply IH; [done|lia]|done].
Qed.

(** [validateForCycles] returns a status. *)
Lemma validateForCycles_total : is_Some (validateForCycles def).
Proof.
  unfold validateForCycles. destruct (find _ _) as [itr|]; [|by eexists].
  apply cyclesLoop_ends. unfold roundsLeft, cyclesFuel, unvisited. simpl.
  pose proof (length_filter (λ n, n ∉ [nodeName itr])
                (remove_dups (dependencyNames (connections def)))).
  pose proof (remove_dups_shorter (dependencyNames (connections def))).
  lia.
Qed.


(** *** The loop answers as specified *)

Lemma walk_reached x ps cur :
  walk def x ps cur → rtc (dependsOn def) x cur.
Proof.
  induction 1 as [|ps p n _ IH Hdep]; [done|]. by eapply rtc_r.
Qed.

Lemma walk_parent x ps cur p :
  walk def x ps cur → p ∈ ps → tc (dependsOn def) p cur.
Proof.
  induction 1 as [|ps q n _ IH Hdep]; intros Hp.
  { by apply elem_of_nil in Hp. }
  apply elem_of_app in Hp as [Hp|Hp].
  - eapply tc_r; [by apply IH|done].
  - apply list_elem_of_singleton in Hp as ->. by apply tc_once.
Qed.

Lemma walk_snoc_inv x ps p cur :
  walk def x (ps ++ [p]) cur → walk def x ps p ∧ dependsOn def p cur.
Proof.
  inversion 1 as [Hnil|ps' p' n Hw Hdep Heq]; simplify_eq.
  - by destruct ps.
  - apply app_inj_tail in Heq as [-> ->]. done.
Qed.

Lemma walk_nil_inv x cur : walk def x [] cur → cur = x.
Proof.
  inversion 1 as [|ps p n _ _ Heq]; [done|]. by destruct ps.
Qed.

Lemma finished_closed fin n m :
  finished def fin → n ∈ fin → dependsOn def n m → m ∈ fin.
Proof.
  induction 1 as [|a l _ IH Ha]; intros Hn Hdep.
  { by apply elem_of_nil in Hn. }
  apply elem_of_cons in Hn as [->|Hn]; right; auto.
Qed.

Lemma finished_rtc fin n m :
  finished def fin → n ∈ fin → rtc (dependsOn def) n m → m ∈ fin.
Proof.
  intros Hfin Hn Hreach. induction Hreach as [|n k m Hdep _ IH]; [done|].
  apply IH. by eapply finished_closed.
Qed.

Lemma finished_acyclic fin n :
  finished def fin → NoDup fin → n ∈ fin → ¬ tc (dependsOn def) n n.
Proof.
  induction 1 as [|a l Hfin IH Ha]; intros Hnd Hn Hcyc.
  { by apply elem_of_nil in Hn. }
  apply NoDup_cons in Hnd as [Hfresh Hnd].
  apply elem_of_cons in Hn as [->|Hn]; [|by apply IH].
  apply Hfresh. inversion Hcyc as [? ? Hdep|? k ? Hdep Hrest]; simplify_eq.
  - by apply Ha.
  - apply (finished_rtc l k a Hfin); [by apply Ha|by apply tc_rtc].
Qed.

Lemma cyclesInv_start x : cyclesInv def x x [x] [] [].
Proof.
  split; simpl.
  - apply NoDup_singleton.
  - done.
  - constructor.
  - constructor.
  - intros n Hn. by apply list_elem_of_singleton in Hn as ->.
Qed.

Lemma cyclesInv_member x cur visited ps fin n :
  cyclesInv def x cur visited ps fin →
  n ∈ visited ↔ n ∈ fin ∨ n ∈ ps ∨ n = cur.
Proof.
  intros Hinv. rewrite (inv_split _ _ _ _ _ _ Hinv).
  rewrite !elem_of_app, list_elem_of_singleton. done.
Qed.

Lemma cyclesInv_next x cur visited ps fin next :
  cyclesInv def x cur visited ps fin →
  dependsOn def cur next → next ∉ visited →
  cyclesInv def x next (visited ++ [next]) (ps ++ [cur]) fin.
Proof.
  intros Hinv Hdep Hnew. split.
  - apply NoDup_app. split; [apply Hinv|]. split; [|apply NoDup_singleton].
    intros n Hn Hn'. by apply list_elem_of_singleton in Hn' as ->.
  - rewrite (inv_split _ _ _ _ _ _ Hinv). by rewrite <- !(assoc_L (++)).
  - constructor; [apply Hinv|done].
  - apply Hinv.
  - intros n Hn. apply elem_of_app in Hn as [Hn|Hn].
    + by apply (inv_reached _ _ _ _ _ _ Hinv).
    + apply list_elem_of_singleton in Hn as ->.
      eapply rtc_r; [|done]. apply (walk_reached x ps). apply Hinv.
Qed.

Lemma cyclesInv_done x cur visited ps fin :
  cyclesInv def x cur visited ps fin →
  (∀ m, dependsOn def cur m → m ≠ cur ∧ m ∈ visited ∧ m ∉ ps) →
  finished def (cur :: fin).
Proof.
  intros Hinv Hdone. constructor; [apply Hinv|].
  intros m Hdep. destruct (Hdone m Hdep) as (Hne & Hvis & Hps).
  apply (cyclesInv_member _ _ _ _ _ _ Hinv) in Hvis.
  destruct Hvis as [Hvis|[Hvis|Hvis]]; done.
Qed.

Lemma cyclesInv_back x cur visited ps back fin :
  cyclesInv def x cur visited (ps ++ [back]) fin →
  (∀ m, dependsOn def cur m → m ≠ cur ∧ m ∈ visited ∧ m ∉ ps ++ [back]) →
  cyclesInv def x back visited ps (cur :: fin).
Proof.
  intros Hinv Hdone. split.
  - apply Hinv.
  - rewrite (inv_split _ _ _ _ _ _ Hinv). simpl.
    rewrite (assoc_L (++) fin). by rewrite <- Permutation_cons_append.
  - by apply (walk_snoc_inv x ps back cur), Hinv.
  - by eapply cyclesInv_done.
  - apply Hinv.
Qed.

Lemma cyclesLoop_spec x fuel cur visited ps fin r :
  cyclesInv def x cur visited ps fin →
  cyclesLoop def fuel cur visited ps = Some r →
  cyclesSpec def x r.
Proof.
  revert cur visited ps fin.
  induction fuel as [|fuel IH]; intros cur visited ps fin Hinv; [done|].
  simpl.
  destruct (scanConnected _ _ _ _) as [|next|] eqn:Hscan.
  - intros [= <-]. left. split; [|done].
    apply scanConnected_cycle in Hscan as (m & Hdep & [->|Hm]).
    + exists cur. split; [|by apply tc_once].
      apply (walk_reached x ps), Hinv.
    + exists m. split.
      * apply (inv_reached _ _ _ _ _ _ Hinv).
        apply (cyclesInv_member _ _ _ _ _ _ Hinv). auto.
      * eapply tc_r; [|exact Hdep].
        apply (walk_parent x ps); [apply Hinv|done].
  - apply scanConnected_unvisited in Hscan as [Hdep Hnew].
    apply (IH _ _ _ fin). by apply cyclesInv_next.
  - pose proof (scanConnected_done _ _ _ _ Hscan) as Hdone.
    destruct (last ps) as [back|] eqn:Hlast.
    + apply last_Some in Hlast as [ps' ->]. rewrite removelast_last.
      apply (IH _ _ _ (cur :: fin)). by apply cyclesInv_back.
    + apply last_None in Hlast as ->. intros Hr.
      pose proof (cyclesInv_done _ _ _ _ _ Hinv Hdone) as Hfin.
      pose proof (walk_nil_inv x cur (inv_walk _ _ _ _ _ _ Hinv)) as ->.
      assert (visited ≡ₚ x :: fin) as Hperm.
      { rewrite (inv_split _ _ _ _ _ _ Hinv). simpl.
        by rewrite <- Permutation_cons_append. }
      assert (∀ n, n ∈ visited ↔ rtc (dependsOn def) x n) as Hall.
      { intros n. split; [apply Hinv|]. intros Hn. rewrite Hperm.
        apply (finished_rtc _ x); [done|left|done]. }
      right. split.
      * intros (n & Hn & Hcyc). revert Hcyc.
        apply (finished_acyclic (x :: fin)); [done| |].
        -- rewrite <- Hperm. apply Hinv.
        -- rewrite <- Hperm. by apply Hall.
      * exists (length visited). split.
        -- exists visited. split; [apply Hinv|done].
        -- by case_decide; simplify_eq.
Qed.

Lemma reachedCount_unique x k k' :
  reachedCount def x k → reachedCount def x k' → k = k'.
Proof.
  intros (l & Hnd & Hl & <-) (l' & Hnd' & Hl' & <-).
  apply Permutation_length. apply NoDup_Permutation; [done..|].
  intros n. by rewrite Hl, Hl'.
Qed.

Lemma cyclesSpec_unique x r r' :
  cyclesSpec def x r → cyclesSpec def x r' → r = r'.
Proof.
  intros [[Hc ->]|[Hc (k & Hk & ->)]] [[Hc' ->]|[Hc' (k' & Hk' & ->)]];
    try done.
  by rewrite (reachedCount_unique x k k').
Qed.

(** The answer of [validateForCycles], in terms of the graph. *)
Lemma validateForCycles_spec r :
  validateForCycles def = Some r ↔
  match exitName def with
  | None => r = PIPELINE_MISSING_ENTRY_OR_EXIT
  | Some x => cyclesSpec def x r
  end.
Proof.
  pose proof validateForCycles_total as [r' Hr'].
  assert (match exitName def with
          | None => r' = PIPELINE_MISSING_ENTRY_OR_EXIT
          | Some x => cyclesSpec def x r'
          end) as Hspec.
  { revert Hr'. unfold validateForCycles, exitName.
    destruct (find _ _) as [itr|]; simpl; [|by intros [= <-]].
    apply cyclesLoop_spec with (fin := []). apply cyclesInv_start. }
  rewrite Hr'. split.
  - by intros [= <-].
  - intros Hr. f_equal. destruct (exitName def) as [x|]; [|congruence].
    by apply (cyclesSpec_unique x).
Qed.


Lemma validateForCycles_cycle :
  validateForCycles def = Some PIPELINE_CYCLE_FOUND ↔
  ∃ x, exitName def = Some x ∧ cycleReached def x.
Proof.
  rewrite validateForCycles_spec. destruct (exitName def) as [x|].
  - split.
    + intros [[Hc _]|[_ (k & _ & Hk)]]; [by exists x|]. by case_decide.
    + intros (? & [= <-] & Hc). by left.
  - split; [done|]. by intros (? & ? & _).
Qed.

(** *** Definitions that passed [validateNodes] *)

Lemma countByName_NoDup (infos : list NodeInfo) :
  Forall (λ node, countByName infos (nodeName node) ≤ 1) infos →
  NoDup (nodeName <$> infos).
Proof.
  unfold countByName. induction infos as [|a infos IH]; simpl.
  { intros _. constructor. }
  intros Hall. apply Forall_cons in Hall as [Ha Hall].
  rewrite filter_cons, decide_True in Ha by done. simpl in Ha.
  constructor.
  - intros Hin. apply list_elem_of_fmap in Hin as (b & Hab & Hb).
    assert (b ∈ filter (λ nodeInfo, nodeName nodeInfo = nodeName a) infos)
      as Hbf by (by apply list_elem_of_filter).
    destruct (filter _ infos); [by apply elem_of_nil in Hbf|simpl in Ha; lia].
  - apply IH. eapply Forall_impl; [exact Hall|]. simpl. intros b Hb.
    rewrite filter_cons in Hb. case_decide; simpl in Hb; lia.
Qed.

Lemma find_by_name_Some (infos : list NodeInfo) n info :
  find (λ nodeInfo, bool_decide (nodeName nodeInfo = n)) infos = Some info →
  n ∈ nodeName <$> infos.
Proof.
  induction infos as [|a infos IH]; simpl; [done|].
  case_bool_decide as Hn; [intros _; subst; left|right; auto].
Qed.

Lemma exitName_elem x : exitName def = Some x → x ∈ nodeNames def.
Proof.
  unfold exitName, nodeNames.
  induction (nodeInfos def) as [|a infos IH]; simpl; [done|].
  case_bool_decide; simpl; [intros [= <-]; left|right; auto].
Qed.

Lemma countByKind_exitName :
  countByKind (nodeInfos def) EXIT = 1 → is_Some (exitName def).
Proof.
  unfold exitName, countByKind.
  induction (nodeInfos def) as [|a infos IH]; simpl; [done|].
  rewrite filter_cons. case_bool_decide as Hk.
  - by eexists.
  - rewrite decide_False by done. auto.
Qed.

End Cycles.

Section CyclesValidated.

Context {ModelManager : Type}.
Variable resolve : ModelManager → string → Z → ModelLookup.

(** A node that passes depends on declared nodes only. *)
Lemma validateNode_declared manager def node m :
  validateNode resolve manager def node = OK →
  dependsOn def (nodeName node) m → m ∈ nodeNames def.
Proof.
  unfold validateNode, dependsOn.
  destruct (validateNodeModel resolve manager node) as [st|inputs] eqn:Hm.
  { intros ->. by apply validateNodeModel_rejected in Hm. }
  induction (connections_at (connections def) (nodeName node))
    as [|[src pairs] cs IH]; simpl.
  { intros _ Hin. by apply elem_of_nil in Hin. }
  destruct (validateConnection resolve manager (nodeInfos def) node inputs
              (src, pairs)) eqn:Hc; try done.
  intros Hrest Hin. apply elem_of_cons in Hin as [->|Hin]; [|by apply IH].
  unfold validateConnection in Hc. simpl in Hc.
  destruct (find _ _) eqn:Hfind; [|done].
  by eapply find_by_name_Some.
Qed.

Lemma validateNodes_declared manager def n m :
  validateNodes resolve manager def = OK →
  n ∈ nodeNames def → rtc (dependsOn def) n m → m ∈ nodeNames def.
Proof.
  intros Hok Hn Hreach. apply validateNodes_OK_iff in Hok as (Hpass & _).
  induction Hreach as [|n k m Hdep _ IH]; [done|].
  apply IH. apply list_elem_of_fmap in Hn as (node & -> & Hnode).
  rewrite Forall_forall in Hpass. destruct (Hpass node Hnode) as [_ Hv].
  by eapply validateNode_declared.
Qed.

Lemma validateNodes_NoDup manager def :
  validateNodes resolve manager def = OK → NoDup (nodeNames def).
Proof.
  intros Hok. apply validateNodes_OK_iff in Hok as (Hpass & _).
  apply countByName_NoDup. eapply Forall_impl; [exact Hpass|].
  by intros node [? _].
Qed.

(** [createDefinition] returns. *)
Lemma createDefinition_total definitions pipelineName infos conns manager :
  is_Some (createDefinition resolve definitions pipelineName infos conns
             manager).
Proof.
  unfold createDefinition.
  destruct (definitions !! pipelineName); [by eexists|].
  destruct (validateNodes resolve manager _); try by eexists.
  destruct (validateForCycles_total
              (mkPipelineDefinition pipelineName infos conns)) as [r ->].
  destruct r; by eexists.
Qed.

(** C2, amended.  The walk answers PIPELINE_CYCLE_FOUND exactly when a
    cycle can be reached from the exit along dependencies; when none can,
    it answers PIPELINE_CONTAINS_UNCONNECTED_NODES or OK as the number of
    names reached differs from the number of nodes or not.  For a
    definition that passed [validateNodes] it answers OK exactly when no
    node is on a cycle and the exit depends, directly or not, on every
    node; that the node depends on the entry is not looked at. *)
Theorem cycles_validation manager def :
  (∀ r, validateForCycles def = Some r ↔
        match exitName def with
        | None => r = PIPELINE_MISSING_ENTRY_OR_EXIT
        | Some x => cyclesSpec def x r
        end) ∧
  (validateForCycles def = Some PIPELINE_CYCLE_FOUND ↔
   ∃ x, exitName def = Some x ∧ cycleReached def x) ∧
  (validateNodes resolve manager def = OK →
   (validateForCycles def = Some OK ↔
    ∃ x, exitName def = Some x ∧
         (∀ n, n ∈ nodeNames def → ¬ tc (dependsOn def) n n) ∧
         (∀ n, n ∈ nodeNames def → rtc (dependsOn def) x n))).
Proof.
  split; [apply validateForCycles_spec|].
  split; [apply validateForCycles_cycle|].
  intros Hok.
  pose proof (validateNodes_NoDup manager def Hok) as Hnd.
  pose proof (validateNodes_declared manager def) as Hdecl.
  rewrite validateForCycles_spec.
  destruct (exitName def) as [x|] eqn:Hx.
  - pose proof (exitName_elem def x Hx) as Hxin. split.
    + intros [[_ ?]|[Hnc (k & (l & Hl & Hreach & <-) & Hk)]]; [done|].
      case_decide as Hlen; [done|].
      assert (l ≡ₚ nodeNames def) as Hperm.
      { apply submseteq_length_Permutation.
        - apply NoDup_submseteq; [done|]. intros n Hn.
          apply (Hdecl x n Hok Hxin). by apply Hreach.
        - unfold nodeNames. rewrite length_fmap. lia. }
      exists x. split; [done|]. split.
      * intros n Hn Hcyc. apply Hnc. exists n. split; [|done].
        apply Hreach. by rewrite Hperm.
      * intros n Hn. apply Hreach. by rewrite Hperm.
    + intros (? & [= <-] & Hacyc & Hall). right. split.
      * intros (n & Hn & Hcyc). apply (Hacyc n); [|done].
        by apply (Hdecl x n Hok Hxin).
      * exists (length (nodeNames def)). split.
        -- exists (nodeNames def). split; [done|]. split; [|done].
           intros n. split; [apply Hall|by apply (Hdecl x n Hok Hxin)].
        -- unfold nodeNames. rewrite length_fmap. by rewrite decide_False by lia.
  - apply validateNodes_OK_iff in Hok as (_ & _ & Hexit).
    apply countByKind_exitName in Hexit as [x' Hx']. congruence.
Qed.

Lemma firstFailure_app checks checks' :
  firstFailure (checks ++ checks')
  = match firstFailure checks with
    | OK => firstFailure checks'
    | status => status
    end.
Proof.
  induction checks as [|status checks IH]; simpl; [by destruct (firstFailure _)|].
  by destruct status.
Qed.

Lemma firstFailure_singleton status : firstFailure [status] = status.
Proof. by destruct status. Qed.

Lemma validateConnections_firstFailure manager infos node nodeInputs cs :
  validateConnections resolve manager infos node nodeInputs cs
  = firstFailure (validateConnection resolve manager infos node nodeInputs
                    <$> cs).
Proof.
  induction cs as [|c cs IH]; simpl; [done|]. rewrite IH.
  by destruct (validateConnection resolve manager infos node nodeInputs c).
Qed.

Lemma validateNode_firstFailure manager def node :
  validateNode resolve manager def node
  = firstFailure (nodeModelCheck resolve manager node ::
                  nodeEdgeChecks resolve manager def node).
Proof.
  unfold validateNode, nodeModelCheck, nodeEdgeChecks.
  destruct (validateNodeModel resolve manager node) as [status|nodeInputs].
  - by rewrite firstFailure_singleton.
  - simpl. apply validateConnections_firstFailure.
Qed.

Lemma countByKind_snoc seen node k :
  countByKind (seen ++ [node]) k
  = countByKind seen k + (if decide (kind node = k) then 1 else 0).
Proof.
  unfold countByKind. rewrite filter_app, length_app, filter_cons.
  rewrite filter_nil. by destruct (decide (kind node = k)).
Qed.

Lemma nodeChecks_firstFailure manager def seen node :
  firstFailure (nodeChecks resolve manager def seen node)
  = match uniqueNameCheck def node with
    | OK =>
        match validateNode resolve manager def node with
        | OK => secondEntryExitCheck seen node
        | status => status
        end
    | status => status
    end.
Proof.
  change (nodeChecks resolve manager def seen node)
    with ([uniqueNameCheck def node] ++
          (nodeModelCheck resolve manager node ::
           nodeEdgeChecks resolve manager def node) ++
          [secondEntryExitCheck seen node]).
  rewrite !firstFailure_app, <- validateNode_firstFailure.
  by rewrite !firstFailure_singleton.
Qed.

(** The loop of [validateNodes] after the nodes [seen], which passed,
    gives the first failure of the checks on the nodes to come and of the
    check for a missing entry or exit. *)
Lemma validateNodesLoop_firstFailure manager def seen todo :
  validateNodesLoop resolve manager def
    (bool_decide (0 < countByKind seen ENTRY))
    (bool_decide (0 < countByKind seen EXIT)) todo
  = firstFailure (checksOfNodes resolve manager def seen todo ++
                  [missingEntryExitCheck (seen ++ todo)]).
Proof.
  revert seen. induction todo as [|node rest IH]; intros seen.
  { cbn [validateNodesLoop checksOfNodes app].
    rewrite app_nil_r, firstFailure_singleton.
    unfold missingEntryExitCheck.
    repeat case_bool_decide; simpl; case_decide; try done; lia. }
  assert (firstFailure
            (checksOfNodes resolve manager def (seen ++ [node]) rest ++
             [missingEntryExitCheck (seen ++ node :: rest)])
          = validateNodesLoop resolve manager def
              (bool_decide (0 < countByKind (seen ++ [node]) ENTRY))
              (bool_decide (0 < countByKind (seen ++ [node]) EXIT)) rest)
    as Htail.
  { rewrite IH, <- app_assoc. done. }
  cbn [validateNodesLoop checksOfNodes].
  rewrite <- app_assoc, firstFailure_app, nodeChecks_firstFailure, Htail.
  rewrite !countByKind_snoc. unfold uniqueNameCheck, secondEntryExitCheck.
  destruct (decide (1 < countByName (nodeInfos def) (nodeName node)));
    [done|].
  destruct (validateNode resolve manager def node); try done.
  clear IH Htail.
  destruct (kind node); simpl.
  - destruct (decide (0 < countByKind seen ENTRY)) as [Hpos|Hzero].
    + by rewrite bool_decide_eq_true_2.
    + rewrite (bool_decide_eq_false_2 (0 < countByKind seen ENTRY)) by done.
      rewrite (bool_decide_eq_true_2 (0 < countByKind seen ENTRY + 1))
        by lia.
      by rewrite Nat.add_0_r.
  - by rewrite !Nat.add_0_r.
  - destruct (decide (0 < countByKind seen EXIT)) as [Hpos|Hzero].
    + by rewrite (bool_decide_eq_true_2 (0 < countByKind seen EXIT)).
    + rewrite (bool_decide_eq_false_2 (0 < countByKind seen EXIT)) by done.
      rewrite (bool_decide_eq_true_2 (0 < countByKind seen EXIT + 1))
        by lia.
      by rewrite Nat.add_0_r.
Qed.

(** C7, amended.  The checks are made node by node, in the order of the
    nodes: for each node the uniqueness of its name, then the model of the
    node, then its edges in their order, then the count of entries and
    exits so far; then, for the definition, a missing entry or exit; then
    the walk for cycles.  [validateNode] gives the first failure of the
    check of the model and of the checks of the edges, [validateNodes]
    that of the checks on the nodes and of the check for a missing entry
    or exit, and [createDefinition], for a name that is free, that of all
    the checks in this order. *)
Theorem validation_order manager def :
  (∀ node,
     validateNode resolve manager def node
     = firstFailure (nodeModelCheck resolve manager node ::
                     nodeEdgeChecks resolve manager def node)) ∧
  validateNodes resolve manager def
  = firstFailure (checksOfNodes resolve manager def [] (nodeInfos def) ++
                  [missingEntryExitCheck (nodeInfos def)]) ∧
  (∀ definitions,
     definitions !! pipelineName def = None →
     ∃ cycles,
       validateForCycles def = Some cycles ∧
       fst <$> createDefinition resolve definitions (pipelineName def)
                 (nodeInfos def) (connections def) manager
       = Some (firstFailure (checksInOrder resolve manager def cycles))).
Proof.
  assert (validateNodes resolve manager def
          = firstFailure (checksOfNodes resolve manager def [] (nodeInfos def)
                          ++ [missingEntryExitCheck (nodeInfos def)]))
    as Hnodes.
  { unfold validateNodes.
    by rewrite <- (validateNodesLoop_firstFailure manager def []). }
  split; [intros node; apply validateNode_firstFailure|].
  split; [exact Hnodes|].
  intros definitions Hfree.
  destruct (validateForCycles_total def) as [cycles Hcycles].
  exists cycles. split; [done|].
  unfold checksInOrder.
  rewrite (cons_middle (missingEntryExitCheck (nodeInfos def))), app_assoc.
  rewrite firstFailure_app, <- Hnodes, firstFailure_singleton.
  unfold createDefinition. rewrite Hfree.
  destruct def as [n infos conns]. simpl in *.
  destruct (validateNodes resolve manager _); try done.
  rewrite Hcycles. by destruct cycles.
Qed.


End CyclesValidated.

(** ** Construction of a pipeline for a request *)

Section CreateFacts.

Context {PredictRequest PredictResponse ModelManager DLNodeObject : Type}.
Variable newDLNode :
  string → string → option Z → ModelManager → gmap string string →
  DLNodeObject.




Lemma createNode_dom (request : PredictRequest) (response : PredictResponse)
    (manager : ModelManager) nodes entry exit info :
  dom (createNode newDLNode request response manager (nodes, entry, exit) info).1.1
  = {[nodeName info]} ∪ dom nodes.
Proof.
  unfold createNode, insert_new.
  destruct (kind info); simpl;
    destruct (nodes !! nodeName info) eqn:Hn;
    rewrite ?dom_insert_L; try done;
    apply elem_of_dom_2 in Hn; set_solver.
Qed.

(** The node table holds a node for each name, whatever the names. *)
Lemma createNodes_dom (request : PredictRequest) (response : PredictResponse)
    (manager : ModelManager) infos st :
  dom (foldl (createNode newDLNode request response manager) st infos).1.1
  = dom st.1.1 ∪ list_to_set (nodeName <$> infos).
Proof.
  revert st. induction infos as [|info infos IH]; intros [[nodes e] x].
  { simpl. set_solver. }
  cbn [foldl]. rewrite IH, createNode_dom. simpl. set_solver.
Qed.




End CreateFacts.

(** ** The default version of a model *)

Section ModelFacts.

Variable loadNetwork :
  string → Z → ModelConfig → StatusCode + (tensor_map_t * tensor_map_t).

Lemma highestAvailable_spec (versions : gmap Z ModelInstance) :
  positiveVersions versions →
  highestAvailableVersion versions (highestAvailable versions) ∨
  (highestAvailable versions = 0%Z ∧ ∀ v, ¬ isAvailable versions v).
Proof.
  unfold highestAvailable.
  apply (map_fold_weak_ind
    (λ d (t : gmap Z ModelInstance),
       positiveVersions t →
       highestAvailableVersion t d ∨ (d = 0%Z ∧ ∀ v, ¬ isAvailable t v))).
  { intros _. right. split; [done|]. intros v (i & Hi & _).
    by rewrite lookup_empty in Hi. }
  intros v i t d Hfresh IH Hpos.
  apply map_Forall_insert in Hpos as [Hv Hpos]; [|done].
  assert (∀ v', isAvailable (<[v:=i]> t) v' ↔
                (v' = v ∧ getState i = AVAILABLE) ∨ isAvailable t v') as Hav.
  { intros v'. unfold isAvailable. split.
    - intros (i' & Hi' & Hst). apply lookup_insert_Some in Hi' as [[-> ->]|[? ?]].
      + by left.
      + right. by exists i'.
    - intros [[-> Hst]|(i' & Hi' & Hst)].
      + exists i. by rewrite lookup_insert_eq.
      + exists i'. split; [|done]. rewrite lookup_insert_ne; [done|].
        intros ->. by rewrite Hfresh in Hi'. }
  unfold highestAvailableVersion.
  destruct (IH Hpos) as [[Hd Hmax]|[-> Hnone]]; case_decide as Hst.
  - left. split.
    + apply Hav. destruct (Z.max_spec v d) as [[_ ->]|[_ ->]]; auto.
    + intros v' Hv'. apply Hav in Hv' as [[-> _]|Hv']; [lia|].
      specialize (Hmax v' Hv'). lia.
  - left. split; [apply Hav; by right|].
    intros v' Hv'. apply Hav in Hv' as [[-> ?]|Hv']; [done|]. by apply Hmax.
  - left. rewrite Z.max_l by lia. split; [apply Hav; by left|].
    intros v' Hv'. apply Hav in Hv' as [[-> _]|Hv']; [lia|].
    by destruct (Hnone v').
  - right. split; [done|]. intros v' Hv'.
    apply Hav in Hv' as [[-> ?]|Hv']; [done|]. by apply (Hnone v').
Qed.

Lemma highestAvailableVersion_unique (versions : gmap Z ModelInstance) d d' :
  highestAvailableVersion versions d →
  highestAvailableVersion versions d' → d = d'.
Proof.
  intros [Hd Hmax] [Hd' Hmax']. specialize (Hmax d' Hd').
  specialize (Hmax' d Hd). lia.
Qed.

Lemma updateDefaultVersion_serves (m : Model) :
  positiveVersions (modelVersions m) →
  servesDefault (updateDefaultVersion m).
Proof.
  intros Hpos. unfold servesDefault, defaultVersionRule. simpl.
  pose proof (highestAvailable_spec (modelVersions m) Hpos) as Hspec.
  split; [done|]. split.
  - intros d Hd.
    assert (highestAvailable (modelVersions m) = d) as Heq.
    { destruct Hspec as [Hh|[_ Hnone]].
      - by apply (highestAvailableVersion_unique (modelVersions m)).
      - destruct Hd as [Hd _]. by destruct (Hnone d). }
    split; [done|]. intros manager n Hn.
    destruct Hd as [(i & Hi & Hst) _]. exists i. split; [done|].
    unfold getModelInstance, getDefaultModelInstance, getDefaultVersion.
    rewrite Hn. simpl. rewrite Heq, Hi. unfold acquireLivenessGuard.
    by rewrite Hst.
  - intros Hnone.
    assert (highestAvailable (modelVersions m) = 0%Z) as Heq.
    { destruct Hspec as [[Hh _]|[? _]]; [|done]. by destruct (Hnone _ Hh). }
    split; [done|]. intros manager n Hn.
    unfold getModelInstance, getDefaultModelInstance, getDefaultVersion.
    rewrite Hn. simpl. rewrite Heq.
    destruct (modelVersions m !! 0%Z) as [i|] eqn:Hi; [|done].
    apply Hpos in Hi. simpl in Hi. lia.
Qed.

Lemma addVersionsLoop_positive n config versions result table :
  positiveVersions table → Forall (λ v, 0 < v)%Z versions →
  positiveVersions (addVersionsLoop loadNetwork n config versions result table).2.
Proof.
  intros Hpos Hvs. revert result table Hpos.
  induction Hvs as [|v versions Hv _ IH]; intros result table Hpos; simpl;
    [done|].
  destruct (table !! v); [by apply IH|].
  destruct (loadInstance loadNetwork n v config) as [status instance].
  apply IH. by apply map_Forall_insert_2.
Qed.

Lemma retireVersions_positive versions table :
  positiveVersions table →
  positiveVersions (foldl retireVersion table versions).
Proof.
  revert table. induction versions as [|v versions IH]; intros table Hpos;
    simpl; [done|].
  apply IH. unfold retireVersion.
  destruct (table !! v) as [i|] eqn:Hi; [|done].
  apply map_Forall_insert_2; [|done]. by apply Hpos in Hi.
Qed.

Lemma reloadVersionsLoop_positive config versions result table :
  positiveVersions table →
  positiveVersions (reloadVersionsLoop loadNetwork config versions result table).2.
Proof.
  revert result table.
  induction versions as [|v versions IH]; intros result table Hpos; simpl;
    [done|].
  destruct (table !! v) as [i|] eqn:Hi; [|by apply IH].
  destruct (reloadInstance loadNetwork config i) as [status instance].
  apply IH. apply map_Forall_insert_2; [|done]. by apply Hpos in Hi.
Qed.

(** C8.  After [addVersions], [retireVersions] and [reloadVersions] the
    default version is the highest version whose instance is AVAILABLE,
    and a lookup without a version resolves to that instance; when no
    version is AVAILABLE the default version is 0 and the lookup without a
    version returns MODEL_VERSION_MISSING. *)
Theorem default_version_rule (m : Model) (versions : list Z)
    (config : ModelConfig) :
  positiveVersions (modelVersions m) →
  Forall (λ v, 0 < v)%Z versions →
  servesDefault (addVersions loadNetwork m versions config).2 ∧
  servesDefault (retireVersions m versions).2 ∧
  servesDefault (reloadVersions loadNetwork m versions config).2.
Proof.
  intros Hpos Hvs. split; [|split].
  - unfold addVersions.
    pose proof (addVersionsLoop_positive (name m) config versions OK
                  (modelVersions m) Hpos Hvs) as Hpos'.
    destruct (addVersionsLoop _ _ _ _ _ _) as [result table].
    by apply updateDefaultVersion_serves.
  - unfold retireVersions. simpl. apply updateDefaultVersion_serves.
    by apply retireVersions_positive.
  - unfold reloadVersions.
    pose proof (reloadVersionsLoop_positive config versions OK
                  (modelVersions m) Hpos) as Hpos'.
    destruct (reloadVersionsLoop _ _ _ _ _) as [result table].
    by apply updateDefaultVersion_serves.
Qed.

End ModelFacts.

(** ** Validation against two states of the manager *)

Lemma getModelInstance_Resolved (manager : gmap string Model) n v i :
  getModelInstance manager n v = Resolved i ↔
  ∃ m, manager !! n = Some m ∧
       modelVersions m !! (if decide (v = 0%Z) then defaultVersion m else v)
         = Some i ∧
       getState i = AVAILABLE.
Proof.
  unfold getModelInstance, getDefaultModelInstance, getDefaultVersion,
    getModelInstanceByVersion, acquireLivenessGuard.
  destruct (manager !! n) as [m|]; [|split; [done|by intros (? & ? & _)]].
  split.
  - intros Hres. exists m. split; [done|].
    case_decide; destruct (modelVersions m !! _) as [i'|]; try done;
      destruct (getState i') eqn:Hst; simplify_eq; done.
  - intros (? & [= <-] & Hi & Hst).
    case_decide; rewrite Hi, Hst; done.
Qed.

Lemma getModelInstance_mono (manager manager' : gmap string Model) infos :
  availableSubset manager manager' →
  sameDefaults infos manager manager' →
  ∀ info v i, info ∈ infos → kind info = DL →
    getModelInstance manager (modelName info) v = Resolved i →
    getModelInstance manager' (modelName info) v = Resolved i.
Proof.
  intros Hsub Hsame info v i Hinfo Hk Hres.
  apply getModelInstance_Resolved in Hres as (m & Hm & Hi & Hst).
  destruct (Hsub _ _ _ _ Hm Hi Hst) as (m' & Hm' & Hi').
  apply getModelInstance_Resolved. exists m'. split; [done|].
  split; [|done]. case_decide; [|done].
  by rewrite (Hsame info m m' Hinfo Hk Hm Hm').
Qed.

(** C9, amended.  A definition that validated OK against a manager
    validates OK against a manager whose AVAILABLE instances are a
    superset, when the models its DL nodes name keep their default
    version. *)
Theorem validation_monotone (definitions : gmap string PipelineDefinition)
    (pipelineName : string) (infos : list NodeInfo)
    (conns : pipeline_connections_t) (manager manager' : gmap string Model)
    (definitions' : gmap string PipelineDefinition) :
  availableSubset manager manager' →
  sameDefaults infos manager manager' →
  createDefinition getModelInstance definitions pipelineName infos conns manager
    = Some (OK, definitions') →
  createDefinition getModelInstance definitions pipelineName infos conns manager'
    = Some (OK, definitions').
Proof.
  intros Hsub Hsame. unfold createDefinition.
  destruct (definitions !! pipelineName); [done|].
  destruct (validateNodes getModelInstance manager _) eqn:Hv; try done.
  unfold validateNodes in *.
  rewrite (validateNodesLoop_mono getModelInstance manager manager'
             (mkPipelineDefinition pipelineName infos conns) _ _ _
             (getModelInstance_mono manager manager' infos Hsub Hsame)
             (reflexivity _) Hv).
  done.
Qed.

(** ** The theorems on the sample data *)

(** C3.  The slip of the loop over the bindings: on the edge from the DL
    node [A] to the exit the second binding names [unknown], which is not
    an alias of [A] and not an output of the instance the source resolves
    to, and the definition validates OK; on an edge into a DL node the
    same two bindings are answered with INVALID_MISSING_OUTPUT. *)
Theorem binding_after_break :
  ("A", [("detection_out", "response_tensor"); ("unknown", "other_tensor")])
    ∈ connections_at (connections pipelineSlip) (nodeName responseNode) ∧
  kind nodeA = DL ∧
  getModelInstance managerX (modelName nodeA) 0%Z = Resolved instanceX1 ∧
  resolveOutputName nodeA "unknown" = "unknown" ∧
  getOutputsInfo instanceX1 !! "unknown" = None ∧
  validateNode getModelInstance managerX pipelineSlip responseNode = OK ∧
  fst <$> createDefinition getModelInstance ∅ "slip" nodesS4 connectionsSlip
            managerX = Some OK ∧
  validateNode getModelInstance managerX pipelineSlipDL nodeB
    = INVALID_MISSING_OUTPUT ∧
  fst <$> createDefinition getModelInstance ∅ "slipDL" nodesS3
            connectionsSlipDL managerX = Some INVALID_MISSING_OUTPUT.
Proof. repeat split; compute_done. Qed.



(** C2, as stated, fails: the definition validates OK and its node [A]
    is on no path from the entry to the exit. *)
Lemma cycles_entry_counterexample :
  fst <$> createDefinition getModelInstance ∅ "side" nodesS4 connectionsSide
            managerX = Some OK ∧
  ¬ (validateForCycles pipelineSide = Some OK ↔
     acyclic pipelineSide ∧
     ∀ node, node ∈ nodeInfos pipelineSide →
             onEntryExitPath pipelineSide (nodeName node)).
Proof.
  split; [compute_done|]. intros [Hto _].
  destruct (Hto eq_refl) as [_ Hall].
  assert (nodeA ∈ nodeInfos pipelineSide) as HA by compute_done.
  destruct (Hall nodeA HA) as (e & x & He & _ & Hreach & _).
  injection He as <-. simpl in Hreach.
  inversion Hreach as [|? y ? Hdep _]; try discriminate.
  unfold dependsOn in Hdep. simpl in Hdep. by apply elem_of_nil in Hdep.
Qed.

Lemma cycles_validation_witness :
  validateNodes getModelInstance managerX pipelineS3 = OK ∧
  validateForCycles pipelineS3 = Some PIPELINE_CYCLE_FOUND ∧
  ∃ x, exitName pipelineS3 = Some x ∧ cycleReached pipelineS3 x.
Proof.
  split; [reflexivity|]. split; [reflexivity|].
  exact (proj1 (proj1 (proj2 (cycles_validation getModelInstance managerX
                                pipelineS3))) eq_refl).
Defined.

(** C4, as stated, fails: the edge comes from a node that is not
    declared, it is the first check to fail, and the status is
    MODEL_NAME_MISSING. *)
Lemma missing_dependency_counterexample :
  Forall (λ info, nodeName info ≠ "ghost") (nodeInfos pipelineGhost) ∧
  responseNode ∈ nodeInfos pipelineGhost ∧
  ("ghost", [("out", "response_tensor")])
    ∈ connections_at (connections pipelineGhost) (nodeName responseNode) ∧
  validateNode getModelInstance managerX pipelineGhost responseNode
    = MODEL_NAME_MISSING ∧
  createDefinition getModelInstance ∅ "ghost" (nodeInfos pipelineGhost)
    connectionsGhost managerX = Some (MODEL_NAME_MISSING, ∅) ∧
  MODEL_NAME_MISSING ≠ PIPELINE_MISSING_DEPENDENCY.
Proof. repeat split; compute_done. Qed.

Lemma missing_dependency_node_witness :
  Forall (λ info, nodeName info ≠ "ghost") (nodeInfos pipelineGhost) ∧
  responseNode ∈ nodeInfos pipelineGhost ∧
  ("ghost", [("out", "response_tensor")])
    ∈ connections_at (connections pipelineGhost) (nodeName responseNode) ∧
  validateNodes getModelInstance managerX pipelineGhost ≠ OK.
Proof.
  assert (Forall (λ info, nodeName info ≠ "ghost") (nodeInfos pipelineGhost))
    as H1 by compute_done.
  assert (responseNode ∈ nodeInfos pipelineGhost) as H2 by compute_done.
  assert (("ghost", [("out", "response_tensor")])
            ∈ connections_at (connections pipelineGhost)
                (nodeName responseNode)) as H3 by compute_done.
  do 3 (split; [assumption|]).
  exact (proj1 (proj2 (missing_dependency_node getModelInstance managerX
                         pipelineGhost responseNode "ghost"
                         [("out", "response_tensor")] H1 H2 H3))).
Defined.

(** C5, as stated, fails: the edge from the entry to the exit carries no
    binding and the definition validates OK. *)
Lemma missing_mapping_counterexample :
  ("request", []) ∈ connections_at (connections pipelineBare)
                      (nodeName responseNode) ∧
  validateNodes getModelInstance managerX pipelineBare = OK ∧
  createDefinition getModelInstance ∅ "bare" (nodeInfos pipelineBare)
    connectionsBare managerX
  ≠ Some (PIPELINE_DEFINITION_MISSING_DEPENDENCY_MAPPING, ∅) ∧
  fst <$> createDefinition getModelInstance ∅ "bare" (nodeInfos pipelineBare)
            connectionsBare managerX = Some OK.
Proof.
  split; [compute_done|]. split; [reflexivity|]. split; [|compute_done].
  intros H. vm_compute in H. discriminate.
Qed.

Lemma missing_dependency_mapping_witness :
  find (λ nodeInfo, bool_decide (nodeName nodeInfo = nodeName nodeA))
       (nodeInfos pipelineBareDL) = Some nodeA ∧
  responseNode ∈ nodeInfos pipelineBareDL ∧
  (nodeName nodeA, [])
    ∈ connections_at (connections pipelineBareDL) (nodeName responseNode) ∧
  kind nodeA = DL ∧
  is_Resolved (getModelInstance managerX (modelName nodeA) 0%Z) ∧
  validateNodes getModelInstance managerX pipelineBareDL ≠ OK.
Proof.
  assert (find (λ nodeInfo, bool_decide (nodeName nodeInfo = nodeName nodeA))
               (nodeInfos pipelineBareDL) = Some nodeA) as H1 by reflexivity.
  assert (responseNode ∈ nodeInfos pipelineBareDL) as H2 by compute_done.
  assert ((nodeName nodeA, [])
            ∈ connections_at (connections pipelineBareDL)
                (nodeName responseNode)) as H3 by compute_done.
  assert (kind nodeA = DL) as H4 by reflexivity.
  assert (is_Resolved (getModelInstance managerX (modelName nodeA) 0%Z))
    as H5 by (vm_compute; exact I).
  do 5 (split; [assumption|]).
  exact (proj1 (proj2 (proj2 (missing_dependency_mapping getModelInstance
                                managerX pipelineBareDL responseNode nodeA []
                                H1 H2 H3) H4 H5 eq_refl))).
Defined.

Lemma dynamic_parameter_forbidden_witness :
  kind nodeA = DL ∧
  getModelInstance managerAuto (modelName nodeA)
    (default 0%Z (modelVersion nodeA)) = Resolved instanceX2auto ∧
  getBatchingMode (getModelConfig instanceX2auto) = AUTO ∧
  validateNode getModelInstance managerAuto pipelineS4 nodeA
    = FORBIDDEN_MODEL_DYNAMIC_PARAMETER.
Proof.
  assert (kind nodeA = DL) as H1 by reflexivity.
  assert (getModelInstance managerAuto (modelName nodeA)
            (default 0%Z (modelVersion nodeA)) = Resolved instanceX2auto)
    as H2 by (vm_compute; reflexivity).
  assert (getBatchingMode (getModelConfig instanceX2auto) = AUTO) as H3
    by reflexivity.
  do 3 (split; [assumption|]).
  exact (proj1 (dynamic_parameter_forbidden getModelInstance managerAuto
                  pipelineS4 nodeA instanceX2auto H1 H2 (or_introl H3))).
Defined.

(** C7, as stated, fails: the definition has no entry node and an edge
    from a node that is not declared, and the status is that of the
    edge. *)
Lemma validation_order_counterexample :
  countByKind (nodeInfos pipelineNoEntry) ENTRY = 0 ∧
  Forall (λ info, nodeName info ≠ "ghost") (nodeInfos pipelineNoEntry) ∧
  ("ghost", [("out", "response_tensor")])
    ∈ connections_at (connections pipelineNoEntry) (nodeName responseNode) ∧
  createDefinition getModelInstance ∅ "noEntry" (nodeInfos pipelineNoEntry)
    connectionsGhost managerX = Some (MODEL_NAME_MISSING, ∅) ∧
  MODEL_NAME_MISSING ≠ PIPELINE_MISSING_ENTRY_OR_EXIT.
Proof. repeat split; compute_done. Qed.

Lemma validation_order_witness :
  (∅ : gmap string PipelineDefinition) !! pipelineName pipelineNoEntry
    = None ∧
  ∃ cycles,
    validateForCycles pipelineNoEntry = Some cycles ∧
    fst <$> createDefinition getModelInstance ∅ (pipelineName pipelineNoEntry)
              (nodeInfos pipelineNoEntry) (connections pipelineNoEntry)
              managerX
    = Some (firstFailure
              (checksInOrder getModelInstance managerX pipelineNoEntry
                 cycles)).
Proof.
  assert ((∅ : gmap string PipelineDefinition) !! pipelineName pipelineNoEntry
          = None) as H1 by reflexivity.
  split; [assumption|].
  exact (proj2 (proj2 (validation_order getModelInstance managerX
                         pipelineNoEntry)) ∅ H1).
Defined.

Lemma default_version_rule_witness :
  positiveVersions (modelVersions modelX) ∧
  Forall (λ v, 0 < v)%Z [2%Z] ∧
  servesDefault (addVersions backendX modelX [2%Z] configXauto).2 ∧
  servesDefault (retireVersions modelX [2%Z]).2 ∧
  servesDefault (reloadVersions backendX modelX [2%Z] configXauto).2.
Proof.
  assert (positiveVersions (modelVersions modelX)) as H1 by compute_done.
  assert (Forall (λ v, 0 < v)%Z [2%Z]) as H2 by (repeat constructor).
  split; [assumption|]. split; [assumption|].
  exact (default_version_rule backendX modelX [2%Z] configXauto H1 H2).
Defined.

(** C9, as stated, fails: version 2 of [X] is added with batch size auto,
    every AVAILABLE instance of the first manager is still there, and
    the definition that validated OK is answered with
    FORBIDDEN_MODEL_DYNAMIC_PARAMETER. *)
Lemma validation_monotone_counterexample :
  availableSubset managerX managerX2 ∧
  fst <$> createDefinition getModelInstance ∅ "S4" nodesS4 connectionsS4
            managerX = Some OK ∧
  createDefinition getModelInstance ∅ "S4" nodesS4 connectionsS4 managerX2
  = Some (FORBIDDEN_MODEL_DYNAMIC_PARAMETER, ∅).
Proof.
  split; [|split; compute_done].
  intros n m v i Hn Hv Hst. unfold managerX in Hn.
  apply lookup_singleton_Some in Hn as [<- <-]. simpl in Hv.
  apply lookup_singleton_Some in Hv as [<- <-].
  eexists. split; reflexivity.
Qed.

Lemma validation_monotone_witness :
  availableSubset managerX managerXY ∧
  sameDefaults nodesS4 managerX managerXY ∧
  createDefinition getModelInstance ∅ "S4" nodesS4 connectionsS4 managerX
  = Some (OK, {[ "S4" := mkPipelineDefinition "S4" nodesS4
                           (validatedConnections nodesS4 connectionsS4) ]}) ∧
  createDefinition getModelInstance ∅ "S4" nodesS4 connectionsS4 managerXY
  = Some (OK, {[ "S4" := mkPipelineDefinition "S4" nodesS4
                           (validatedConnections nodesS4 connectionsS4) ]}).
Proof.
  assert (availableSubset managerX managerXY) as H1.
  { intros n m v i Hn Hv _. unfold managerX in Hn.
    apply lookup_singleton_Some in Hn as [<- <-]. by exists modelX. }
  assert (sameDefaults nodesS4 managerX managerXY) as H2.
  { intros node m m' _ _ Hm Hm'. unfold managerX in Hm.
    apply lookup_singleton_Some in Hm as [Hname <-].
    rewrite <- Hname in Hm'. by injection Hm' as <-. }
  assert (createDefinition getModelInstance ∅ "S4" nodesS4 connectionsS4
            managerX
          = Some (OK, {[ "S4" := mkPipelineDefinition "S4" nodesS4
                           (validatedConnections nodesS4 connectionsS4) ]}))
    as H3 by reflexivity.
  do 3 (split; [assumption|]).
  exact (validation_monotone ∅ "S4" nodesS4 connectionsS4 managerX managerXY
           _ H1 H2 H3).
Defined.

Lemma source_model_default_version_witness :
  (validateNodeModel getModelInstance managerEmpty responseNode
     = NodeInputs ∅ ∧
   connections_at (connections pipelineS5) (nodeName responseNode)
     = [] ++ ("A", [("faces", "response_tensor")]) :: [] ∧
   find (λ nodeInfo, bool_decide (nodeName nodeInfo = "A"))
        (nodeInfos pipelineS5) = Some nodeA1 ∧
   kind nodeA1 = DL ∧ modelVersion nodeA1 = Some 1%Z ∧
   ¬ is_Resolved (getModelInstance managerEmpty (modelName nodeA1) 0%Z) ∧
   validateNode getModelInstance managerEmpty pipelineS5 responseNode
     = MODEL_MISSING) ∧
  ((∀ n, getDefaultOnly managerX n 0%Z = getModelInstance managerX n 0%Z) ∧
   Forall2 sameButVersion (nodeInfos pipelineS4) (nodeInfos pipelineS5) ∧
   connections pipelineS5 = connections pipelineS4 ∧
   validateNodeModel getDefaultOnly managerX responseNode
     = validateNodeModel getModelInstance managerX responseNode ∧
   validateNode getDefaultOnly managerX pipelineS5 responseNode
     = validateNode getModelInstance managerX pipelineS4 responseNode).
Proof.
  assert (validateNodeModel getModelInstance managerEmpty responseNode
          = NodeInputs ∅) as H1 by reflexivity.
  assert (connections_at (connections pipelineS5) (nodeName responseNode)
          = [] ++ ("A", [("faces", "response_tensor")]) :: []) as H2
    by reflexivity.
  assert (find (λ nodeInfo, bool_decide (nodeName nodeInfo = "A"))
               (nodeInfos pipelineS5) = Some nodeA1) as H3 by reflexivity.
  assert (kind nodeA1 = DL) as H4 by reflexivity.
  assert (modelVersion nodeA1 = Some 1%Z) as H5 by reflexivity.
  assert (¬ is_Resolved (getModelInstance managerEmpty (modelName nodeA1)
                           0%Z)) as H6 by (vm_compute; tauto).
  assert (∀ n, getDefaultOnly managerX n 0%Z = getModelInstance managerX n 0%Z)
    as H7 by reflexivity.
  assert (Forall2 sameButVersion (nodeInfos pipelineS4) (nodeInfos pipelineS5))
    as H8 by (repeat constructor).
  assert (connections pipelineS5 = connections pipelineS4) as H9
    by reflexivity.
  assert (validateNodeModel getDefaultOnly managerX responseNode
          = validateNodeModel getModelInstance managerX responseNode) as H10
    by reflexivity.
  split.
  - do 6 (split; [assumption|]).
    exact (proj2 (proj1 (source_model_default_version getModelInstance
                           managerEmpty pipelineS5 responseNode))
             (ex_intro _ ∅ (ex_intro _ [] (ex_intro _ _ (ex_intro _ []
                (ex_intro _ nodeA1
                   (conj H1 (conj H2 (conj (Forall_nil_2 _)
                      (conj H3 (conj H4 H6))))))))))).
  - do 4 (split; [assumption|]).
    exact (proj2 (proj2 (source_model_default_version getModelInstance
                           managerX pipelineS4 responseNode))
             getDefaultOnly pipelineS5 responseNode H7 H8 H9 eq_refl eq_refl
             H10).
Defined.

(** * Further properties of the validation *)

Section NodeAcceptance.

Context {ModelManager : Type}.
Variable resolve : ModelManager → string → Z → ModelLookup.

Lemma anyShapeAuto_iff (shapes : gmap string ShapeInfo) :
  anyShapeAuto shapes = true ↔
  ∃ n s, shapes !! n = Some s ∧ shapeMode s = AUTO.
Proof.
  split.
  - unfold anyShapeAuto. intros H. apply existsb_exists in H as ([n s] & Hin & Hs).
    exists n, s. split.
    + apply elem_of_map_to_list. by apply list_elem_of_In.
    + simpl in Hs. by apply bool_decide_eq_true_1 in Hs.
  - intros (n & s & Hn & Hs). by eapply anyShapeAuto_true.
Qed.

Lemma validateNodeModel_accepted manager node nodeInputs :
  validateNodeModel resolve manager node = NodeInputs nodeInputs ↔
  nodeModelAccepted resolve manager node nodeInputs.
Proof.
  unfold validateNodeModel, nodeModelAccepted, dynamicConfig.
  destruct (kind node); [split; [by intros [= <-]|by intros ->]| |
                         split; [by intros [= <-]|by intros ->]].
  destruct (resolve manager _ _) as [instance|status].
  - destruct (decide (getBatchingMode (getModelConfig instance) = AUTO))
      as [Hb|Hb].
    { split; [done|]. intros (i & [= <-] & Hdyn & _). destruct Hdyn. by left. }
    destruct (anyShapeAuto (getShapes (getModelConfig instance))) eqn:Hs.
    { split; [done|]. intros (i & [= <-] & Hdyn & _). destruct Hdyn. right.
      by apply anyShapeAuto_iff. }
    split.
    + intros [= <-]. exists instance. split; [done|]. split; [|done].
      intros [?|Hauto]; [done|]. apply anyShapeAuto_iff in Hauto. congruence.
    + by intros (i & [= <-] & _ & ->).
  - split; [done|]. by intros (i & ? & _).
Qed.

Lemma validateNodeModel_forbidden manager node :
  validateNodeModel resolve manager node
    = NodeRejected FORBIDDEN_MODEL_DYNAMIC_PARAMETER ↔
  kind node = DL ∧
  ∃ instance,
    resolve manager (modelName node) (default 0%Z (modelVersion node))
      = Resolved instance ∧
    dynamicConfig (getModelConfig instance).
Proof.
  unfold validateNodeModel, dynamicConfig.
  destruct (kind node); [split; [done|by intros [? _]]| |
                         split; [done|by intros [? _]]].
  destruct (resolve manager _ _) as [instance|status].
  - destruct (decide (getBatchingMode (getModelConfig instance) = AUTO))
      as [Hb|Hb].
    { split; [|done]. intros _. split; [done|]. exists instance. auto. }
    destruct (anyShapeAuto (getShapes (getModelConfig instance))) eqn:Hs.
    { split; [|done]. intros _. split; [done|]. exists instance.
      split; [done|]. right. by apply anyShapeAuto_iff. }
    split; [done|]. intros [_ (i & [= <-] & [?|Hauto])]; [done|].
    apply anyShapeAuto_iff in Hauto. congruence.
  - split; [done|]. by intros [_ (i & ? & _)].
Qed.

Lemma validateNodeModel_name_missing manager node status :
  validateNodeModel resolve manager node = NodeRejected status →
  status ≠ FORBIDDEN_MODEL_DYNAMIC_PARAMETER →
  status = MODEL_NAME_MISSING ∧ kind node = DL ∧
  ¬ is_Resolved (resolve manager (modelName node)
                   (default 0%Z (modelVersion node))).
Proof.
  unfold validateNodeModel. destruct (kind node); try done.
  destruct (resolve manager _ _) as [instance|st].
  - repeat case_match; intros [= <-]; done.
  - intros [= <-] _. auto.
Qed.

(** The loop over the bindings. *)
Lemma validateAliases_edgeStatus src outputs node nodeInputs pairs :
  validateAliases src outputs node nodeInputs pairs = OK ∨
  validateAliases src outputs node nodeInputs pairs = INVALID_MISSING_OUTPUT ∨
  validateAliases src outputs node nodeInputs pairs = INVALID_MISSING_INPUT.
Proof.
  induction pairs as [|[a i] pairs IH]; simpl; [by left|].
  repeat case_match; auto.
Qed.

Lemma validateAliases_OK src outputs node nodeInputs pairs :
  pairs ≠ [] →
  validateAliases src outputs node nodeInputs pairs = OK ↔
  bindingsAccepted src outputs node nodeInputs pairs.
Proof.
  unfold bindingsAccepted, outputDeclared, inputDeclared.
  destruct (decide (kind node = DL)) as [Hk|Hk].
  - intros _. induction pairs as [|[a i] pairs IH].
    { split; [constructor|done]. }
    rewrite validateAliases_DL_cons by done. rewrite Forall_cons. simpl.
    destruct (outputs !! _) as [o|].
    + destruct (nodeInputs !! i) as [t|].
      * rewrite IH. split; [intros ?; by repeat split|by intros [_ ?]].
      * split; [done|]. intros [[_ [? ?]] _]. done.
    + split; [done|]. intros [[[? ?] _] _]. done.
  - intros Hne. destruct pairs as [|[a i] pairs]; [done|].
    rewrite validateAliases_not_DL_cons by done. simpl.
    destruct (outputs !! _) as [o|] eqn:Ho.
    + split; [|done]. intros _. exists (a, i). split; [done|]. simpl.
      by rewrite Ho.
    + split; [done|]. intros (b & [= <-] & [? Hb]). simpl in Hb. congruence.
Qed.

Lemma validateAliases_missing_output src outputs node nodeInputs pairs :
  validateAliases src outputs node nodeInputs pairs = INVALID_MISSING_OUTPUT →
  ∃ binding, binding ∈ pairs ∧ ¬ outputDeclared src outputs binding.
Proof.
  unfold outputDeclared.
  induction pairs as [|[a i] pairs IH]; simpl; [done|].
  destruct (outputs !! _) as [o|] eqn:Ho.
  - case_decide; [done|]. destruct (nodeInputs !! i); [|done].
    intros Hrest. destruct (IH Hrest) as (b & Hb & Hnot). exists b.
    split; [by right|done].
  - intros _. exists (a, i). split; [left|]. simpl. rewrite Ho.
    by intros [? ?].
Qed.

Lemma validateAliases_missing_input src outputs node nodeInputs pairs :
  validateAliases src outputs node nodeInputs pairs = INVALID_MISSING_INPUT →
  kind node = DL ∧
  ∃ binding, binding ∈ pairs ∧ ¬ inputDeclared nodeInputs binding.
Proof.
  unfold inputDeclared.
  induction pairs as [|[a i] pairs IH]; simpl; [done|].
  destruct (outputs !! _) as [o|]; [|done].
  case_decide as Hk; [done|].
  assert (kind node = DL) as HDL by (by destruct (kind node)).
  destruct (nodeInputs !! i) as [t|] eqn:Hi.
  - intros Hrest. destruct (IH Hrest) as (_ & b & Hb & Hnot). split; [done|].
    exists b. split; [by right|done].
  - intros _. split; [done|]. exists (a, i). split; [left|]. simpl.
    rewrite Hi. by intros [? ?].
Qed.

Lemma validateConnection_OK manager infos node nodeInputs connection :
  validateConnection resolve manager infos node nodeInputs connection = OK ↔
  edgeAccepted resolve manager infos node nodeInputs connection.
Proof.
  unfold validateConnection, edgeAccepted.
  destruct (find _ infos) as [src|]; [|split; [done|by intros (? & ? & _)]].
  destruct (decide (kind src = DL)) as [Hk|Hk].
  - rewrite Hk.
    destruct (resolve manager (modelName src) 0%Z) as [instance|status] eqn:Hres.
    + case_decide as Hlen.
      * split; [done|]. intros (src' & Hsrc & Hacc). simplify_eq.
        destruct (Hacc Hk) as (i & _ & Hne & _). by destruct connection.2.
      * assert (connection.2 ≠ []) as Hne by (by destruct connection.2).
        rewrite validateAliases_OK by done. split.
        -- intros Hb. exists src. split; [done|]. intros _. by exists instance.
        -- intros (src' & Hsrc & Hacc). simplify_eq.
           destruct (Hacc Hk) as (i & Hi & _ & Hb).
           rewrite Hres in Hi. by injection Hi as <-.
    + split; [done|]. intros (src' & Hsrc & Hacc). simplify_eq.
      destruct (Hacc Hk) as (i & Hi & _). congruence.
  - split.
    + intros _. exists src. split; [done|]. done.
    + intros _. by destruct (kind src).
Qed.

Lemma validateConnections_OK manager infos node nodeInputs cs :
  validateConnections resolve manager infos node nodeInputs cs = OK ↔
  Forall (λ c, validateConnection resolve manager infos node nodeInputs c = OK)
         cs.
Proof.
  induction cs as [|c cs IH]; simpl; [split; [constructor|done]|].
  rewrite Forall_cons, <- IH.
  destruct (validateConnection resolve manager infos node nodeInputs c);
    split; try done; by intros [? ?].
Qed.

(** The first connection that is not let through gives the status. *)
Lemma validateConnections_error manager infos node nodeInputs cs status :
  validateConnections resolve manager infos node nodeInputs cs = status →
  status ≠ OK →
  ∃ c, c ∈ cs ∧
       validateConnection resolve manager infos node nodeInputs c = status.
Proof.
  induction cs as [|c cs IH]; simpl; [congruence|].
  destruct (validateConnection resolve manager infos node nodeInputs c) eqn:Hc;
    try (intros <- _; exists c; split; [left|done]).
  intros Hrest Hne. destruct (IH Hrest Hne) as (c' & Hin & Hc').
  exists c'. split; [by right|done].
Qed.

Lemma validateConnection_edgeStatus manager infos node nodeInputs c :
  edgeStatus (validateConnection resolve manager infos node nodeInputs c).
Proof.
  unfold validateConnection. repeat case_match; try done.
  by destruct (validateAliases_edgeStatus n (getOutputsInfo instance) node
                 nodeInputs c.2) as [->|[->| ->]].
Qed.

(** X3.  [validateNode] answers FORBIDDEN_MODEL_DYNAMIC_PARAMETER exactly
    for a DL node whose model resolves to an instance whose configuration
    has batching mode AUTO or a shape of mode AUTO. *)
Theorem forbidden_dynamic_parameter_iff manager def node :
  validateNode resolve manager def node = FORBIDDEN_MODEL_DYNAMIC_PARAMETER ↔
  kind node = DL ∧
  ∃ instance,
    resolve manager (modelName node) (default 0%Z (modelVersion node))
      = Resolved instance ∧
    dynamicConfig (getModelConfig instance).
Proof.
  rewrite <- validateNodeModel_forbidden. unfold validateNode.
  destruct (validateNodeModel resolve manager node) as [status|inputs] eqn:Hm.
  - split; [by intros ->|by intros [= ->]].
  - split; [|done]. intros Hcs.
    apply validateConnections_error in Hcs as (c & _ & Hc); [|done].
    pose proof (validateConnection_edgeStatus manager (nodeInfos def) node
                  inputs c) as Hst.
    by rewrite Hc in Hst.
Qed.

(** X4.  [validateNode] answers OK exactly when the node is accepted: a
    DL node resolves to an instance without dynamic parameter; the source
    of each of its edges is declared; each edge from a DL source has a
    source model that resolves at version 0 and at least one binding; and
    the bindings of such an edge name outputs of the source and inputs of
    the node, all of them when the node is a DL node, the first of them
    (and only its output) when it is not. *)
Theorem validateNode_accepts_iff manager def node :
  validateNode resolve manager def node = OK ↔
  nodeAccepted resolve manager def node.
Proof.
  unfold validateNode, nodeAccepted. split.
  - destruct (validateNodeModel resolve manager node) as [status|inputs] eqn:Hm.
    { intros ->. by apply validateNodeModel_rejected in Hm. }
    intros Hcs. exists inputs. split; [by apply validateNodeModel_accepted|].
    apply validateConnections_OK in Hcs.
    eapply Forall_impl; [exact Hcs|]. intros c. apply validateConnection_OK.
  - intros (inputs & Hm & Hcs). apply validateNodeModel_accepted in Hm.
    rewrite Hm. apply validateConnections_OK.
    eapply Forall_impl; [exact Hcs|]. intros c. apply validateConnection_OK.
Qed.


Lemma find_by_name_None_inv (infos : list NodeInfo) n :
  find (λ nodeInfo, bool_decide (nodeName nodeInfo = n)) infos = None →
  Forall (λ nodeInfo, nodeName nodeInfo ≠ n) infos.
Proof.
  induction infos as [|a infos IH]; simpl; [constructor|].
  case_bool_decide; [done|]. intros Hrest. constructor; auto.
Qed.

Lemma find_by_name_name (infos : list NodeInfo) n info :
  find (λ nodeInfo, bool_decide (nodeName nodeInfo = n)) infos = Some info →
  nodeName info = n.
Proof.
  intros Hfind. apply find_some in Hfind as [_ Hn].
  by apply bool_decide_eq_true_1 in Hn.
Qed.

(** X5.  A status other than OK that [validateNode] returns stands for a
    defect that is there: an unresolved model or an undeclared source
    (MODEL_NAME_MISSING), a dynamic parameter of the node's model, a DL
    source whose model does not resolve at version 0 (MODEL_MISSING), an
    edge from a DL source without bindings, a binding that names no output
    of the source, or, for a DL node only, a binding that names no input
    of the node. *)
Theorem validateNode_error_sound manager def node status :
  validateNode resolve manager def node = status →
  status ≠ OK →
  nodeDefect resolve manager def node status.
Proof.
  intros Hv Hne.
  destruct (decide (status = FORBIDDEN_MODEL_DYNAMIC_PARAMETER)) as [->|Hnf].
  { simpl. unfold validateNode in Hv.
    destruct (validateNodeModel resolve manager node) as [st|inputs] eqn:Hm.
    - subst st. by apply validateNodeModel_forbidden.
    - apply validateConnections_error in Hv as (c & _ & Hc); [|done].
      pose proof (validateConnection_edgeStatus manager (nodeInfos def) node
                    inputs c) as Hst.
      by rewrite Hc in Hst. }
  unfold validateNode in Hv.
  destruct (validateNodeModel resolve manager node) as [st|inputs] eqn:Hm.
  { subst st.
    destruct (validateNodeModel_name_missing manager node status Hm Hnf)
      as (-> & Hk & Hres).
    simpl. by left. }
  apply validateConnections_error in Hv as (c & Hin & Hc); [|done].
  unfold validateConnection in Hc.
  destruct (find _ _) as [src|] eqn:Hfind.
  2:{ subst status. simpl. right. exists c. split; [done|].
      by apply find_by_name_None_inv. }
  pose proof (find_elem _ _ _ Hfind) as Hsrc.
  pose proof (find_by_name_name _ _ _ Hfind) as Hname.
  destruct (kind src) eqn:Hk; try congruence.
  destruct (resolve manager (modelName src) 0%Z) as [instance|st] eqn:Hres.
  2:{ subst status. simpl. exists c, src. repeat split; try done.
      rewrite Hres. by intros []. }
  case_decide as Hlen.
  { subst status. simpl. exists c, src. repeat split; try done.
    by destruct c.2. }
  destruct (validateAliases_edgeStatus src (getOutputsInfo instance) node
              inputs c.2) as [Ha|[Ha|Ha]]; rewrite Ha in Hc; subst status.
  - done.
  - apply validateAliases_missing_output in Ha as (b & Hb & Hnot).
    simpl. exists c, src, instance, b. by repeat split.
  - apply validateAliases_missing_input in Ha as (HDL & b & Hb & Hnot).
    apply validateNodeModel_accepted in Hm. unfold nodeModelAccepted in Hm.
    rewrite HDL in Hm. destruct Hm as (i & Hi & _ & ->).
    simpl. split; [done|]. by exists i, c, b.
Qed.

(** *** The loop over the nodes *)

Lemma countByName_le_1 (infos : list NodeInfo) n :
  NoDup (nodeName <$> infos) → countByName infos n ≤ 1.
Proof.
  unfold countByName. induction infos as [|a infos IH]; simpl; [lia|].
  intros Hnd. apply NoDup_cons in Hnd as [Hfresh Hnd].
  rewrite filter_cons. case_decide as Ha; [|auto].
  simpl. subst n.
  destruct (filter _ infos) as [|b rest] eqn:Hf; [simpl; lia|].
  assert (b ∈ filter (λ nodeInfo, nodeName nodeInfo = nodeName a) infos)
    as Hb by (rewrite Hf; left).
  apply list_elem_of_filter in Hb as [Hb Hbin]. destruct Hfresh.
  rewrite <- Hb. apply list_elem_of_fmap. by exists b.
Qed.

Lemma validateNodesLoop_error manager def (entryFound exitFound : bool)
    todo status :
  validateNodesLoop resolve manager def entryFound exitFound todo = status →
  (status = PIPELINE_NODE_NAME_DUPLICATE →
   ∃ node, node ∈ todo ∧ 1 < countByName (nodeInfos def) (nodeName node)) ∧
  (status = PIPELINE_MULTIPLE_ENTRY_NODES →
   2 ≤ countByKind todo ENTRY + (if entryFound then 1 else 0)) ∧
  (status = PIPELINE_MULTIPLE_EXIT_NODES →
   2 ≤ countByKind todo EXIT + (if exitFound then 1 else 0)) ∧
  (nodeStatus status → status ≠ OK →
   ∃ node, node ∈ todo ∧ validateNode resolve manager def node = status).
Proof.
  revert entryFound exitFound. unfold countByKind.
  induction todo as [|node todo IH]; intros e x; simpl.
  { intros <-. destruct e, x; simpl; repeat split; done. }
  case_decide as Hdup.
  { intros <-. repeat split; try done. intros _. exists node.
    split; [left|done]. }
  pose proof (validateNode_status resolve manager def node) as Hst.
  destruct (validateNode resolve manager def node) eqn:Hnode;
    try (exfalso; exact Hst);
    try (intros <-; repeat split; try done; intros _ _; exists node;
         split; [left|done]).
  rewrite !filter_cons.
  assert (
    (∃ n, n ∈ todo ∧ 1 < countByName (nodeInfos def) (nodeName n)) →
    ∃ n, n ∈ node :: todo ∧ 1 < countByName (nodeInfos def) (nodeName n))
    as Hd by (intros (n & Hn & Hc); exists n; split; [by right|done]).
  assert (
    (∃ n, n ∈ todo ∧ validateNode resolve manager def n = status) →
    ∃ n, n ∈ node :: todo ∧ validateNode resolve manager def n = status)
    as Hv by (intros (n & Hn & Hc); exists n; split; [by right|done]).
  destruct (decide (kind node = ENTRY)) as [Hk|Hk].
  - rewrite (decide_False (P:=kind node = EXIT)) by congruence.
    destruct e.
    + intros <-. repeat split; try done. intros _. simpl. lia.
    + intros Hrest. destruct (IH _ _ Hrest) as (H1 & H2 & H3 & H4).
      repeat split.
      * intros Hs. by apply Hd, H1.
      * intros Hs. specialize (H2 Hs). simpl in *. lia.
      * intros Hs. specialize (H3 Hs). simpl in *. lia.
      * intros Hs Hne. by apply Hv, H4.
  - destruct (decide (kind node = EXIT)) as [Hk'|Hk'].
    + destruct x.
      * intros <-. repeat split; try done. intros _. simpl. lia.
      * intros Hrest. destruct (IH _ _ Hrest) as (H1 & H2 & H3 & H4).
        repeat split.
        -- intros Hs. by apply Hd, H1.
        -- intros Hs. specialize (H2 Hs). simpl in *. lia.
        -- intros Hs. specialize (H3 Hs). simpl in *. lia.
        -- intros Hs Hne. by apply Hv, H4.
    + intros Hrest. destruct (IH _ _ Hrest) as (H1 & H2 & H3 & H4).
      repeat split.
      * intros Hs. by apply Hd, H1.
      * intros Hs. specialize (H2 Hs). simpl in *. lia.
      * intros Hs. specialize (H3 Hs). simpl in *. lia.
      * intros Hs Hne. by apply Hv, H4.
Qed.

Lemma validateNodesLoop_range manager def (entryFound exitFound : bool) todo :
  let status :=
    validateNodesLoop resolve manager def entryFound exitFound todo in
  nodeStatus status ∨ status = PIPELINE_NODE_NAME_DUPLICATE ∨
  status = PIPELINE_MULTIPLE_ENTRY_NODES ∨
  status = PIPELINE_MULTIPLE_EXIT_NODES ∨
  status = PIPELINE_MISSING_ENTRY_OR_EXIT.
Proof.
  revert entryFound exitFound.
  induction todo as [|node todo IH]; intros e x; simpl.
  { destruct e, x; simpl; auto. }
  case_decide; [auto|].
  pose proof (validateNode_status resolve manager def node) as Hst.
  destruct (validateNode resolve manager def node); try (by left).
  repeat case_decide; destruct e, x; auto; apply IH.
Qed.

(** X1.  [validateNodes] answers OK exactly when the node names are
    pairwise distinct, [validateNode] answers OK for every node, and the
    definition has exactly one ENTRY node and exactly one EXIT node. *)
Theorem validateNodes_accepts_iff manager def :
  validateNodes resolve manager def = OK ↔
  NoDup (nodeNames def) ∧
  Forall (λ node, validateNode resolve manager def node = OK) (nodeInfos def) ∧
  countByKind (nodeInfos def) ENTRY = 1 ∧
  countByKind (nodeInfos def) EXIT = 1.
Proof.
  rewrite validateNodes_OK_iff. unfold nodePasses. split.
  - intros (Hpass & He & Hx). split.
    + apply countByName_NoDup. eapply Forall_impl; [exact Hpass|].
      by intros node [? _].
    + split; [|done]. eapply Forall_impl; [exact Hpass|]. by intros node [_ ?].
  - intros (Hnd & Hpass & He & Hx). split; [|done].
    eapply Forall_impl; [exact Hpass|]. intros node Hnode. split; [|done].
    by apply countByName_le_1.
Qed.

(** X2.  A status other than OK that [validateNodes] returns stands for a
    defect that is there: a node name borne by two nodes, two ENTRY nodes,
    two EXIT nodes, no ENTRY or no EXIT node, or a node for which
    [validateNode] returns that status. *)
Theorem validateNodes_error_sound manager def status :
  validateNodes resolve manager def = status →
  status ≠ OK →
  definitionDefect resolve manager def status.
Proof.
  intros Hv Hne.
  destruct (decide (status = PIPELINE_MISSING_ENTRY_OR_EXIT)) as [->|Hmiss].
  { simpl. by apply validateNodes_missing_iff in Hv as (_ & _ & _ & ?). }
  destruct (validateNodesLoop_error manager def false false _ _ Hv)
    as (H1 & H2 & H3 & H4).
  pose proof (validateNodesLoop_range manager def false false (nodeInfos def))
    as Hrange.
  simpl in Hrange. unfold validateNodes in Hv. rewrite Hv in Hrange.
  destruct Hrange as [Hn|[->|[->|[->| ->]]]]; simpl.
  - specialize (H4 Hn Hne). by destruct status.
  - by apply H1.
  - specialize (H2 eq_refl). simpl in H2. lia.
  - specialize (H3 eq_refl). simpl in H3. lia.
  - done.
Qed.

End NodeAcceptance.

(** * Further properties of the walk for cycles *)

Lemma tc_rel_impl {A : Type} (R R' : relation A) x y :
  (∀ a b, R a b → R' a b) → tc R x y → tc R' x y.
Proof.
  intros Himpl. induction 1 as [x y Hxy|x y z Hxy _ IH].
  - apply tc_once. auto.
  - eapply tc_l; [|exact IH]. auto.
Qed.

Lemma cyclesSpec_impl def def' x r :
  length (nodeInfos def) = length (nodeInfos def') →
  (∀ n m, dependsOn def n m ↔ dependsOn def' n m) →
  cyclesSpec def x r → cyclesSpec def' x r.
Proof.
  intros Hlen Hdep.
  assert (∀ a b, rtc (dependsOn def) a b ↔ rtc (dependsOn def') a b) as Hrtc.
  { intros a b. split; apply rtc_subrel; intros; by apply Hdep. }
  assert (∀ a b, tc (dependsOn def) a b ↔ tc (dependsOn def') a b) as Htc.
  { intros a b. split; apply tc_rel_impl; intros; by apply Hdep. }
  assert (cycleReached def x ↔ cycleReached def' x) as Hcyc.
  { unfold cycleReached. split; intros (n & Hn & Hc); exists n.
    - by rewrite <- Hrtc, <- Htc.
    - by rewrite Hrtc, Htc. }
  intros [[Hc ->]|[Hc (k & (l & Hnd & Hl & Hk) & ->)]].
  - left. by rewrite <- Hcyc.
  - right. rewrite <- Hcyc. split; [done|]. exists k. rewrite <- Hlen.
    split; [|done]. exists l. split; [done|]. split; [|done].
    intros n. by rewrite Hl, Hrtc.
Qed.

(** The answer depends on the definition through the exit name, the
    number of nodes and the dependencies of each name only. *)
Lemma validateForCycles_ext def def' :
  exitName def = exitName def' →
  length (nodeInfos def) = length (nodeInfos def') →
  (∀ n m, dependsOn def n m ↔ dependsOn def' n m) →
  validateForCycles def = validateForCycles def'.
Proof.
  intros Hexit Hlen Hdep.
  destruct (validateForCycles_total def) as [r Hr].
  rewrite Hr. symmetry. apply validateForCycles_spec.
  apply validateForCycles_spec in Hr. rewrite <- Hexit.
  destruct (exitName def); [|done]. by apply (cyclesSpec_impl def def').
Qed.

(** X6.  [validateForCycles] returns, with one of four statuses, and the
    loop needs no more rounds than twice the number of dependency entries
    plus one: run with any larger bound it gives the same answer. *)
Theorem validateForCycles_ends def :
  (∃ r, validateForCycles def = Some r ∧
        (r = PIPELINE_MISSING_ENTRY_OR_EXIT ∨ r = PIPELINE_CYCLE_FOUND ∨
         r = PIPELINE_CONTAINS_UNCONNECTED_NODES ∨ r = OK)) ∧
  (∀ itr fuel,
     find (λ nodeInfo, bool_decide (kind nodeInfo = EXIT)) (nodeInfos def)
       = Some itr →
     cyclesFuel def ≤ fuel →
     cyclesLoop def fuel (nodeName itr) [nodeName itr] []
     = validateForCycles def).
Proof.
  split.
  - destruct (validateForCycles_total def) as [r Hr]. exists r.
    split; [done|]. apply validateForCycles_spec in Hr.
    destruct (exitName def); [|auto].
    destruct Hr as [[_ ->]|[_ (k & _ & ->)]]; [auto|].
    case_decide; auto.
  - intros itr fuel Hfind Hfuel.
    destruct (validateForCycles_total def) as [r Hr]. rewrite Hr.
    unfold validateForCycles in Hr. rewrite Hfind in Hr.
    by apply (cyclesLoop_more_fuel def (cyclesFuel def)).
Qed.

(** X7.  The answer of [validateForCycles] does not depend on the order
    in which the connections are iterated, nor on the bindings: for the
    same nodes, when every name has the same dependencies up to their
    order, the answer is the same. *)
Theorem validateForCycles_order_independent def def' :
  nodeInfos def = nodeInfos def' →
  (∀ n, (connections_at (connections def) n).*1
        ≡ₚ (connections_at (connections def') n).*1) →
  validateForCycles def = validateForCycles def'.
Proof.
  intros Hinfos Hperm. apply validateForCycles_ext.
  - unfold exitName. by rewrite Hinfos.
  - by rewrite Hinfos.
  - intros n m. unfold dependsOn. by rewrite (Hperm n).
Qed.

Section CyclesUnconnected.

Context {ModelManager : Type}.
Variable resolve : ModelManager → string → Z → ModelLookup.

(** X8.  For a definition that passed [validateNodes], the walk answers
    PIPELINE_CONTAINS_UNCONNECTED_NODES exactly when no cycle can be
    reached from the exit and some node has no path to the exit. *)
Theorem cycles_unconnected_iff manager def :
  validateNodes resolve manager def = OK →
  validateForCycles def = Some PIPELINE_CONTAINS_UNCONNECTED_NODES ↔
  ∃ x, exitName def = Some x ∧ ¬ cycleReached def x ∧
       ∃ n, n ∈ nodeNames def ∧ ¬ rtc (dependsOn def) x n.
Proof.
  intros Hok.
  pose proof (validateNodes_NoDup resolve manager def Hok) as Hnd.
  pose proof (validateNodes_declared resolve manager def) as Hdecl.
  rewrite validateForCycles_spec.
  destruct (exitName def) as [x|] eqn:Hx.
  2:{ split; [done|]. by intros (? & ? & _). }
  pose proof (exitName_elem def x Hx) as Hxin.
  assert (length (nodeNames def) = length (nodeInfos def)) as Hlen
    by (unfold nodeNames; by rewrite length_fmap).
  split.
  - intros [[_ ?]|[Hnc (k & (l & Hl & Hreach & <-) & Hk)]]; [done|].
    case_decide as Hne; [|done].
    exists x. split; [done|]. split; [done|].
    destruct (decide (Forall (λ n, n ∈ l) (nodeNames def))) as [Hall|Hnot].
    + exfalso. apply Hne. rewrite <- Hlen. apply Permutation_length.
      apply NoDup_Permutation; [done..|]. intros n. split.
      * intros Hn. apply (Hdecl x n Hok Hxin). by apply Hreach.
      * intros Hn. rewrite Forall_forall in Hall. by apply Hall.
    + apply not_Forall_Exists in Hnot; [|apply _].
      apply Exists_exists in Hnot as (n & Hn & Hnl). exists n.
      split; [done|]. by rewrite <- Hreach.
  - intros (? & [= <-] & Hnc & n & Hn & Hnot). right. split; [done|].
    destruct (validateForCycles_total def) as [r Hr].
    apply validateForCycles_spec in Hr. rewrite Hx in Hr.
    destruct Hr as [[? _]|[_ (k & Hk & _)]]; [done|].
    exists k. split; [done|]. rewrite decide_True; [done|].
    destruct Hk as (l & Hl & Hreach & <-). intros Heq.
    assert (l ≡ₚ nodeNames def) as Hperm.
    { apply submseteq_length_Permutation; [|lia].
      apply NoDup_submseteq; [done|]. intros m Hm.
      apply (Hdecl x m Hok Hxin). by apply Hreach. }
    apply Hnot, Hreach. by rewrite Hperm.
Qed.

End CyclesUnconnected.

Lemma validateForCycles_ends_witness :
  find (λ nodeInfo, bool_decide (kind nodeInfo = EXIT)) (nodeInfos pipelineS3)
    = Some responseNode ∧
  cyclesFuel pipelineS3 ≤ 40 ∧
  cyclesLoop pipelineS3 40 (nodeName responseNode) [nodeName responseNode] []
  = validateForCycles pipelineS3.
Proof.
  assert (find (λ nodeInfo, bool_decide (kind nodeInfo = EXIT))
               (nodeInfos pipelineS3) = Some responseNode) as H1
    by reflexivity.
  assert (cyclesFuel pipelineS3 ≤ 40) as H2 by (vm_compute; lia).
  do 2 (split; [assumption|]).
  exact (proj2 (validateForCycles_ends pipelineS3) responseNode 40 H1 H2).
Defined.

Lemma validateForCycles_order_independent_witness :
  nodeInfos pipelineS3 = nodeInfos pipelineS3swapped ∧
  (∀ n, (connections_at (connections pipelineS3) n).*1
        ≡ₚ (connections_at (connections pipelineS3swapped) n).*1) ∧
  validateForCycles pipelineS3 = validateForCycles pipelineS3swapped.
Proof.
  assert (nodeInfos pipelineS3 = nodeInfos pipelineS3swapped) as H1
    by reflexivity.
  assert (∀ n, (connections_at (connections pipelineS3) n).*1
               ≡ₚ (connections_at (connections pipelineS3swapped) n).*1)
    as H2.
  { intros n. unfold connections_at. simpl.
    repeat case_decide; simplify_eq; simpl; try done. apply perm_swap. }
  do 2 (split; [assumption|]).
  exact (validateForCycles_order_independent pipelineS3 pipelineS3swapped
           H1 H2).
Defined.

Lemma cycles_unconnected_iff_witness :
  validateNodes getModelInstance managerX pipelineDangling = OK ∧
  ∃ x, exitName pipelineDangling = Some x ∧
       ¬ cycleReached pipelineDangling x ∧
       ∃ n, n ∈ nodeNames pipelineDangling ∧
            ¬ rtc (dependsOn pipelineDangling) x n.
Proof.
  assert (validateNodes getModelInstance managerX pipelineDangling = OK)
    as H1 by reflexivity.
  split; [assumption|].
  exact (proj1 (cycles_unconnected_iff getModelInstance managerX
                  pipelineDangling H1) eq_refl).
Defined.

(** * Further properties of [createDefinition] *)

Section DefinitionFacts.

Context {ModelManager : Type}.
Variable resolve : ModelManager → string → Z → ModelLookup.

Lemma createDefinition_OK_iff definitions pipelineName infos conns manager :
  fst <$> createDefinition resolve definitions pipelineName infos conns manager
    = Some OK ↔
  definitions !! pipelineName = None ∧
  validateNodes resolve manager (mkPipelineDefinition pipelineName infos conns)
    = OK ∧
  validateForCycles (mkPipelineDefinition pipelineName infos conns) = Some OK.
Proof.
  unfold createDefinition.
  destruct (definitions !! pipelineName).
  { split; [done|]. by intros [? _]. }
  destruct (validateNodes resolve manager _) eqn:Hv;
    try (split; [done|]; by intros (_ & ? & _)).
  destruct (validateForCycles _) as [r|].
  - destruct r; simpl; split; try done; try (by intros (_ & _ & ?)).
  - split; [done|]. by intros (_ & _ & ?).
Qed.

(** Validation reads the connections through [connections[name]] only. *)
Lemma validateNode_connections n n' infos c c' manager node :
  connections_at c (nodeName node) ≡ₚ connections_at c' (nodeName node) →
  validateNode resolve manager (mkPipelineDefinition n infos c) node = OK →
  validateNode resolve manager (mkPipelineDefinition n' infos c') node = OK.
Proof.
  intros Hperm. unfold validateNode. simpl.
  destruct (validateNodeModel resolve manager node) as [st|inputs]; [done|].
  rewrite !validateConnections_OK. by rewrite Hperm.
Qed.

Lemma validateNodes_connections n n' infos c c' manager :
  (∀ k, connections_at c k ≡ₚ connections_at c' k) →
  validateNodes resolve manager (mkPipelineDefinition n infos c) = OK →
  validateNodes resolve manager (mkPipelineDefinition n' infos c') = OK.
Proof.
  intros Hperm. rewrite !validateNodes_OK_iff. simpl.
  intros (Hpass & He & Hx). split; [|done].
  eapply Forall_impl; [exact Hpass|]. intros node [Hc Hv]. split; [done|].
  by apply (validateNode_connections n n' infos c c').
Qed.

Lemma validateForCycles_connections n n' infos c c' :
  (∀ k, connections_at c k ≡ₚ connections_at c' k) →
  validateForCycles (mkPipelineDefinition n infos c)
  = validateForCycles (mkPipelineDefinition n' infos c').
Proof.
  intros Hperm. apply validateForCycles_ext; [done..|].
  intros k m. unfold dependsOn. simpl. by rewrite (Hperm k).
Qed.

(** X9.  Whether [createDefinition] accepts a definition does not depend
    on the order in which the edges into a node are iterated. *)
Theorem acceptance_edge_order definitions pipelineName infos conns conns'
    manager :
  (∀ k, connections_at conns k ≡ₚ connections_at conns' k) →
  fst <$> createDefinition resolve definitions pipelineName infos conns manager
    = Some OK ↔
  fst <$> createDefinition resolve definitions pipelineName infos conns' manager
    = Some OK.
Proof.
  intros Hperm. rewrite !createDefinition_OK_iff.
  rewrite (validateForCycles_connections pipelineName pipelineName infos
             conns conns' Hperm).
  split; intros (Hfree & Hv & Hc); repeat split; try done.
  - by apply (validateNodes_connections pipelineName pipelineName infos conns
                conns').
  - apply (validateNodes_connections pipelineName pipelineName infos conns'
             conns); [|done]. intros k. by rewrite (Hperm k).
Qed.

(** *** The order of the nodes *)

Lemma find_by_name_perm (infos infos' : list NodeInfo) n :
  NoDup (nodeName <$> infos) → infos ≡ₚ infos' →
  find (λ nodeInfo, bool_decide (nodeName nodeInfo = n)) infos
  = find (λ nodeInfo, bool_decide (nodeName nodeInfo = n)) infos'.
Proof.
  intros Hnd Hperm.
  destruct (find _ infos) as [a|] eqn:Ha; symmetry.
  - pose proof (find_elem _ _ _ Ha) as Hin.
    pose proof (find_by_name_name _ _ _ Ha) as Hname.
    destruct (find _ infos') as [b|] eqn:Hb.
    + pose proof (find_elem _ _ _ Hb) as Hin'.
      pose proof (find_by_name_name _ _ _ Hb) as Hname'.
      rewrite <- Hperm in Hin'. f_equal.
      apply list_elem_of_lookup in Hin as [i Hi].
      apply list_elem_of_lookup in Hin' as [j Hj].
      assert (i = j) as ->; [|congruence].
      apply (NoDup_lookup (nodeName <$> infos) i j n); [done|..];
        rewrite list_lookup_fmap.
      * by rewrite Hi; simpl; rewrite Hname.
      * by rewrite Hj; simpl; rewrite Hname'.
    + apply find_by_name_None_inv in Hb. rewrite <- Hperm in Hb.
      rewrite Forall_forall in Hb. by destruct (Hb a Hin).
  - apply find_by_name_None. rewrite <- Hperm.
    by apply find_by_name_None_inv.
Qed.

Lemma countByName_perm (infos infos' : list NodeInfo) n :
  infos ≡ₚ infos' → countByName infos n = countByName infos' n.
Proof. intros Hperm. unfold countByName. by rewrite Hperm. Qed.

Lemma countByKind_perm (infos infos' : list NodeInfo) k :
  infos ≡ₚ infos' → countByKind infos k = countByKind infos' k.
Proof. intros Hperm. unfold countByKind. by rewrite Hperm. Qed.

Lemma validateNode_nodes_perm n infos infos' c manager node :
  NoDup (nodeName <$> infos) → infos ≡ₚ infos' →
  validateNode resolve manager (mkPipelineDefinition n infos c) node
  = validateNode resolve manager (mkPipelineDefinition n infos' c) node.
Proof.
  intros Hnd Hperm. unfold validateNode. simpl.
  destruct (validateNodeModel resolve manager node) as [st|inputs]; [done|].
  induction (connections_at c (nodeName node)) as [|e es IH]; simpl; [done|].
  rewrite IH. unfold validateConnection.
  by rewrite (find_by_name_perm infos infos' e.1 Hnd Hperm).
Qed.

Lemma find_exit_perm (infos infos' : list NodeInfo) :
  countByKind infos EXIT = 1 → infos ≡ₚ infos' →
  find (λ nodeInfo, bool_decide (kind nodeInfo = EXIT)) infos
  = find (λ nodeInfo, bool_decide (kind nodeInfo = EXIT)) infos'.
Proof.
  unfold countByKind. intros Hone Hperm.
  assert (∀ l a, find (λ nodeInfo, bool_decide (kind nodeInfo = EXIT)) l
                 = Some a → a ∈ filter (λ nodeInfo, kind nodeInfo = EXIT) l)
    as Hfind.
  { intros l a Ha. apply list_elem_of_filter. apply find_some in Ha as [Hin Hk].
    split; [by apply bool_decide_eq_true_1 in Hk|by apply list_elem_of_In]. }
  assert (∀ l, find (λ nodeInfo, bool_decide (kind nodeInfo = EXIT)) l = None
               → filter (λ nodeInfo, kind nodeInfo = EXIT) l = []) as Hnone.
  { intros l. induction l as [|a l IH]; simpl; [done|].
    rewrite filter_cons. case_bool_decide; [done|].
    rewrite decide_False by done. auto. }
  destruct (filter (λ nodeInfo, kind nodeInfo = EXIT) infos)
    as [|x [|y rest]] eqn:Hf; simpl in Hone; try lia.
  assert (filter (λ nodeInfo, kind nodeInfo = EXIT) infos' ≡ₚ [x]) as Hf'
    by (by rewrite <- Hperm, Hf).
  apply Permutation_singleton_r in Hf'.
  destruct (find _ infos) as [a|] eqn:Ha.
  2:{ apply Hnone in Ha. congruence. }
  destruct (find _ infos') as [b|] eqn:Hb.
  2:{ apply Hnone in Hb. congruence. }
  apply Hfind in Ha, Hb. rewrite Hf in Ha. rewrite Hf' in Hb.
  apply list_elem_of_singleton in Ha, Hb. congruence.
Qed.

Lemma acceptance_node_order_1 definitions pipelineName infos infos' conns
    manager :
  infos ≡ₚ infos' →
  fst <$> createDefinition resolve definitions pipelineName infos conns manager
    = Some OK →
  fst <$> createDefinition resolve definitions pipelineName infos' conns manager
    = Some OK.
Proof.
  intros Hperm. rewrite !createDefinition_OK_iff.
  intros (Hfree & Hv & Hc). split; [done|].
  pose proof (validateNodes_NoDup resolve manager _ Hv) as Hnd.
  unfold nodeNames in Hnd. simpl in Hnd.
  apply validateNodes_OK_iff in Hv as (Hpass & He & Hx). simpl in *.
  split.
  - apply validateNodes_OK_iff. simpl.
    rewrite <- (countByKind_perm infos infos' ENTRY Hperm).
    rewrite <- (countByKind_perm infos infos' EXIT Hperm).
    split; [|done]. eapply Permutation_Forall; [exact Hperm|].
    eapply Forall_impl; [exact Hpass|]. intros node [Hcount Hnode].
    split; simpl.
    + by rewrite <- (countByName_perm infos infos' _ Hperm).
    + by rewrite <- (validateNode_nodes_perm pipelineName infos infos' conns
                       manager node Hnd Hperm).
  - rewrite <- Hc. symmetry. apply validateForCycles_ext.
    + unfold exitName. simpl. by rewrite (find_exit_perm infos infos' Hx Hperm).
    + simpl. by apply Permutation_length.
    + done.
Qed.

(** X10.  Whether [createDefinition] accepts a definition does not depend
    on the order in which its nodes are listed. *)
Theorem acceptance_node_order definitions pipelineName infos infos' conns
    manager :
  infos ≡ₚ infos' →
  fst <$> createDefinition resolve definitions pipelineName infos conns manager
    = Some OK ↔
  fst <$> createDefinition resolve definitions pipelineName infos' conns manager
    = Some OK.
Proof.
  intros Hperm. split; apply acceptance_node_order_1; [done|by symmetry].
Qed.


(** *** The table of definitions *)

Lemma createDefinition_inv definitions n infos conns manager status
    definitions' :
  createDefinition resolve definitions n infos conns manager
    = Some (status, definitions') →
  (is_Some (definitions !! n) ∧
   status = PIPELINE_DEFINITION_ALREADY_EXIST ∧ definitions' = definitions) ∨
  (definitions !! n = None ∧ status ≠ OK ∧ definitions' = definitions) ∨
  (definitions !! n = None ∧ status = OK ∧
   definitions'
   = <[n := mkPipelineDefinition n infos (validatedConnections infos conns)]>
       definitions ∧
   validateNodes resolve manager (mkPipelineDefinition n infos conns) = OK ∧
   validateForCycles (mkPipelineDefinition n infos conns) = Some OK).
Proof.
  unfold createDefinition.
  destruct (definitions !! n) as [d|] eqn:Hn.
  { intros [= <- <-]. left. by eauto. }
  destruct (validateNodes resolve manager _) eqn:Hv;
    try (intros [= <- <-]; right; left; by eauto).
  destruct (validateForCycles _) as [r|] eqn:Hc; [|done].
  destruct r; intros [= <- <-];
    try (right; left; by eauto).
  right. right. by eauto.
Qed.

(** X11.  [createDefinition] never removes or replaces a definition of
    the table; it leaves the table as it is unless it returns OK; when it
    returns OK the name was free and the table gains, under that name, a
    definition with the given nodes whose connections read as the given
    ones; and a name already in the table is answered with
    PIPELINE_DEFINITION_ALREADY_EXIST whatever the nodes. *)
Theorem createDefinition_table definitions n infos conns manager status
    definitions' :
  createDefinition resolve definitions n infos conns manager
    = Some (status, definitions') →
  (∀ k d, definitions !! k = Some d → definitions' !! k = Some d) ∧
  (status ≠ OK → definitions' = definitions) ∧
  (status = OK →
   definitions !! n = None ∧
   dom definitions' = {[n]} ∪ dom definitions ∧
   ∃ d, definitions' !! n = Some d ∧ pipelineName d = n ∧
        nodeInfos d = infos ∧
        ∀ k, connections_at (connections d) k = connections_at conns k) ∧
  (is_Some (definitions !! n) →
   status = PIPELINE_DEFINITION_ALREADY_EXIST).
Proof.
  intros Hcreate.
  destruct (createDefinition_inv _ _ _ _ _ _ _ Hcreate)
    as [(Hn & -> & ->)|[(Hn & Hst & ->)|(Hn & -> & -> & _)]].
  - repeat split; try done.
  - repeat split; try done. rewrite Hn. by intros [? ?].
  - repeat split; try done.
    + intros k d Hk. rewrite lookup_insert_ne; [done|]. congruence.
    + by rewrite dom_insert_L.
    + eexists. rewrite lookup_insert_eq. split; [done|]. simpl.
      repeat split. apply connections_at_validated.
    + rewrite Hn. by intros [? ?].
Qed.

(** X12.  Once [createDefinition] has returned OK for a name, a second
    call with that name returns PIPELINE_DEFINITION_ALREADY_EXIST and
    leaves the table as it is, whatever the nodes, the connections and the
    state of the manager. *)
Theorem createDefinition_twice definitions n infos conns manager definitions'
    infos2 conns2 manager2 :
  createDefinition resolve definitions n infos conns manager
    = Some (OK, definitions') →
  createDefinition resolve definitions' n infos2 conns2 manager2
  = Some (PIPELINE_DEFINITION_ALREADY_EXIST, definitions').
Proof.
  intros Hcreate.
  destruct (createDefinition_inv _ _ _ _ _ _ _ Hcreate)
    as [(_ & ? & _)|[(_ & ? & _)|(_ & _ & -> & _)]]; try done.
  unfold createDefinition. by rewrite lookup_insert_eq.
Qed.

(** X13.  The definition that [createDefinition] stores, with the empty
    entries that [connections[name]] inserted during validation, is
    accepted again by [validateNodes] and [validateForCycles] for the same
    state of the manager. *)
Theorem stored_definition_validates definitions n infos conns manager
    definitions' :
  createDefinition resolve definitions n infos conns manager
    = Some (OK, definitions') →
  ∃ d, definitions' !! n = Some d ∧
       validateNodes resolve manager d = OK ∧
       validateForCycles d = Some OK.
Proof.
  intros Hcreate.
  destruct (createDefinition_inv _ _ _ _ _ _ _ Hcreate)
    as [(_ & ? & _)|[(_ & ? & _)|(_ & _ & -> & Hv & Hc)]]; try done.
  eexists. rewrite lookup_insert_eq. split; [done|]. split.
  - apply (validateNodes_connections n n infos conns); [|done].
    intros k. by rewrite connections_at_validated.
  - rewrite <- Hc. apply validateForCycles_connections.
    intros k. by rewrite connections_at_validated.
Qed.

End DefinitionFacts.

Lemma acceptance_edge_order_witness :
  (∀ k, connections_at connectionsSide k
        ≡ₚ connections_at connectionsSideBack k) ∧
  fst <$> createDefinition getModelInstance ∅ "side" nodesS4 connectionsSide
            managerX = Some OK ∧
  fst <$> createDefinition getModelInstance ∅ "side" nodesS4
            connectionsSideBack managerX = Some OK.
Proof.
  assert (∀ k, connections_at connectionsSide k
               ≡ₚ connections_at connectionsSideBack k) as H1.
  { intros k. unfold connections_at. simpl.
    repeat case_decide; simplify_eq; simpl; try done. apply perm_swap. }
  assert (fst <$> createDefinition getModelInstance ∅ "side" nodesS4
                    connectionsSide managerX = Some OK) as H2 by reflexivity.
  do 2 (split; [assumption|]).
  exact (proj1 (acceptance_edge_order getModelInstance ∅ "side" nodesS4
                  connectionsSide connectionsSideBack managerX H1) H2).
Defined.

Lemma acceptance_node_order_witness :
  nodesS4 ≡ₚ [responseNode; nodeA; requestNode] ∧
  fst <$> createDefinition getModelInstance ∅ "S4" nodesS4 connectionsS4
            managerX = Some OK ∧
  fst <$> createDefinition getModelInstance ∅ "S4"
            [responseNode; nodeA; requestNode] connectionsS4 managerX
  = Some OK.
Proof.
  assert (nodesS4 ≡ₚ [responseNode; nodeA; requestNode]) as H1.
  { unfold nodesS4. etrans; [apply perm_swap|].
    etrans; [apply perm_skip, perm_swap|]. apply perm_swap. }
  assert (fst <$> createDefinition getModelInstance ∅ "S4" nodesS4
                    connectionsS4 managerX = Some OK) as H2 by reflexivity.
  do 2 (split; [assumption|]).
  exact (proj1 (acceptance_node_order getModelInstance ∅ "S4" nodesS4
                  [responseNode; nodeA; requestNode] connectionsS4 managerX
                  H1) H2).
Defined.

Lemma createDefinition_table_witness :
  createDefinition getModelInstance ∅ "S4" nodesS4 connectionsS4 managerX
  = Some (OK, {[ "S4" := mkPipelineDefinition "S4" nodesS4
                           (validatedConnections nodesS4 connectionsS4) ]}) ∧
  ∃ d, ({[ "S4" := mkPipelineDefinition "S4" nodesS4
                     (validatedConnections nodesS4 connectionsS4) ]}
          : gmap string PipelineDefinition) !! "S4" = Some d ∧
       pipelineName d = "S4" ∧ nodeInfos d = nodesS4 ∧
       ∀ k, connections_at (connections d) k = connections_at connectionsS4 k.
Proof.
  assert (createDefinition getModelInstance ∅ "S4" nodesS4 connectionsS4
            managerX
          = Some (OK, {[ "S4" := mkPipelineDefinition "S4" nodesS4
                           (validatedConnections nodesS4 connectionsS4) ]}))
    as H1 by reflexivity.
  split; [assumption|].
  exact (proj2 (proj2 (proj1 (proj2 (proj2
           (createDefinition_table getModelInstance ∅ "S4" nodesS4
              connectionsS4 managerX _ _ H1))) eq_refl))).
Defined.

Lemma createDefinition_twice_witness :
  createDefinition getModelInstance ∅ "S4" nodesS4 connectionsS4 managerX
  = Some (OK, {[ "S4" := mkPipelineDefinition "S4" nodesS4
                           (validatedConnections nodesS4 connectionsS4) ]}) ∧
  createDefinition getModelInstance
    {[ "S4" := mkPipelineDefinition "S4" nodesS4
                 (validatedConnections nodesS4 connectionsS4) ]}
    "S4" nodesS3 connectionsS3 managerEmpty
  = Some (PIPELINE_DEFINITION_ALREADY_EXIST,
          {[ "S4" := mkPipelineDefinition "S4" nodesS4
                       (validatedConnections nodesS4 connectionsS4) ]}).
Proof.
  assert (createDefinition getModelInstance ∅ "S4" nodesS4 connectionsS4
            managerX
          = Some (OK, {[ "S4" := mkPipelineDefinition "S4" nodesS4
                           (validatedConnections nodesS4 connectionsS4) ]}))
    as H1 by reflexivity.
  split; [assumption|].
  exact (createDefinition_twice getModelInstance ∅ "S4" nodesS4 connectionsS4
           managerX _ nodesS3 connectionsS3 managerEmpty H1).
Defined.

Lemma stored_definition_validates_witness :
  createDefinition getModelInstance ∅ "S4" nodesS4 connectionsS4 managerX
  = Some (OK, {[ "S4" := mkPipelineDefinition "S4" nodesS4
                           (validatedConnections nodesS4 connectionsS4) ]}) ∧
  ∃ d, ({[ "S4" := mkPipelineDefinition "S4" nodesS4
                     (validatedConnections nodesS4 connectionsS4) ]}
          : gmap string PipelineDefinition) !! "S4" = Some d ∧
       validateNodes getModelInstance managerX d = OK ∧
       validateForCycles d = Some OK.
Proof.
  assert (createDefinition getModelInstance ∅ "S4" nodesS4 connectionsS4
            managerX
          = Some (OK, {[ "S4" := mkPipelineDefinition "S4" nodesS4
                           (validatedConnections nodesS4 connectionsS4) ]}))
    as H1 by reflexivity.
  split; [assumption|].
  exact (stored_definition_validates getModelInstance ∅ "S4" nodesS4
           connectionsS4 managerX _ H1).
Defined.

(** * Further properties of [create] *)

Section ConnectFacts.

Context {PredictRequest PredictResponse DLNodeObject : Type}.

Lemma connectDependencies_None_iff
    (nodes : gmap string (@Node PredictRequest PredictResponse DLNodeObject))
    dependant deps :
  connectDependencies nodes dependant deps = None ↔
  ∃ n, n ∈ deps.*1 ∧ nodes !! n = None.
Proof.
  induction deps as [|d deps IH]; simpl.
  { split; [done|]. intros (n & Hn & _). by apply elem_of_nil in Hn. }
  destruct (nodes !! d.1) as [v|] eqn:Hd.
  - destruct (connectDependencies nodes dependant deps) as [es|].
    + split; [done|]. intros (n & Hn & Hnone).
      apply elem_of_cons in Hn as [->|Hn]; [congruence|].
      destruct IH as [_ IH]. by discriminate IH; eauto.
    + split; [|done]. intros _. destruct IH as [IH _].
      destruct (IH eq_refl) as (n & Hn & Hnone). exists n.
      split; [by right|done].
  - split; [|done]. intros _. exists d.1. split; [left|done].
Qed.

Lemma connectAll_None_iff
    (nodes : gmap string (@Node PredictRequest PredictResponse DLNodeObject)) c :
  connectAll nodes c = None ↔
  ∃ n, n ∈ connectionNames c ∧ nodes !! n = None.
Proof.
  unfold connectionNames. induction c as [|kv c IH]; simpl.
  { split; [done|]. intros (n & Hn & _). by apply elem_of_nil in Hn. }
  assert (∀ n, n ∈ (kv.1 :: kv.2.*1) ++ flat_map (λ kv, kv.1 :: kv.2.*1) c ↔
               n = kv.1 ∨ n ∈ kv.2.*1 ∨
               n ∈ flat_map (λ kv, kv.1 :: kv.2.*1) c) as Hmem.
  { intros n. rewrite elem_of_app, elem_of_cons. tauto. }
  destruct (nodes !! kv.1) as [v|] eqn:Hk.
  2:{ split; [|done]. intros _. exists kv.1. split; [left|done]. }
  destruct (connectDependencies nodes kv.1 kv.2) as [es|] eqn:Hdeps.
  2:{ split; [|done]. intros _.
      apply connectDependencies_None_iff in Hdeps as (n & Hn & Hnone).
      exists n. split; [|done]. apply (Hmem n). auto. }
  destruct (connectAll nodes c) as [es'|].
  - split; [done|]. intros (n & Hn & Hnone).
    apply (Hmem n) in Hn as [->|[Hn|Hn]].
    + congruence.
    + assert (connectDependencies nodes kv.1 kv.2 = None) as Hcontra
        by (apply connectDependencies_None_iff; eauto).
      congruence.
    + destruct IH as [_ IH]. by discriminate IH; eauto.
  - split; [|done]. intros _. destruct IH as [IH _].
    destruct (IH eq_refl) as (n & Hn & Hnone). exists n.
    split; [|done]. apply (Hmem n). auto.
Qed.

Lemma connectDependencies_edges
    (nodes : gmap string (@Node PredictRequest PredictResponse DLNodeObject))
    dependant deps es :
  connectDependencies nodes dependant deps = Some es →
  es = (λ dependency, mkEdge dependency.1 dependant dependency.2) <$> deps.
Proof.
  revert es. induction deps as [|d deps IH]; intros es; simpl.
  { by intros [= <-]. }
  destruct (nodes !! d.1); [|done].
  destruct (connectDependencies nodes dependant deps) as [es'|]; [|done].
  intros [= <-]. by rewrite (IH es').
Qed.

Lemma connectAll_edges
    (nodes : gmap string (@Node PredictRequest PredictResponse DLNodeObject)) c es :
  connectAll nodes c = Some es → es = allEdges c.
Proof.
  unfold allEdges. revert es. induction c as [|kv c IH]; intros es; simpl.
  { by intros [= <-]. }
  destruct (nodes !! kv.1); [|done].
  destruct (connectDependencies nodes kv.1 kv.2) as [es1|] eqn:Hdeps; [|done].
  destruct (connectAll nodes c) as [es2|]; [|done].
  intros [= <-]. apply connectDependencies_edges in Hdeps as ->.
  by rewrite (IH es2).
Qed.

End ConnectFacts.

Section CreateMore.

Context {PredictRequest PredictResponse ModelManager DLNodeObject : Type}.
Variable newDLNode :
  string → string → option Z → ModelManager → gmap string string →
  DLNodeObject.

(** The table of nodes after the loop: an entry that was there stays,
    and a name that was free holds the node of the first description that
    bears it. *)
Lemma createNodes_lookup (request : PredictRequest)
    (response : PredictResponse) (manager : ModelManager) infos st n :
  (foldl (createNode newDLNode request response manager) st infos).1.1 !! n
  = match st.1.1 !! n with
    | Some node => Some node
    | None =>
        makeNode newDLNode request response manager
          <$> find (λ nodeInfo, bool_decide (nodeName nodeInfo = n)) infos
    end.
Proof.
  revert st. induction infos as [|info infos IH]; intros [[nodes e] x].
  { simpl. by destruct (nodes !! n). }
  cbn [foldl]. rewrite IH. cbn [find].
  assert ((createNode newDLNode request response manager (nodes, e, x) info).1.1
          = insert_new (nodeName info) (makeNode newDLNode request response manager info) nodes)
    as ->.
  { unfold createNode, makeNode. by destruct (kind info). }
  unfold insert_new. simpl.
  destruct (nodes !! nodeName info) as [v|] eqn:Hinfo.
  - destruct (nodes !! n) as [w|] eqn:Hn; [done|].
    rewrite bool_decide_eq_false_2; [done|]. congruence.
  - case_bool_decide as Hname.
    + subst n. by rewrite lookup_insert_eq, Hinfo.
    + rewrite lookup_insert_ne by done. done.
Qed.


(** X14.  [create] throws [std::out_of_range] exactly when the
    connections of the definition name, as a dependant or as a dependency,
    a node that the definition does not declare. *)
Theorem create_out_of_range_iff (def : PipelineDefinition)
    (request : PredictRequest) (response : PredictResponse)
    (manager : ModelManager) :
  create newDLNode def request response manager = ThrewOutOfRange ↔
  ∃ n, n ∈ connectionNames (connections def) ∧ n ∉ nodeNames def.
Proof.
  unfold create.
  pose proof (createNodes_dom newDLNode request response manager (nodeInfos def)
                (∅, NullPtr, NullPtr)) as Hdom.
  destruct (foldl _ _ _) as [[nodes entry] exit]. simpl in Hdom.
  assert (∀ n, nodes !! n = None ↔ n ∉ nodeNames def) as Hnone.
  { intros n. rewrite <- not_elem_of_dom, Hdom. unfold nodeNames.
    rewrite dom_empty_L, elem_of_union, elem_of_list_to_set.
    split; [intros H ?; apply H; by right|].
    intros H [Hempty|?]; [by apply not_elem_of_empty in Hempty|done]. }
  destruct (connectAll nodes (connections def)) as [edges|] eqn:Hconn.
  - split.
    + by destruct (deref nodes entry), (deref nodes exit).
    + intros (m & Hm & Hnot). apply Hnone in Hnot.
      assert (connectAll nodes (connections def) = None) as Hcontra
        by (apply connectAll_None_iff; eauto).
      congruence.
  - split; [|done]. intros _.
    apply connectAll_None_iff in Hconn as (m & Hm & Hnot).
    exists m. split; [done|]. by apply Hnone.
Qed.

(** X15.  When [create] returns, the pipeline bears the name of the
    definition; [Pipeline::connect] was called once for each edge of the
    connections, in their order; and the node held under a name is the
    node built from the first description that bears the name. *)
Theorem create_pipeline_content (def : PipelineDefinition)
    (request : PredictRequest) (response : PredictResponse)
    (manager : ModelManager) status pipeline :
  create newDLNode def request response manager = Returned status pipeline →
  ∃ p, pipeline = Some p ∧
       getPipelineName p = pipelineName def ∧
       pipelineEdges p = allEdges (connections def) ∧
       ∀ n, pipelineNodes p !! n
            = makeNode newDLNode request response manager
                <$> find (λ nodeInfo, bool_decide (nodeName nodeInfo = n))
                      (nodeInfos def).
Proof.
  unfold create.
  pose proof (createNodes_lookup request response manager (nodeInfos def)
                (∅, NullPtr, NullPtr)) as Hlookup.
  destruct (foldl _ _ _) as [[nodes entry] exit]. simpl in Hlookup.
  destruct (connectAll nodes (connections def)) as [edges|] eqn:Hconn;
    [|done].
  destruct (deref nodes entry); [|done].
  destruct (deref nodes exit); [|done].
  intros [= <- <-]. eexists. split; [done|]. simpl. split; [done|].
  split; [by apply connectAll_edges in Hconn|].
  intros k. rewrite Hlookup. by rewrite lookup_empty.
Qed.


End CreateMore.

(** * From the definition to the pipeline of a request *)




Section RequestFacts.

Context {ModelManager PredictRequest PredictResponse RequestManager
         DLNodeObject : Type}.
Variable resolve : ModelManager → string → Z → ModelLookup.
Variable newDLNode :
  string → string → option Z → RequestManager → gmap string string →
  DLNodeObject.



End RequestFacts.

(** ** The theorems above at the scenarios *)

Lemma validateNode_error_sound_witness :
  validateNode getModelInstance managerX pipelineSlipDL nodeB
    = INVALID_MISSING_OUTPUT ∧
  INVALID_MISSING_OUTPUT ≠ OK ∧
  nodeDefect getModelInstance managerX pipelineSlipDL nodeB
    INVALID_MISSING_OUTPUT.
Proof.
  assert (validateNode getModelInstance managerX pipelineSlipDL nodeB
          = INVALID_MISSING_OUTPUT) as H1 by reflexivity.
  assert (INVALID_MISSING_OUTPUT ≠ OK) as H2 by discriminate.
  do 2 (split; [assumption|]).
  exact (validateNode_error_sound getModelInstance managerX pipelineSlipDL
           nodeB INVALID_MISSING_OUTPUT H1 H2).
Defined.

Lemma validateNodes_error_sound_witness :
  validateNodes getModelInstance managerX pipelineTwice
    = PIPELINE_NODE_NAME_DUPLICATE ∧
  PIPELINE_NODE_NAME_DUPLICATE ≠ OK ∧
  definitionDefect getModelInstance managerX pipelineTwice
    PIPELINE_NODE_NAME_DUPLICATE.
Proof.
  assert (validateNodes getModelInstance managerX pipelineTwice
          = PIPELINE_NODE_NAME_DUPLICATE) as H1 by reflexivity.
  assert (PIPELINE_NODE_NAME_DUPLICATE ≠ OK) as H2 by discriminate.
  do 2 (split; [assumption|]).
  exact (validateNodes_error_sound getModelInstance managerX pipelineTwice
           PIPELINE_NODE_NAME_DUPLICATE H1 H2).
Defined.

Lemma create_pipeline_content_witness :
  ∃ created,
    create guardedDLNode pipelineS4 "request" "response" managerX
      = Returned OK created ∧
    ∃ p, created = Some p ∧
         getPipelineName p = pipelineName pipelineS4 ∧
         pipelineEdges p = allEdges (connections pipelineS4) ∧
         ∀ n, pipelineNodes p !! n
              = makeNode guardedDLNode "request" "response" managerX
                  <$> find (λ nodeInfo, bool_decide (nodeName nodeInfo = n))
                        (nodeInfos pipelineS4).
Proof.
  assert (∃ created,
            create guardedDLNode pipelineS4 "request" "response" managerX
            = Returned OK created) as [created H1]
    by (eexists; reflexivity).
  exists created. split; [assumption|].
  exact (create_pipeline_content guardedDLNode pipelineS4 "request"
           "response" managerX OK created H1).
Defined.



(** * What the validation reads of the manager *)

Lemma validateAliases_dom sourceNodeInfo outputs outputs' node inputs inputs'
    aliases :
  dom outputs = dom outputs' → dom inputs = dom inputs' →
  validateAliases sourceNodeInfo outputs node inputs aliases
  = validateAliases sourceNodeInfo outputs' node inputs' aliases.
Proof.
  intros Hout Hin.
  assert (∀ k, is_Some (outputs !! k) ↔ is_Some (outputs' !! k)) as Ho.
  { intros k. by rewrite <- !elem_of_dom, Hout. }
  assert (∀ k, is_Some (inputs !! k) ↔ is_Some (inputs' !! k)) as Hi.
  { intros k. by rewrite <- !elem_of_dom, Hin. }
  induction aliases as [|[a i] rest IH]; simpl; [done|].
  specialize (Ho (resolveOutputName sourceNodeInfo a)). specialize (Hi i).
  destruct (outputs !! _) as [?|] eqn:E1, (outputs' !! _) as [?|] eqn:E1';
    try (by destruct Ho as [Ho1 Ho2];
         first [destruct Ho1 as [? [=]]; by eexists
               |destruct Ho2 as [? [=]]; by eexists]); [|done].
  destruct (decide (kind node ≠ DL)); [done|].
  destruct (inputs !! i) as [?|] eqn:E2, (inputs' !! i) as [?|] eqn:E2';
    try (by destruct Hi as [Hi1 Hi2];
         first [destruct Hi1 as [? [=]]; by eexists
               |destruct Hi2 as [? [=]]; by eexists]); done.
Qed.

Section Frame.

Context {ModelManager : Type}.
Variable resolve : ModelManager → string → Z → ModelLookup.

Lemma validateNode_frame manager manager' def node :
  sameModels resolve manager manager' (nodeInfos def) →
  node ∈ nodeInfos def →
  validateNode resolve manager def node
  = validateNode resolve manager' def node.
Proof.
  intros Hsame Hnode.
  assert (∀ inputs inputs' cs, dom inputs = dom inputs' →
            validateConnections resolve manager (nodeInfos def) node inputs cs
            = validateConnections resolve manager' (nodeInfos def) node
                inputs' cs) as Hcs.
  { intros inputs inputs' cs Hdom.
    induction cs as [|c cs IH]; simpl; [done|].
    assert (validateConnection resolve manager (nodeInfos def) node inputs c
            = validateConnection resolve manager' (nodeInfos def) node
                inputs' c) as ->; [|by rewrite IH].
    unfold validateConnection.
    destruct (find _ _) as [source|] eqn:Hfind; [|done].
    destruct (kind source) eqn:Hk; try done.
    destruct (Hsame source (find_elem _ _ _ Hfind) Hk) as [_ H0].
    unfold sameForValidation in H0.
    destruct (resolve manager _ _), (resolve manager' _ _); try done.
    destruct H0 as (_ & _ & Hout).
    destruct (decide _); [done|]. by apply validateAliases_dom. }
  unfold validateNode, validateNodeModel.
  destruct (kind node) eqn:Hk; try by apply Hcs.
  destruct (Hsame node Hnode Hk) as [Hv _]. unfold sameForValidation in Hv.
  destruct (resolve manager _ _) as [i|], (resolve manager' _ _) as [i'|];
    try done.
  destruct Hv as (Hdyn & Hin & _).
  assert (∀ c, dynamicConfig c ↔
               getBatchingMode c = AUTO ∨ anyShapeAuto (getShapes c) = true)
    as Hd.
  { intros c. unfold dynamicConfig. by rewrite anyShapeAuto_iff. }
  pose proof (Hd (getModelConfig i)) as Hf.
  pose proof (Hd (getModelConfig i')) as Hf'.
  destruct (decide (getBatchingMode (getModelConfig i) = AUTO)) as [Hb|Hb],
    (decide (getBatchingMode (getModelConfig i') = AUTO)) as [Hb'|Hb'];
    destruct (anyShapeAuto (getShapes (getModelConfig i))) eqn:Hs,
      (anyShapeAuto (getShapes (getModelConfig i'))) eqn:Hs';
    try done; try by apply Hcs.
  all: exfalso; intuition congruence.
Qed.

Lemma validateNodesLoop_frame manager manager' def entryFound exitFound todo :
  sameModels resolve manager manager' (nodeInfos def) →
  todo ⊆ nodeInfos def →
  validateNodesLoop resolve manager def entryFound exitFound todo
  = validateNodesLoop resolve manager' def entryFound exitFound todo.
Proof.
  intros Hsame. revert entryFound exitFound.
  induction todo as [|node rest IH]; intros entryFound exitFound Hsub;
    simpl; [done|].
  rewrite (validateNode_frame manager manager' def node Hsame)
    by (apply Hsub; left).
  assert (rest ⊆ nodeInfos def) as Hrest by set_solver.
  destruct (decide _); [done|].
  destruct (validateNode resolve manager' def node); try done.
  repeat (destruct (decide _)); destruct entryFound, exitFound;
    try done; by apply IH.
Qed.

(** X18.  [createDefinition] reads of the manager only this: for each DL
    node of the definition, whether its model resolves at the version of
    the node (0 when it has none) and at version 0, whether the resolved
    configuration is dynamic, and the names of the inputs and outputs of
    the resolved instance.  Two states of the manager that agree on these
    give the same status and the same table; the state of an instance,
    the tensors behind the names, the status of a failed resolution and
    every model that no DL node names are not looked at. *)
Theorem createDefinition_reads manager manager' definitions n infos conns :
  sameModels resolve manager manager' infos →
  createDefinition resolve definitions n infos conns manager
  = createDefinition resolve definitions n infos conns manager'.
Proof.
  intros Hsame. unfold createDefinition, validateNodes.
  destruct (definitions !! n); [done|].
  assert (validateNodesLoop resolve manager
            (mkPipelineDefinition n infos conns) false false infos
          = validateNodesLoop resolve manager'
              (mkPipelineDefinition n infos conns) false false infos) as Hloop
    by (by apply validateNodesLoop_frame).
  simpl. by rewrite Hloop.
Qed.

End Frame.

Lemma sameForValidation_refl lookup : sameForValidation lookup lookup.
Proof. by destruct lookup. Qed.

Lemma createDefinition_reads_witness :
  sameModels getModelInstance managerX managerXY nodesS4 ∧
  createDefinition getModelInstance ∅ "S4" nodesS4 connectionsS4 managerX
  = createDefinition getModelInstance ∅ "S4" nodesS4 connectionsS4 managerXY.
Proof.
  assert (sameModels getModelInstance managerX managerXY nodesS4) as H1.
  { intros node Hin Hk.
    apply elem_of_cons in Hin as [->|Hin]; [discriminate Hk|].
    apply elem_of_cons in Hin as [->|Hin];
      [split; apply sameForValidation_refl|].
    apply elem_of_cons in Hin as [->|Hin]; [discriminate Hk|].
    by apply elem_of_nil in Hin. }
  split; [assumption|].
  exact (createDefinition_reads getModelInstance managerX managerXY ∅ "S4"
           nodesS4 connectionsS4 H1).
Defined.
